(** * The in-memory datastore core of luci/gae: transactions, cache planning
      and query reduction

    A shallow embedding of [impl/memory/datastore_data.go] (the head store,
    entity-group versions, the per-transaction mutation log), of the cache
    fetch planner of [filter/dscache] and of the query reduction that the
    tests of [impl/memory] exercise, with the properties the specification
    states about them. *)

From Stdlib Require Import ZArith Lia.
From stdpp Require Import base option list strings gmap fin_maps countable.

Local Open Scope Z_scope.
Local Open Scope string_scope.

(** ** Byte strings, keys and properties *)

(** Go's [[]byte] and [string] hold the same data and the code converts
    freely between them ([string(keyBytes(...))], [bytes.NewBufferString]);
    both are byte strings here. *)
Abbreviation bytes := string (only parsing).

(** 64-bit signed arithmetic of Go: results wrap around. *)
Definition wrap64 (z : Z) : Z := (z + 2 ^ 63) mod 2 ^ 64 - 2 ^ 63.
Definition add64 (a b : Z) : Z := wrap64 (a + b).
Definition int64_max : Z := 2 ^ 63 - 1.
Definition int64_min : Z := - 2 ^ 63.
Definition is_int64 (z : Z) : Prop := int64_min <= z <= int64_max.

(** Modelled from the spec: [ds.Key] of service/datastore (section 3, "Key"):
    an (AppID, Namespace, path) tuple whose path is a non-empty sequence of
    (Kind, StringID or IntID) segments.  The first segment is kept apart so
    that the path cannot be empty. *)
Record KeyTok := mkKeyTok {
  tokKind : string;
  tokIntID : Z;
  tokStringID : string
}.

Record Key := mkKey {
  appID : string;
  namespace : string;
  rootTok : KeyTok;
  restToks : list KeyTok
}.

#[global] Instance KeyTok_eq_dec : EqDecision KeyTok.
Proof. solve_decision. Defined.
#[global] Instance Key_eq_dec : EqDecision Key.
Proof. solve_decision. Defined.

Definition keyToks (k : Key) : list KeyTok := rootTok k :: restToks k.

Definition lastTok (k : Key) : KeyTok := List.last (restToks k) (rootTok k).

(** [Key.Kind], [Key.Namespace], [Key.Incomplete], [Key.Root], [Key.Parent]
    and [ds.NewKey], modelled from the spec: an incomplete key "has its
    trailing IntID = 0 and no StringID"; the root is the "path prefix of
    length 1"; a parent is the path without its last segment ([None] is Go's
    nil, for a root key); [NewKey] under a parent extends the parent's path
    and keeps its application and namespace. *)
Definition keyKind (k : Key) : string := tokKind (lastTok k).

Definition keyIncomplete (k : Key) : bool :=
  bool_decide (tokIntID (lastTok k) = 0) && bool_decide (tokStringID (lastTok k) = "").

Definition keyRoot (k : Key) : Key :=
  {| appID := appID k; namespace := namespace k; rootTok := rootTok k; restToks := [] |}.

Definition keyParent (k : Key) : option Key :=
  match restToks k with
  | [] => None
  | _ :: _ =>
      Some {| appID := appID k; namespace := namespace k;
              rootTok := rootTok k; restToks := removelast (restToks k) |}
  end.

Definition NewKey (aid ns kind stringID : string) (intID : Z) (parent : option Key) : Key :=
  let tok := mkKeyTok kind intID stringID in
  match parent with
  | None => {| appID := aid; namespace := ns; rootTok := tok; restToks := [] |}
  | Some p =>
      {| appID := appID p; namespace := namespace p;
         rootTok := rootTok p; restToks := restToks p ++ [tok] |}
  end.

(** [ds.Property]: a tagged value with its indexability flag. *)
Inductive PropertyType :=
  | PTNull | PTInt | PTTime | PTBool | PTBytes | PTString
  | PTFloat | PTGeoPoint | PTKey | PTBlobKey.

Inductive PropertyValue :=
  | PVNull
  | PVInt (i : Z)
  | PVTime (t : Z)
  | PVBool (b : bool)
  | PVBytes (s : bytes)
  | PVString (s : string)
  | PVFloat (ieee : Z)
  | PVGeoPoint (lat lng : Z)
  | PVKey (k : Key)
  | PVBlobKey (s : string).

Record Property := mkProperty {
  propValue : PropertyValue;
  propIndexed : bool
}.

#[global] Instance PropertyType_eq_dec : EqDecision PropertyType.
Proof. solve_decision. Defined.
#[global] Instance PropertyValue_eq_dec : EqDecision PropertyValue.
Proof. solve_decision. Defined.
#[global] Instance Property_eq_dec : EqDecision Property.
Proof. solve_decision. Defined.

Definition propType (p : Property) : PropertyType :=
  match propValue p with
  | PVNull => PTNull
  | PVInt _ => PTInt
  | PVTime _ => PTTime
  | PVBool _ => PTBool
  | PVBytes _ => PTBytes
  | PVString _ => PTString
  | PVFloat _ => PTFloat
  | PVGeoPoint _ _ => PTGeoPoint
  | PVKey _ => PTKey
  | PVBlobKey _ => PTBlobKey
  end.

Definition MkProperty (v : PropertyValue) : Property := mkProperty v true.
Definition MkPropertyNI (v : PropertyValue) : Property := mkProperty v false.

(** [ds.PropertyMap]: property name to its (multi-valued) properties. *)
Abbreviation PropertyMap := (gmap string (list Property)) (only parsing).

(** Go errors the code tells apart: the sentinels of [ds] and the messages
    made with [errors.New] / [fmt.Errorf]. *)
Inductive error :=
  | ErrNoSuchEntity
  | ErrNullQuery
  | Stop
  | errorsNew (msg : string).

#[global] Instance error_eq_dec : EqDecision error.
Proof. solve_decision. Defined.

(** ** Panics

    [memoryCorruption(err)] and [impossible(err)] panic on a non-nil error,
    as do failed type assertions and out-of-range indexing.  A computation
    either returns or panics. *)
Inductive res (A : Type) : Type :=
  | Ret (a : A)
  | Panic (msg : string).
Arguments Ret {A} a.
Arguments Panic {A} msg.

#[global] Instance res_ret : MRet res := λ A a, Ret a.
#[global] Instance res_bind : MBind res := λ A B f m,
  match m with
  | Ret a => f a
  | Panic msg => Panic msg
  end.

Definition memoryCorruption {E} (err : option E) : res unit :=
  match err with
  | None => Ret tt
  | Some _ => Panic "memory corruption"
  end.

Definition impossible (err : option error) : res unit :=
  match err with
  | None => Ret tt
  | Some _ => Panic "impossible"
  end.

(** ** The serialization codec

    [serialize.ToBytes], [serialize.ReadProperty] and
    [serialize.ReadPropertyMap] (all with context, as the code calls them)
    belong to the codec, which the specification treats as an external
    component with a round-trip contract (section 4.2).  [None] is a decoding
    error. *)
Class Serialize := {
  toBytesProperty : Property → bytes;
  readProperty : bytes → option Property;
  toBytesPropertyMap : PropertyMap → bytes;
  readPropertyMap : bytes → option PropertyMap;
  readProperty_toBytes : ∀ p, readProperty (toBytesProperty p) = Some p;
  readPropertyMap_toBytes : ∀ pm, readPropertyMap (toBytesPropertyMap pm) = Some pm
}.

(** ** The ordered store

    Modelled from the spec: [memStore] / [memCollection] of impl/memory
    (section 4.1, "OrderedStore"): named collections of byte-string pairs with
    [Get], [Set], [Delete], and a [Snapshot] that later mutations of the live
    store do not reach.  A store is a finite map of finite maps, and a
    snapshot is the value of the store at the time it is taken.  A
    [*memCollection] obtained from the head aliases the head: it is
    represented by its collection name, and reads and writes through it go to
    the head. *)
Abbreviation memCollection := (gmap bytes bytes) (only parsing).
Abbreviation memStore := (gmap string (gmap bytes bytes)) (only parsing).

Definition Snapshot (s : memStore) : memStore := s.

Definition GetCollection (s : memStore) (name : string) : option memCollection :=
  s !! name.

Definition collGet (c : option memCollection) (key : bytes) : option bytes :=
  c ≫= λ m, m !! key.

Definition entsGet (s : memStore) (coll : string) (key : bytes) : option bytes :=
  collGet (GetCollection s coll) key.

Definition entsSet (s : memStore) (coll : string) (key val : bytes) : memStore :=
  <[coll := <[key := val]> (default ∅ (s !! coll))]> s.

Definition entsDelete (s : memStore) (coll : string) (key : bytes) : memStore :=
  <[coll := delete key (default ∅ (s !! coll))]> s.

(** ** Package memory: the head store and its transactions *)
Module memory.

(** [updateIndexes] (the index engine) and [PropertyMap.Save] are code of the
    repository outside the file embedded here; the data store calls them and
    is parametric in them.  [pmSave pm] is [pm.Save(false)]. *)
Class Externals := {
  updateIndexes : memStore → Key → option PropertyMap → option PropertyMap → memStore;
  pmSave : PropertyMap → PropertyMap
}.

(** The error a failed [rpm] hands back. *)
Definition errDecode : error := errorsNew "serialize: cannot decode property map".

(** [dataStoreData]; the read-write lock is left out: every method body runs
    under it, and the embedding is sequential. *)
Record dataStoreData := mkDataStoreData {
  aid : string;
  head : memStore;
  snap : option memStore;
  txnFakeRetry : Z;
  autoIndex : bool;
  disableSpecialEntities : bool
}.

Definition withHead (d : dataStoreData) (h : memStore) : dataStoreData :=
  {| aid := aid d; head := h; snap := snap d; txnFakeRetry := txnFakeRetry d;
     autoIndex := autoIndex d; disableSpecialEntities := disableSpecialEntities d |}.

Definition newDataStoreData (a : string) : dataStoreData :=
  let h : memStore := ∅ in
  {| aid := a; head := h; snap := Some (Snapshot h); txnFakeRetry := 0;
     autoIndex := false; disableSpecialEntities := false |}.

Definition setTxnRetry (d : dataStoreData) (count : Z) : dataStoreData :=
  {| aid := aid d; head := head d; snap := snap d; txnFakeRetry := count;
     autoIndex := autoIndex d; disableSpecialEntities := disableSpecialEntities d |}.

Definition setConsistent (d : dataStoreData) (always : bool) : dataStoreData :=
  {| aid := aid d; head := head d;
     snap := if always then None else Some (Snapshot (head d));
     txnFakeRetry := txnFakeRetry d;
     autoIndex := autoIndex d; disableSpecialEntities := disableSpecialEntities d |}.

Definition setAutoIndex (d : dataStoreData) (enable : bool) : dataStoreData :=
  {| aid := aid d; head := head d; snap := snap d; txnFakeRetry := txnFakeRetry d;
     autoIndex := enable; disableSpecialEntities := disableSpecialEntities d |}.

(** The parameter is not read: the flag is set to [true]. *)
Definition setDisableSpecialEntities (d : dataStoreData) (enabled : bool) : dataStoreData :=
  {| aid := aid d; head := head d; snap := snap d; txnFakeRetry := txnFakeRetry d;
     autoIndex := autoIndex d; disableSpecialEntities := true |}.

Definition getDisableSpecialEntities (d : dataStoreData) : bool :=
  disableSpecialEntities d.

Definition takeSnapshot (d : dataStoreData) : memStore := Snapshot (head d).

Definition setSnapshot (d : dataStoreData) (s : memStore) : dataStoreData :=
  match snap d with
  | None => d
  | Some _ =>
      {| aid := aid d; head := head d; snap := Some s; txnFakeRetry := txnFakeRetry d;
         autoIndex := autoIndex d; disableSpecialEntities := disableSpecialEntities d |}
  end.

Definition catchupIndexes (d : dataStoreData) : dataStoreData :=
  setSnapshot d (Snapshot (head d)).

Section DataStore.
Context `{!Serialize} `{!Externals}.

Definition keyBytes (key : Key) : bytes :=
  toBytesProperty (MkProperty (PVKey key)).

Definition rpm (data : bytes) : option PropertyMap := readPropertyMap data.

Definition groupMetaKey (key : Key) : bytes :=
  keyBytes (NewKey "" "" "__entity_group__" "" 1 (Some (keyRoot key))).

Definition groupIDsKey (key : Key) : bytes :=
  keyBytes (NewKey "" "" "__entity_group_ids__" "" 1 (Some (keyRoot key))).

Definition rootIDsKey (kind : string) : bytes :=
  keyBytes (NewKey "" "" "__entity_root_ids__" kind 0 None).

(** [curVersion]: 0 for a nil collection or a missing row; the stored
    [__version__] when the row decodes and its first value is an integer; a
    panic through [memoryCorruption] otherwise. *)
Definition curVersion (ents : option memCollection) (key : bytes) : res Z :=
  match ents with
  | Some e =>
      match e !! key with
      | Some v =>
          match rpm v with
          | None => Panic "memory corruption"
          | Some pm =>
              match pm !! "__version__" with
              | Some (mkProperty (PVInt i) _ :: _) => Ret i
              | _ => Panic "memory corruption: __version__ property missing or wrong"
              end
          end
      | None => Ret 0
      end
  | None => Ret 0
  end.

Definition versionRow (v : Z) : bytes :=
  toBytesPropertyMap {[ "__version__" := [MkPropertyNI (PVInt v)] ]}.

(** [incrementLocked], on the collection [coll] of the store [h]. *)
Definition incrementLocked (h : memStore) (coll : string) (key : bytes) (amt : Z)
  : res (Z * memStore) :=
  if decide (amt <= 0) then Panic "incrementLocked called with bad `amt`"
  else
    cur ← curVersion (GetCollection h coll) key;
    let ret := add64 cur 1 in
    Ret (ret, entsSet h coll key (versionRow (add64 ret (amt - 1)))).

(** [mutableEntsLocked]: the entity collection of the namespace, created
    empty when the head has none; the handle returned is never nil. *)
Definition mutableEntsLocked (d : dataStoreData) (ns : string) : dataStoreData * string :=
  let coll := "ents:" +:+ ns in
  match GetCollection (head d) coll with
  | Some _ => (d, coll)
  | None => (withHead d (<[coll := ∅]> (head d)), coll)
  end.

Definition allocateIDsLocked (d : dataStoreData) (ents : string) (incomplete : Key) (n : Z)
  : res (dataStoreData * (Z * option error)) :=
  if disableSpecialEntities d then
    Ret (d, (0, Some (errorsNew "disableSpecialEntities is true so allocateIDs is disabled")))
  else
    let idKey :=
      match keyParent incomplete with
      | None => rootIDsKey (keyKind incomplete)
      | Some _ => groupIDsKey incomplete
      end in
    '(id, h) ← incrementLocked (head d) ents idKey n;
    Ret (withHead d h, (id, None)).

Definition allocateIDs (d : dataStoreData) (incomplete : Key) (n : Z)
  : res (dataStoreData * (Z * option error)) :=
  let '(d1, ents) := mutableEntsLocked d (namespace incomplete) in
  allocateIDsLocked d1 ents incomplete n.

Definition fixKeyLocked (d : dataStoreData) (ents : string) (key : Key)
  : res (dataStoreData * (Key * option error)) :=
  if keyIncomplete key then
    '(d1, (id, err)) ← allocateIDsLocked d ents key 1;
    match err with
    | Some e => Ret (d1, (key, Some e))
    | None =>
        Ret (d1, (NewKey (appID key) (namespace key) (keyKind key) "" id (keyParent key), None))
    end
  else Ret (d, (key, None)).

(** *** Callbacks

    A callback is a function of its arguments (or nil); the calls made to it
    are recorded in order.  What a [PutMultiCB] or a [DeleteMultiCB] returns
    steers the loop: nil continues, [Stop] ends it without an error, any other
    error ends it with that error.  A [GetMultiCB] returns nothing and is
    never nil where it is called: only its calls are recorded. *)
Definition PutMultiCB := option (Key → option error → option error).
Definition DeleteMultiCB := option (option error → option error).

Definition putCall : Type := Key * option error.
Definition getCall : Type := option PropertyMap * option error.

(** The body the non-transactional [putMulti] runs under the lock for one
    key. *)
Definition putLocked (d : dataStoreData) (ns : string) (k : Key)
    (pmap : PropertyMap) (dataBytes : bytes)
  : res (dataStoreData * (Key * option error)) :=
  let '(d0, ents) := mutableEntsLocked d ns in
  '(d1, (ret, err)) ← fixKeyLocked d0 ents k;
  match err with
  | Some e => Ret (d1, (ret, Some e))
  | None =>
      d2 ← (if disableSpecialEntities d1 then Ret d1
            else '(_, h) ← incrementLocked (head d1) ents (groupMetaKey ret) 1;
                 Ret (withHead d1 h));
      let write (oldPM : option PropertyMap) :=
        let h1 := entsSet (head d2) ents (keyBytes ret) dataBytes in
        Ret (withHead d2 (updateIndexes h1 ret oldPM (Some pmap)), (ret, None)) in
      match entsGet (head d2) ents (keyBytes ret) with
      | Some old =>
          match rpm old with
          | None => Ret (d2, (ret, Some errDecode))
          | Some oldPM => write (Some oldPM)
          end
      | None => write None
      end
  end.

Fixpoint putMultiLoop (d : dataStoreData) (ns : string) (cb : PutMultiCB)
    (i : nat) (keys : list Key) (vals : list PropertyMap)
  : res (dataStoreData * list putCall * option error) :=
  match keys with
  | [] => Ret (d, [], None)
  | k :: keys' =>
      match vals !! i with
      | None => Panic "index out of range"
      | Some v =>
          let pmap := pmSave v in
          '(d1, (k1, err)) ← putLocked d ns k pmap (toBytesPropertyMap pmap);
          match cb with
          | None => putMultiLoop d1 ns cb (S i) keys' vals
          | Some f =>
              match f k1 err with
              | Some e =>
                  Ret (d1, [(k1, err)], if decide (e = Stop) then None else Some e)
              | None =>
                  '(d2, calls, r) ← putMultiLoop d1 ns cb (S i) keys' vals;
                  Ret (d2, (k1, err) :: calls, r)
              end
          end
      end
  end.

(** [dataStoreData.putMulti]; [keys[0]] panics on an empty slice. *)
Definition putMulti (d : dataStoreData) (keys : list Key) (vals : list PropertyMap)
    (cb : PutMultiCB) : res (dataStoreData * list putCall * option error) :=
  match keys with
  | [] => Panic "index out of range"
  | k0 :: _ => putMultiLoop d (namespace k0) cb 0 keys vals
  end.

(** [getMultiInner], given what [getColl] returned. *)
Definition getMultiInner (keys : list Key)
    (coll : option memCollection * option error) : list getCall * option error :=
  match coll with
  | (_, Some err) => ([], Some err)
  | (None, None) => ((λ _, (None, Some ErrNoSuchEntity)) <$> keys, None)
  | (Some ents, None) =>
      ((λ k, match ents !! keyBytes k with
             | None => (None, Some ErrNoSuchEntity)
             | Some pdata =>
                 match rpm pdata with
                 | Some pm => (Some pm, None)
                 | None => (None, Some errDecode)
                 end
             end) <$> keys, None)
  end.

Definition getMulti (d : dataStoreData) (keys : list Key)
  : res (list getCall * option error) :=
  match keys with
  | [] => Panic "index out of range"
  | k0 :: _ =>
      let s := takeSnapshot d in
      Ret (getMultiInner keys (GetCollection s ("ents:" +:+ namespace k0), None))
  end.

(** The body the non-transactional [delMulti] runs under the lock for one
    key. *)
Definition delLocked (d : dataStoreData) (ns : string) (k : Key)
  : res (dataStoreData * option error) :=
  let kb := keyBytes k in
  let '(d0, ents) := mutableEntsLocked d ns in
  d1 ← (if disableSpecialEntities d0 then Ret d0
        else '(_, h) ← incrementLocked (head d0) ents (groupMetaKey k) 1;
             Ret (withHead d0 h));
  match entsGet (head d1) ents kb with
  | Some old =>
      match rpm old with
      | None => Ret (d1, Some errDecode)
      | Some oldPM =>
          let h1 := entsDelete (head d1) ents kb in
          Ret (withHead d1 (updateIndexes h1 k (Some oldPM) None), None)
      end
  | None => Ret (d1, None)
  end.

Fixpoint delMultiLoop (d : dataStoreData) (ns : string) (cb : DeleteMultiCB)
    (keys : list Key) : res (dataStoreData * list (option error) * option error) :=
  match keys with
  | [] => Ret (d, [], None)
  | k :: keys' =>
      '(d1, err) ← delLocked d ns k;
      match cb with
      | None => delMultiLoop d1 ns cb keys'
      | Some f =>
          match f err with
          | Some e => Ret (d1, [err], if decide (e = Stop) then None else Some e)
          | None =>
              '(d2, calls, r) ← delMultiLoop d1 ns cb keys';
              Ret (d2, err :: calls, r)
          end
      end
  end.

(** The branch [delMulti] takes when the namespace has no collection. *)
Fixpoint delMultiNoEnts (f : option error → option error) (keys : list Key)
  : list (option error) * option error :=
  match keys with
  | [] => ([], None)
  | _ :: keys' =>
      match f None with
      | Some e => ([None], if decide (e = Stop) then None else Some e)
      | None => let '(calls, r) := delMultiNoEnts f keys' in (None :: calls, r)
      end
  end.

(** [dataStoreData.delMulti].  [hasEntsInNS] is [mutableEntsLocked(ns) != nil],
    and [mutableEntsLocked] creates the collection it does not find. *)
Definition delMulti (d : dataStoreData) (keys : list Key) (cb : DeleteMultiCB)
  : res (dataStoreData * list (option error) * option error) :=
  match keys with
  | [] => Panic "index out of range"
  | k0 :: _ =>
      let ns := namespace k0 in
      let '(d0, _) := mutableEntsLocked d ns in
      let hasEntsInNS := true in
      if hasEntsInNS then delMultiLoop d0 ns cb keys
      else
        match cb with
        | Some f => let '(calls, r) := delMultiNoEnts f keys in Ret (d0, calls, r)
        | None => Ret (d0, [], None)
        end
  end.

(** *** Transactions *)

(** A mutation of the log: [txData = None] is Go's nil data, a deletion. *)
Record txnMutation := mkTxnMutation {
  txKey : Key;
  txData : option PropertyMap
}.

(** [txnDataStoreData].  The [parent] pointer is the data store the
    transaction was made from: the methods that go through it take and return
    that store.  [muts] is keyed by the encoded entity-group root. *)
Record txnDataStoreData := mkTxn_ {
  closed : bool;
  isXG : bool;
  tsnap : memStore;
  muts : gmap bytes (list txnMutation)
}.

Definition withMuts (td : txnDataStoreData) (m : gmap bytes (list txnMutation))
  : txnDataStoreData :=
  {| closed := closed td; isXG := isXG td; tsnap := tsnap td; muts := m |}.

Definition xgEGLimit : nat := 25.

Record TransactionOptions := { XG : bool }.

Definition mkTxn (d : dataStoreData) (o : option TransactionOptions) : txnDataStoreData :=
  {| closed := false;
     isXG := match o with Some opts => XG opts | None => false end;
     tsnap := Snapshot (head d);
     muts := ∅ |}.

Definition endTxn (td : txnDataStoreData) : res txnDataStoreData :=
  if closed td then Panic "cannot end transaction twice"
  else Ret {| closed := true; isXG := isXG td; tsnap := tsnap td; muts := muts td |}.

(** [txnDataStoreData.run]: [None] when the transaction is still open and
    the function is to be run. *)
Definition run (td : txnDataStoreData) : option error :=
  if closed td then Some (errorsNew "datastore: transaction context has expired")
  else None.

(** The version test [canApplyTxn] makes for one entry of [txn.muts]:
    [Ret true] when the loop goes on, [Ret false] when it returns false. *)
Definition groupUnchanged (d : dataStoreData) (txn : txnDataStoreData)
    (rk : bytes) (ms : list txnMutation) : res bool :=
  match ms with
  | [] => Ret true
  | _ :: _ =>
      match readProperty rk with
      | None => Panic "memory corruption"
      | Some prop =>
          match propValue prop with
          | PVKey k =>
              let entKey := "ents:" +:+ namespace k in
              let mkey := groupMetaKey k in
              let entsHead := GetCollection (head d) entKey in
              let entsSnap := GetCollection (tsnap txn) entKey in
              vHead ← curVersion entsHead mkey;
              vSnap ← curVersion entsSnap mkey;
              Ret (bool_decide (vHead = vSnap))
          | _ => Panic "interface conversion: not a *datastore.Key"
          end
      end
  end.

(** The loop of [canApplyTxn] over the entries of the map in the order the
    iteration yields them; Go leaves that order unspecified. *)
Fixpoint canApplyTxnOver (d : dataStoreData) (txn : txnDataStoreData)
    (entries : list (bytes * list txnMutation)) : res bool :=
  match entries with
  | [] => Ret true
  | (rk, ms) :: rest =>
      ok ← groupUnchanged d txn rk ms;
      if ok : bool then canApplyTxnOver d txn rest else Ret false
  end.

Definition canApplyTxn (d : dataStoreData) (txn : txnDataStoreData) : res bool :=
  canApplyTxnOver d txn (map_to_list (muts txn)).

(** [applyTxn]: every mutation goes through the non-transactional [putMulti]
    or [delMulti], with a callback that hands the error back. *)
Fixpoint applyMuts (d : dataStoreData) (ms : list txnMutation) : res dataStoreData :=
  match ms with
  | [] => Ret d
  | m :: ms' =>
      '(d1, _, err) ←
        match txData m with
        | None => delMulti d [txKey m] (Some (λ e, e))
        | Some data =>
            '(d1, _, err) ← putMulti d [txKey m] [data] (Some (λ _ e, e));
            Ret (d1, [], err)
        end;
      _ ← impossible err;
      applyMuts d1 ms'
  end.

Fixpoint applyTxnOver (d : dataStoreData) (entries : list (bytes * list txnMutation))
  : res dataStoreData :=
  match entries with
  | [] => Ret d
  | (_, ms) :: rest => d1 ← applyMuts d ms; applyTxnOver d1 rest
  end.

Definition applyTxn (d : dataStoreData) (txn : txnDataStoreData) : res dataStoreData :=
  applyTxnOver d (map_to_list (muts txn)).

(** [writeMutation]. *)
Definition writeMutation (td : txnDataStoreData) (getOnly : bool) (key : Key)
    (data : option PropertyMap) : txnDataStoreData * option error :=
  let rk := keyBytes (keyRoot key) in
  let record (m : gmap bytes (list txnMutation)) :=
    if getOnly then m
    else <[rk := (default [] (m !! rk) ++ [mkTxnMutation key data])%list]> m in
  match muts td !! rk with
  | Some _ => (withMuts td (record (muts td)), None)
  | None =>
      let limit := if isXG td then xgEGLimit else 1%nat in
      if decide (limit < size (muts td) + 1)%nat then
        let msg :=
          if isXG td then "operating on too many entity groups in a single transaction"
          else "cross-group transaction need to be explicitly specified (xg=True)" in
        (td, Some (errorsNew msg))
      else (withMuts td (record (<[rk := []]> (muts td))), None)
  end.

(** [txnDataStoreData.putMulti]: the key is completed against the parent's
    head, the mutation only logged. *)
Fixpoint txnPutMultiLoop (d : dataStoreData) (td : txnDataStoreData) (ns : string)
    (hasCb : bool) (i : nat) (keys : list Key) (vals : list PropertyMap)
  : res (dataStoreData * txnDataStoreData * list putCall) :=
  match keys with
  | [] => Ret (d, td, [])
  | k :: keys' =>
      let '(d0, ents) := mutableEntsLocked d ns in
      '(d1, (k1, err)) ← fixKeyLocked d0 ents k;
      '(td1, err1) ←
        match err with
        | Some e => Ret (td, Some e)
        | None =>
            match vals !! i with
            | None => Panic "index out of range"
            | Some v => Ret (writeMutation td false k1 (Some v))
            end
        end;
      '(d2, td2, calls) ← txnPutMultiLoop d1 td1 ns hasCb (S i) keys' vals;
      Ret (d2, td2, if hasCb then (k1, err1) :: calls else calls)
  end.

Definition txnPutMulti (d : dataStoreData) (td : txnDataStoreData)
    (keys : list Key) (vals : list PropertyMap) (hasCb : bool)
  : res (dataStoreData * txnDataStoreData * list putCall) :=
  match keys with
  | [] => Panic "index out of range"
  | k0 :: _ => txnPutMultiLoop d td (namespace k0) hasCb 0 keys vals
  end.

(** The [getColl] closure of [txnDataStoreData.getMulti]: every key's group
    is recorded with [getOnly = true]; the first error ends the loop. *)
Fixpoint recordGroups (td : txnDataStoreData) (keys : list Key)
  : txnDataStoreData * option error :=
  match keys with
  | [] => (td, None)
  | key :: keys' =>
      match writeMutation td true key None with
      | (td1, Some err) => (td1, Some err)
      | (td1, None) => recordGroups td1 keys'
      end
  end.

Definition txnGetMulti (td : txnDataStoreData) (keys : list Key)
  : res (txnDataStoreData * (list getCall * option error)) :=
  match recordGroups td keys with
  | (td1, Some err) => Ret (td1, getMultiInner keys (None, Some err))
  | (td1, None) =>
      match keys with
      | [] => Panic "index out of range"
      | k0 :: _ =>
          Ret (td1, getMultiInner keys
                      (GetCollection (tsnap td1) ("ents:" +:+ namespace k0), None))
      end
  end.

Fixpoint txnDelMulti (td : txnDataStoreData) (keys : list Key) (hasCb : bool)
  : txnDataStoreData * list (option error) :=
  match keys with
  | [] => (td, [])
  | k :: keys' =>
      let '(td1, err) := writeMutation td false k None in
      let '(td2, calls) := txnDelMulti td1 keys' hasCb in
      (td2, if hasCb then err :: calls else calls)
  end.

End DataStore.
End memory.

(** ** Package dscache: the cache fetch planner *)
Module dscache.

(** [mc.Item], as far as the planner reads it. *)
Record Item := mkItem {
  itemKey : string;
  itemValue : bytes;
  itemFlags : N
}.

#[global] Instance Item_eq_dec : EqDecision Item.
Proof. solve_decision. Defined.

Section Planner.

(** The flag constants [ItemHasData] and [ItemHasLock] of type [FlagValue]
    (a [uint32]), [decodeItemValue], and the [MetaGetter]s with
    [MultiMetaGetter.GetSingle] are declared outside the embedded file: the
    planner is parametric in them.  [decodeItemValue] returns a property map
    and an error, as in Go. *)
Variable ItemHasData ItemHasLock : N.
Variable decodeItemValue : bytes → string → string → option PropertyMap * option error.
Variable MetaGetter : Type.
Variable GetSingle : option (list MetaGetter) → nat → MetaGetter.

Record facts := mkFacts {
  getKeys : list Key;
  getMeta : option (list MetaGetter);
  lockItems : list (option Item);
  nonce : bytes
}.

(** [plan]; [lme] is the [LazyMultiError] of size [len(lockItems)]: one
    optional error per key, set by [Assign]. *)
Record plan := mkPlan {
  keepMeta : bool;
  idxMap : list nat;
  toGet : list Key;
  toGetMeta : list MetaGetter;
  toSave : list (option Item);
  decoded : list (option PropertyMap);
  lme : list (option error)
}.

Definition add (p : plan) (idx : nat) (get : Key) (m : MetaGetter) (save : option Item)
  : plan :=
  {| keepMeta := keepMeta p;
     idxMap := idxMap p ++ [idx];
     toGet := toGet p ++ [get];
     toGetMeta := if keepMeta p then toGetMeta p ++ [m] else toGetMeta p;
     toSave := toSave p ++ [save];
     decoded := decoded p;
     lme := lme p |}.

Definition empty (p : plan) : bool := bool_decide (length (idxMap p) = 0%nat).

Definition setDecoded (p : plan) (i : nat) (pm : option PropertyMap) : plan :=
  {| keepMeta := keepMeta p; idxMap := idxMap p; toGet := toGet p;
     toGetMeta := toGetMeta p; toSave := toSave p;
     decoded := <[i := pm]> (decoded p); lme := lme p |}.

Definition assignErr (p : plan) (i : nat) (e : error) : plan :=
  {| keepMeta := keepMeta p; idxMap := idxMap p; toGet := toGet p;
     toGetMeta := toGetMeta p; toSave := toSave p;
     decoded := decoded p; lme := <[i := Some e]> (lme p) |}.

(** The body of the loop of [makeFetchPlan] for the item at index [i]. *)
Definition planItem (aid ns : string) (f : facts) (p : plan) (i : nat)
    (lockItm : option Item) (getKey : Key) : plan :=
  let m := GetSingle (getMeta f) i in
  match lockItm with
  | None => add p i getKey m None
  | Some itm =>
      if decide (itemFlags itm = ItemHasLock) then
        if decide (nonce f = itemValue itm) then add p i getKey m (Some itm)
        else add p i getKey m None
      else if decide (itemFlags itm = ItemHasData) then
        match decodeItemValue (itemValue itm) aid ns with
        | (pmap, None) => setDecoded p i pmap
        | (_, Some ErrNoSuchEntity) => assignErr p i ErrNoSuchEntity
        | (_, Some _) => add p i getKey m None
        end
      else add p i getKey m None
  end.

Fixpoint planLoop (aid ns : string) (f : facts) (p : plan) (i : nat)
    (items : list (option Item)) : res plan :=
  match items with
  | [] => Ret p
  | lockItm :: rest =>
      match getKeys f !! i with
      | None => Panic "index out of range"
      | Some getKey => planLoop aid ns f (planItem aid ns f p i lockItm getKey) (S i) rest
      end
  end.

(** [makeFetchPlan]; the warning it logs on a decoding error is not
    modelled. *)
Definition makeFetchPlan (aid ns : string) (f : facts) : res plan :=
  let n := length (lockItems f) in
  let p := {| keepMeta := bool_decide (is_Some (getMeta f));
              idxMap := []; toGet := []; toGetMeta := []; toSave := [];
              decoded := replicate n None;
              lme := replicate n None |} in
  planLoop aid ns f p 0 (lockItems f).

End Planner.
End dscache.

(** ** Query reduction

    [reduce] and the query types live in impl/memory/datastore_query.go and
    service/datastore/query.go, which are not among the embedded files; only
    the tests that call them are.  This module follows the specification
    (sections 3, 4.2, 4.4 and 8) and the expectations of those tests. *)
Module reduction.

(** [bytes.Compare(a, b) < 0]. *)
Definition bytesLt (a b : bytes) : bool := String.ltb a b.

Record IndexColumn := mkIndexColumn {
  colProperty : string;
  colDescending : bool
}.

#[global] Instance IndexColumn_eq_dec : EqDecision IndexColumn.
Proof. solve_decision. Defined.

Definition asc (p : string) : IndexColumn := mkIndexColumn p false.
Definition keyColumn : IndexColumn := asc "__key__".

(** A cursor handed to a query: one made by this engine (its bytes), or any
    other implementation of the cursor interface. *)
Inductive Cursor :=
  | queryCursor (b : bytes)
  | foreignCursor (s : string).

(** An inequality endpoint: [boundInclusive] tells [>=] / [<=] from [>] /
    [<]. *)
Record Bound := mkBound {
  boundValue : Property;
  boundInclusive : bool
}.

(** Modelled from the spec: the FinalizedQuery of section 3, with the fields
    it lists.  [fqOrders] are the orders the query names; the implicit ones
    are added by [effectiveOrders]. *)
Record FinalizedQuery := mkFinalizedQuery {
  fqKind : string;
  fqAncestor : option Key;
  fqEqFilters : gmap string (list Property);
  fqIneqProp : string;
  fqIneqLow : option Bound;
  fqIneqHigh : option Bound;
  fqProject : list string;
  fqOrders : list IndexColumn;
  fqStart : option Cursor;
  fqEnd : option Cursor;
  fqLimit : option Z;
  fqOffset : option Z;
  fqDistinct : bool;
  fqKeysOnly : bool
}.

(** Modelled from the spec: the ReducedQuery of section 3: "(AppID,
    Namespace, Kind, equality-filter map, ordered columns, start-inclusive
    byte prefix, end-exclusive byte prefix, number of suffix columns)".  A
    missing prefix is an open end of the scan. *)
Record reducedQuery := mkReducedQuery {
  rqAid : string;
  rqNs : string;
  rqKind : string;
  rqEqFilters : gmap string (gset bytes);
  rqSuffixFormat : list IndexColumn;
  rqStart : option bytes;
  rqEnd : option bytes;
  rqNumCols : nat
}.

(** Modelled from the spec: the codec of section 4.2 as the planner uses it,
    and the cursor framing of sections 4.4.3 and 6.  [writeProperty ctx p] is
    the encoding of a property (with or without key context), "ordered
    compatibly with the natural property ordering" and self-delimiting, which
    is stated for the integers; [invert] is what the invertible writer emits
    for a descending column; [increment s] is strictly greater than [s];
    [cursorJoin] frames a column list and the encoded values into a cursor,
    [cursorSplit] undoes it and fails on empty bytes. *)
Class QueryCodec := {
  writeProperty : bool → Property → bytes;
  invert : bytes → bytes;
  increment : bytes → bytes;
  cursorJoin : list IndexColumn → bytes → bytes;
  cursorSplit : bytes → option (list IndexColumn * bytes);
  increment_gt : ∀ s, bytesLt s (increment s) = true;
  writeProperty_int_lt : ∀ c1 c2 a b x y, a < b →
    bytesLt (writeProperty c1 (MkProperty (PVInt a)) +:+ x)
            (writeProperty c2 (MkProperty (PVInt b)) +:+ y) = true;
  cursorSplit_join : ∀ cols d, cols ≠ [] → cursorSplit (cursorJoin cols d) = Some (cols, d);
  cursorSplit_empty : cursorSplit "" = None
}.

Section Reduce.
Context `{!QueryCodec}.

(** [serialize.ToBytes] of a property. *)
Definition toBytes (p : Property) : bytes := writeProperty true p.

(** *** Validation (section 4.4.1) *)

(** [s] between double quotes, as [%q] prints it. *)
Definition quoted (s : string) : string :=
  String (Ascii.ascii_of_nat 34) s +:+ String (Ascii.ascii_of_nat 34) EmptyString.

Definition MaxQueryComponents : nat := 100.

Definition eqFilterCount (fq : FinalizedQuery) : nat :=
  map_fold (λ _ vals n, (length (remove_dups vals) + n)%nat) 0%nat (fqEqFilters fq).

Definition ineqEndpoints (fq : FinalizedQuery) : nat :=
  ((if fqIneqLow fq is Some _ then 1 else 0) + (if fqIneqHigh fq is Some _ then 1 else 0))%nat.

(** *** Normalization of the orders (section 4.4.2)

    Orders on equality-filtered properties are dropped, duplicates are
    dropped keeping the first occurrence, and the ascending [__key__] is
    appended when no order names [__key__].  A query with an inequality and
    no order of its own is ordered by the inequality property (scenario 1 of
    section 8: [Gt("Foo",3).Lt("Foo",10)] has the columns [Foo asc, __key__
    asc]). *)
Fixpoint dedupOrders (seen : list string) (os : list IndexColumn) : list IndexColumn :=
  match os with
  | [] => []
  | o :: os' =>
      if decide (colProperty o ∈ seen) then dedupOrders seen os'
      else o :: dedupOrders (colProperty o :: seen) os'
  end.

Definition userOrders (fq : FinalizedQuery) : list IndexColumn :=
  dedupOrders []
    (filter (λ o, fqEqFilters fq !! colProperty o = None) (fqOrders fq)).

Definition effectiveOrders (fq : FinalizedQuery) : list IndexColumn :=
  let os :=
    match userOrders fq with
    | [] => if decide (fqIneqProp fq = "") then [] else [asc (fqIneqProp fq)]
    | os => os
    end in
  if decide ("__key__" ∈ colProperty <$> os) then os else os ++ [keyColumn].

Definition numComponents (fq : FinalizedQuery) : nat :=
  (eqFilterCount fq + length (effectiveOrders fq) + ineqEndpoints fq)%nat.

Definition isKeyValue (p : Property) : bool :=
  match propValue p with PVKey _ => true | _ => false end.

(** [under anc k]: [k] is [anc] or one of its descendants, in the same
    application and namespace. *)
Definition under (anc : Key) (p : Property) : bool :=
  match propValue p with
  | PVKey k =>
      bool_decide (appID k = appID anc) && bool_decide (namespace k = namespace anc)
      && bool_decide (keyToks anc `prefix_of` keyToks k)
  | _ => false
  end.

Definition keyFilterValues (fq : FinalizedQuery) : list Property :=
  default [] (fqEqFilters fq !! "__key__") ++
  (if decide (fqIneqProp fq = "__key__")
   then (boundValue <$> option_list (fqIneqLow fq)) ++ (boundValue <$> option_list (fqIneqHigh fq))
   else []).

(** The checks of section 4.4.1, in the order it lists them; the messages
    are the fragments of section 6. *)
Definition validate (fq : FinalizedQuery) (isTxn : bool) : option error :=
  if isTxn && bool_decide (fqAncestor fq = None) then
    Some (errorsNew "queries within a transaction must include an Ancestor filter")
  else if decide (MaxQueryComponents < numComponents fq)%nat then
    Some (errorsNew "query is too large")
  else if bool_decide (fqKind fq = "") && negb (bool_decide (fqEqFilters fq = ∅)) then
    Some (errorsNew "kindless queries may not have any equality filters")
  else if bool_decide (fqKind fq = "")
          && negb (bool_decide (fqIneqProp fq = "" ∨ fqIneqProp fq = "__key__")) then
    Some (errorsNew "kindless queries can only filter on __key__")
  else if bool_decide (fqKind fq = "")
          && negb (bool_decide (Forall (λ o, o = keyColumn) (fqOrders fq))) then
    Some (errorsNew "invalid order for kindless query")
  else if bool_decide ("__key__" ∈ fqProject fq) then
    Some (errorsNew ("cannot project on " +:+ quoted "__key__"))
  else if negb (bool_decide (Forall (λ p, fqEqFilters fq !! p = None) (fqProject fq))) then
    Some (errorsNew "cannot project on equality filter field")
  else if fqKeysOnly fq && negb (bool_decide (fqProject fq = [])) then
    Some (errorsNew "cannot project a keysOnly query")
  else if negb (bool_decide (fqIneqProp fq = ""))
          && negb (bool_decide (colProperty <$> head (effectiveOrders fq) = Some (fqIneqProp fq))) then
    Some (errorsNew "first sort order must match inequality filter")
  else if negb (forallb isKeyValue (keyFilterValues fq)) then
    Some (errorsNew ("filters on " +:+ quoted "__key__" +:+ " must have type *Key"))
  else
    match fqAncestor fq with
    | Some anc =>
        if negb (forallb (under anc) (keyFilterValues fq)) then
          Some (errorsNew "inequality filters on __key__ must be descendants of the __ancestor__")
        else None
    | None => None
    end.

(** *** Inequality bounds (section 4.4.2)

    The scan is over [low, high): an exclusive lower bound and an inclusive
    upper bound are moved past their value with [increment]. *)
Definition lowBound (fq : FinalizedQuery) : option bytes :=
  (λ b, if boundInclusive b then toBytes (boundValue b)
        else increment (toBytes (boundValue b))) <$> fqIneqLow fq.

Definition highBound (fq : FinalizedQuery) : option bytes :=
  (λ b, if boundInclusive b then increment (toBytes (boundValue b))
        else toBytes (boundValue b)) <$> fqIneqHigh fq.

(** The range [start, end) holds nothing: both ends are set and
    [bytes.Compare(start, end) >= 0]. *)
Definition nullRange (start end_ : option bytes) : bool :=
  match start, end_ with
  | Some s, Some e => negb (bytesLt s e)
  | _, _ => false
  end.

(** *** Cursors (section 4.4.3) *)

(** A cursor of another type is refused; the bytes of one of ours must
    split into columns and data, and the last column must be [__key__] (test
    "bad cursors (no key)": "invalid cursor"). *)
Definition decodeCursor (c : Cursor) : error + (list IndexColumn * bytes) :=
  match c with
  | foreignCursor _ => inl (errorsNew "bad cursor type")
  | queryCursor b =>
      match cursorSplit b with
      | None => inl (errorsNew "invalid cursor")
      | Some (cols, d) =>
          if decide (colProperty <$> list.last cols = Some "__key__") then inr (cols, d)
          else inl (errorsNew "invalid cursor: last column was not __key__")
      end
  end.

(** The data of a cursor that is valid for the columns [orders]. *)
Definition cursorFor (which : string) (orders : list IndexColumn) (c : option Cursor)
  : error + option bytes :=
  match c with
  | None => inr None
  | Some c =>
      match decodeCursor c with
      | inl e => inl e
      | inr (cols, d) =>
          if decide (cols = orders) then inr (Some d)
          else inl (errorsNew (which +:+ " cursor is invalid for this query"))
      end
  end.

(** Clamping: of the bound and the cursor, the tighter one wins. *)
Definition clampStart (low cur : option bytes) : option bytes :=
  match low, cur with
  | Some l, Some d => if bytesLt l d then Some d else Some l
  | None, Some d => Some d
  | _, None => low
  end.

Definition clampEnd (high cur : option bytes) : option bytes :=
  match high, cur with
  | Some h, Some d => if bytesLt d h then Some d else Some h
  | None, Some d => Some d
  | _, None => high
  end.

(** *** Reduction *)

(** Modelled from the spec: [reduce(fq, aid, ns, isTxn)] of impl/memory,
    which is not among the embedded files: validation (4.4.1), normalization
    with the null test on the inequality bounds (4.4.2), cursor decoding and
    clamping with the null test on the clamped range (4.4.3), output (4.4.4). *)
Definition reduce (fq : FinalizedQuery) (aid ns : string) (isTxn : bool)
  : error + reducedQuery :=
  match validate fq isTxn with
  | Some e => inl e
  | None =>
      let orders := effectiveOrders fq in
      let low := lowBound fq in
      let high := highBound fq in
      if nullRange low high then inl ErrNullQuery
      else
        match cursorFor "start" orders (fqStart fq) with
        | inl e => inl e
        | inr startC =>
            match cursorFor "end" orders (fqEnd fq) with
            | inl e => inl e
            | inr endC =>
                let start := clampStart low startC in
                let end_ := clampEnd high endC in
                if nullRange start end_ then inl ErrNullQuery
                else
                  inr {| rqAid := aid; rqNs := ns; rqKind := fqKind fq;
                         rqEqFilters :=
                           (λ vals, list_to_set (toBytes <$> vals)) <$> fqEqFilters fq;
                         rqSuffixFormat := orders;
                         rqStart := start; rqEnd := end_;
                         rqNumCols := length orders |}
            end
        end
  end.

(** [ShouldErrLike]: the error's message contains the expected fragment. *)
Fixpoint isPrefixOf (p s : string) : bool :=
  match p, s with
  | EmptyString, _ => true
  | String a p', String b s' => bool_decide (a = b) && isPrefixOf p' s'
  | String _ _, EmptyString => false
  end.

Fixpoint contains (frag s : string) : bool :=
  isPrefixOf frag s ||
  match s with
  | EmptyString => false
  | String _ s' => contains frag s'
  end.

Definition errLike {A} (r : error + A) (frag : string) : Prop :=
  match r with
  | inl (errorsNew msg) => contains frag msg = true
  | _ => False
  end.

(** *** The queries of the tests

    The builder calls of the tests, on the fields of a query.  [nq] is
    [NewQuery("Foo")]. *)
Definition nq : FinalizedQuery :=
  {| fqKind := "Foo"; fqAncestor := None; fqEqFilters := ∅; fqIneqProp := "";
     fqIneqLow := None; fqIneqHigh := None; fqProject := []; fqOrders := [];
     fqStart := None; fqEnd := None; fqLimit := None; fqOffset := None;
     fqDistinct := false; fqKeysOnly := false |}.

Definition setLow (q : FinalizedQuery) (p : string) (b : Bound) : FinalizedQuery :=
  {| fqKind := fqKind q; fqAncestor := fqAncestor q; fqEqFilters := fqEqFilters q;
     fqIneqProp := p; fqIneqLow := Some b; fqIneqHigh := fqIneqHigh q;
     fqProject := fqProject q; fqOrders := fqOrders q;
     fqStart := fqStart q; fqEnd := fqEnd q; fqLimit := fqLimit q;
     fqOffset := fqOffset q; fqDistinct := fqDistinct q; fqKeysOnly := fqKeysOnly q |}.

Definition setHigh (q : FinalizedQuery) (p : string) (b : Bound) : FinalizedQuery :=
  {| fqKind := fqKind q; fqAncestor := fqAncestor q; fqEqFilters := fqEqFilters q;
     fqIneqProp := p; fqIneqLow := fqIneqLow q; fqIneqHigh := Some b;
     fqProject := fqProject q; fqOrders := fqOrders q;
     fqStart := fqStart q; fqEnd := fqEnd q; fqLimit := fqLimit q;
     fqOffset := fqOffset q; fqDistinct := fqDistinct q; fqKeysOnly := fqKeysOnly q |}.

Definition intProp (v : Z) : Property := MkProperty (PVInt v).

Definition Gt (p : string) (v : Z) (q : FinalizedQuery) := setLow q p (mkBound (intProp v) false).
Definition Gte (p : string) (v : Z) (q : FinalizedQuery) := setLow q p (mkBound (intProp v) true).
Definition Lt (p : string) (v : Z) (q : FinalizedQuery) := setHigh q p (mkBound (intProp v) false).
Definition Lte (p : string) (v : Z) (q : FinalizedQuery) := setHigh q p (mkBound (intProp v) true).

Definition Order (p : string) (q : FinalizedQuery) : FinalizedQuery :=
  {| fqKind := fqKind q; fqAncestor := fqAncestor q; fqEqFilters := fqEqFilters q;
     fqIneqProp := fqIneqProp q; fqIneqLow := fqIneqLow q; fqIneqHigh := fqIneqHigh q;
     fqProject := fqProject q; fqOrders := fqOrders q ++ [asc p];
     fqStart := fqStart q; fqEnd := fqEnd q; fqLimit := fqLimit q;
     fqOffset := fqOffset q; fqDistinct := fqDistinct q; fqKeysOnly := fqKeysOnly q |}.

Definition Start (c : Cursor) (q : FinalizedQuery) : FinalizedQuery :=
  {| fqKind := fqKind q; fqAncestor := fqAncestor q; fqEqFilters := fqEqFilters q;
     fqIneqProp := fqIneqProp q; fqIneqLow := fqIneqLow q; fqIneqHigh := fqIneqHigh q;
     fqProject := fqProject q; fqOrders := fqOrders q;
     fqStart := Some c; fqEnd := fqEnd q; fqLimit := fqLimit q;
     fqOffset := fqOffset q; fqDistinct := fqDistinct q; fqKeysOnly := fqKeysOnly q |}.

Definition End_ (c : Cursor) (q : FinalizedQuery) : FinalizedQuery :=
  {| fqKind := fqKind q; fqAncestor := fqAncestor q; fqEqFilters := fqEqFilters q;
     fqIneqProp := fqIneqProp q; fqIneqLow := fqIneqLow q; fqIneqHigh := fqIneqHigh q;
     fqProject := fqProject q; fqOrders := fqOrders q;
     fqStart := fqStart q; fqEnd := Some c; fqLimit := fqLimit q;
     fqOffset := fqOffset q; fqDistinct := fqDistinct q; fqKeysOnly := fqKeysOnly q |}.

Definition Ancestor (k : Key) (q : FinalizedQuery) : FinalizedQuery :=
  {| fqKind := fqKind q; fqAncestor := Some k; fqEqFilters := fqEqFilters q;
     fqIneqProp := fqIneqProp q; fqIneqLow := fqIneqLow q; fqIneqHigh := fqIneqHigh q;
     fqProject := fqProject q; fqOrders := fqOrders q;
     fqStart := fqStart q; fqEnd := fqEnd q; fqLimit := fqLimit q;
     fqOffset := fqOffset q; fqDistinct := fqDistinct q; fqKeysOnly := fqKeysOnly q |}.

Definition Eq_ (p : string) (v : Z) (q : FinalizedQuery) : FinalizedQuery :=
  {| fqKind := fqKind q; fqAncestor := fqAncestor q;
     fqEqFilters := <[p := (default [] (fqEqFilters q !! p) ++ [intProp v])%list]> (fqEqFilters q);
     fqIneqProp := fqIneqProp q; fqIneqLow := fqIneqLow q; fqIneqHigh := fqIneqHigh q;
     fqProject := fqProject q; fqOrders := fqOrders q;
     fqStart := fqStart q; fqEnd := fqEnd q; fqLimit := fqLimit q;
     fqOffset := fqOffset q; fqDistinct := fqDistinct q; fqKeysOnly := fqKeysOnly q |}.

(** [key(kind, id)] of the tests: a root key of the test application. *)
Definition key (kind : string) (id : Z) : Key :=
  NewKey "dev~app" "ns" kind "" id None.

Definition keyProp (k : Key) : Property := MkProperty (PVKey k).

(** [curs(pairs...)] of the tests: the columns go to the prefix, the values,
    written without context through the invertible writer, to the data. *)
Definition curs (pairs : list (IndexColumn * Property)) : Cursor :=
  let post :=
    foldr (λ '(col, v) acc,
             (if colDescending col then invert (writeProperty false v)
              else writeProperty false v) +:+ acc) "" pairs in
  queryCursor (cursorJoin (fst <$> pairs) post).

(** [q.Eq("something", 0) ... .Eq("something", n-1)]. *)
Fixpoint eqMany (p : string) (n : nat) (q : FinalizedQuery) : FinalizedQuery :=
  match n with
  | O => q
  | S n' => Eq_ p (Z.of_nat n') (eqMany p n' q)
  end.

End Reduce.
End reduction.

(** ** A codec that meets the contracts

    The contracts above can be met: this codec writes a value as the binary
    digits of its code as a countable type.  It stands for the real codec
    where a property is instantiated at concrete data. *)
Module samples.

Definition bit0 : Ascii.ascii := Ascii.ascii_of_nat 48.
Definition bit1 : Ascii.ascii := Ascii.ascii_of_nat 49.

Fixpoint posBits (p : positive) : string :=
  match p with
  | xH => EmptyString
  | xO q => String bit0 (posBits q)
  | xI q => String bit1 (posBits q)
  end.

Fixpoint bitsPos (s : string) : positive :=
  match s with
  | EmptyString => xH
  | String c r => if decide (c = bit1) then xI (bitsPos r) else xO (bitsPos r)
  end.

Lemma bitsPos_posBits (p : positive) : bitsPos (posBits p) = p.
Proof. induction p as [q IH|q IH|]; simpl; by rewrite ?IH. Qed.

#[global] Instance KeyTok_countable : Countable KeyTok.
Proof.
  refine (inj_countable' (λ t, (tokKind t, tokIntID t, tokStringID t))
            (λ '(k, i, s), mkKeyTok k i s) _).
  by intros [].
Defined.

#[global] Instance Key_countable : Countable Key.
Proof.
  refine (inj_countable' (λ k, (appID k, namespace k, rootTok k, restToks k))
            (λ '(a, n, r, l), mkKey a n r l) _).
  by intros [].
Defined.

Definition pvCode (v : PropertyValue)
  : unit + Z + Z + bool + string + string + Z + Z * Z + Key + string :=
  match v with
  | PVNull => inl (inl (inl (inl (inl (inl (inl (inl (inl tt))))))))
  | PVInt i => inl (inl (inl (inl (inl (inl (inl (inl (inr i)))))))) 
  | PVTime t => inl (inl (inl (inl (inl (inl (inl (inr t))))))) 
  | PVBool b => inl (inl (inl (inl (inl (inl (inr b))))))
  | PVBytes s => inl (inl (inl (inl (inl (inr s)))))
  | PVString s => inl (inl (inl (inl (inr s))))
  | PVFloat f => inl (inl (inl (inr f)))
  | PVGeoPoint a b => inl (inl (inr (a, b)))
  | PVKey k => inl (inr k)
  | PVBlobKey s => inr s
  end.

Definition pvDecode (c : unit + Z + Z + bool + string + string + Z + Z * Z + Key + string)
  : PropertyValue :=
  match c with
  | inl (inl (inl (inl (inl (inl (inl (inl (inl _)))))))) => PVNull
  | inl (inl (inl (inl (inl (inl (inl (inl (inr i)))))))) => PVInt i
  | inl (inl (inl (inl (inl (inl (inl (inr t))))))) => PVTime t
  | inl (inl (inl (inl (inl (inl (inr b)))))) => PVBool b
  | inl (inl (inl (inl (inl (inr s))))) => PVBytes s
  | inl (inl (inl (inl (inr s)))) => PVString s
  | inl (inl (inl (inr f))) => PVFloat f
  | inl (inl (inr (a, b))) => PVGeoPoint a b
  | inl (inr k) => PVKey k
  | inr s => PVBlobKey s
  end.

#[global] Instance PropertyValue_countable : Countable PropertyValue.
Proof. refine (inj_countable' pvCode pvDecode _). by intros []. Defined.

#[global] Instance Property_countable : Countable Property.
Proof.
  refine (inj_countable' (λ p, (propValue p, propIndexed p))
            (λ '(v, i), mkProperty v i) _).
  by intros [].
Defined.

Definition write `{Countable A} (x : A) : bytes := posBits (encode x).
Definition read `{Countable A} (s : bytes) : option A := decode (bitsPos s).

Lemma read_write `{Countable A} (x : A) : read (write x) = Some x.
Proof. unfold read, write. by rewrite bitsPos_posBits, decode_encode. Qed.

#[global] Instance bitCodec : Serialize := {|
  toBytesProperty := write;
  readProperty := read;
  toBytesPropertyMap := write;
  readPropertyMap := read;
  readProperty_toBytes := read_write;
  readPropertyMap_toBytes := read_write
|}.

(** An index engine that keeps no index, and a [Save] that keeps the map. *)
#[global] Instance noIndexes : memory.Externals := {|
  memory.updateIndexes := λ s _ _ _, s;
  memory.pmSave := λ pm, pm
|}.

End samples.

(** * Properties *)

(** ** The entity-group limit of a transaction *)
Section TxnGroups.
Import memory.
Context {codec : Serialize}.

(** The key of [txn.muts] under which [key] is logged. *)
Definition rootOf (key : Key) : bytes := keyBytes (keyRoot key).

Definition egLimit (td : txnDataStoreData) : nat :=
  if isXG td then xgEGLimit else 1%nat.

(** The results of [writeMutation] on the keys [ks], one call after the
    other on the same transaction. *)
Fixpoint writeAll (td : txnDataStoreData) (getOnly : bool) (ks : list Key)
  : list (option error) :=
  match ks with
  | [] => []
  | k :: ks' =>
      let r := writeMutation td getOnly k None in
      r.2 :: writeAll r.1 getOnly ks'
  end.

Lemma writeMutation_err (td : txnDataStoreData) getOnly key data :
  is_Some (writeMutation td getOnly key data).2 ↔
  muts td !! rootOf key = None ∧ (egLimit td < size (muts td) + 1)%nat.
Proof.
  unfold writeMutation, egLimit, rootOf.
  destruct (muts td !! keyBytes (keyRoot key)) as [l|] eqn:E; simpl.
  - split; [intros [? ?]; done | intros [? _]; done].
  - destruct (decide _) as [Hlt|Hge]; simpl.
    + split; [done | eauto].
    + split; [intros [? ?]; done | intros [_ ?]; lia].
Qed.

Lemma writeMutation_err_same (td : txnDataStoreData) getOnly key data :
  is_Some (writeMutation td getOnly key data).2 →
  (writeMutation td getOnly key data).1 = td.
Proof.
  unfold writeMutation.
  destruct (muts td !! _) eqn:E; simpl; [intros [? ?]; done|].
  destruct (decide _); simpl; [done | intros [? ?]; done].
Qed.

Lemma writeMutation_ok_dom (td : txnDataStoreData) getOnly key data :
  (writeMutation td getOnly key data).2 = None →
  dom (muts (writeMutation td getOnly key data).1) = {[ rootOf key ]} ∪ dom (muts td)
  ∧ isXG (writeMutation td getOnly key data).1 = isXG td
  ∧ tsnap (writeMutation td getOnly key data).1 = tsnap td.
Proof.
  unfold writeMutation, rootOf.
  destruct (muts td !! keyBytes (keyRoot key)) as [l|] eqn:E; simpl.
  - intros _. split; [|done]. destruct getOnly; simpl.
    + apply elem_of_dom_2 in E. set_solver.
    + rewrite dom_insert_L. done.
  - destruct (decide _); simpl; [done|]. intros _. split; [|done].
    destruct getOnly; simpl; rewrite ?dom_insert_L; set_solver.
Qed.

Lemma writeAll_fails_from (td : txnDataStoreData) getOnly (ks : list Key) (j : nat) r :
  NoDup (rootOf <$> ks) →
  (∀ k, k ∈ ks → rootOf k ∉ dom (muts td)) →
  writeAll td getOnly ks !! j = Some r →
  (is_Some r ↔ (egLimit td ≤ size (muts td) + j)%nat).
Proof.
  revert td j. induction ks as [|k ks IH]; intros td j Hnd Hnew Hj; [done|].
  simpl in Hj. rewrite fmap_cons in Hnd. apply list.NoDup_cons in Hnd as [Hk Hnd].
  assert (muts td !! rootOf k = None) as Hfresh.
  { apply not_elem_of_dom. apply Hnew. left. }
  destruct j as [|j]; simpl in Hj.
  - injection Hj as <-. rewrite writeMutation_err. split; [lia|]. intros; split; [done|lia].
  - destruct (writeMutation td getOnly k None).2 as [e|] eqn:E.
    + assert (is_Some (writeMutation td getOnly k None).2) as Hs by (rewrite E; eauto).
      pose proof (writeMutation_err_same _ _ _ _ Hs) as Hsame.
      apply writeMutation_err in Hs as [_ Hlim].
      rewrite Hsame in Hj.
      rewrite (IH td j Hnd); [lia| |done]. intros; apply Hnew; by right.
    + pose proof (writeMutation_ok_dom _ _ _ _ E) as (Hdom & Hxg & _).
      specialize (IH (writeMutation td getOnly k None).1 j Hnd).
      assert (size (muts (writeMutation td getOnly k None).1) = S (size (muts td))) as Hsz.
      { rewrite <-!size_dom, Hdom. rewrite size_union, size_singleton; [lia|].
        apply not_elem_of_dom in Hfresh. set_solver. }
      rewrite IH; [| |done].
      * unfold egLimit. rewrite Hxg, Hsz. lia.
      * intros k' Hk'. rewrite Hdom. intros [Heq%elem_of_singleton|Hin]%elem_of_union.
        -- apply Hk. rewrite <-Heq. apply list_elem_of_fmap. eauto.
        -- apply (Hnew k'); [by right|done].
Qed.

(** C2.  [writeMutation] returns an error exactly when the entity-group root
    of the key is not yet in the group set of the transaction and adding it
    would make the set larger than 1 (not XG) or 25 (XG); the transaction is
    left as it was on such an error; and on keys of pairwise distinct groups,
    written one after the other to a fresh transaction, the calls that fail
    are those from the second on (not XG), from the 26th on (XG). *)
Theorem writeMutation_group_limit (td : txnDataStoreData) (getOnly : bool)
    (key : Key) (data : option PropertyMap) :
  let r := writeMutation td getOnly key data in
  (is_Some r.2 ↔
     muts td !! rootOf key = None ∧
     (size (muts td) + 1 > (if isXG td then 25 else 1))%nat)
  ∧ (is_Some r.2 → r.1 = td)
  ∧ (∀ d o (ks : list Key) (j : nat) e,
       NoDup (rootOf <$> ks) →
       writeAll (mkTxn d o) getOnly ks !! j = Some e →
       (is_Some e ↔ ((if isXG (mkTxn d o) then 25 else 1) ≤ j)%nat)).
Proof.
  intros r. split; [|split].
  - unfold r. rewrite writeMutation_err. unfold egLimit, xgEGLimit.
    destruct (isXG td); (split; intros [? ?]; (split; [done|lia])).
  - apply writeMutation_err_same.
  - intros d o ks j e Hnd Hj.
    rewrite (writeAll_fails_from (mkTxn d o) getOnly ks j e Hnd);
      [|intros; simpl; rewrite dom_empty_L; apply not_elem_of_empty|done].
    unfold egLimit, xgEGLimit. simpl. rewrite map_size_empty.
    destruct (match o with Some _ => _ | None => _ end); lia.
Qed.

End TxnGroups.

(** ** The version check at commit *)
Section CommitCheck.
Import memory.
Context {codec : Serialize}.

(** The entity-group root a key of [txn.muts] decodes to. *)
Definition decodeRoot (rk : bytes) : option Key :=
  match readProperty rk with
  | Some p => match propValue p with PVKey k => Some k | _ => None end
  | None => None
  end.

(** The group-metadata [__version__] of the group of [k], read from a store. *)
Definition groupVersion (s : memStore) (k : Key) : res Z :=
  curVersion (GetCollection s ("ents:" +:+ namespace k)) (groupMetaKey k).

(** The head and the snapshot of the transaction hold the same version for
    the group. *)
Definition sameVersion (d : dataStoreData) (txn : txnDataStoreData) (rk : bytes) : Prop :=
  ∃ k v, decodeRoot rk = Some k ∧
         groupVersion (head d) k = Ret v ∧ groupVersion (tsnap txn) k = Ret v.

Definition otherVersion (d : dataStoreData) (txn : txnDataStoreData) (rk : bytes) : Prop :=
  ∃ k vHead vSnap, decodeRoot rk = Some k ∧
         groupVersion (head d) k = Ret vHead ∧ groupVersion (tsnap txn) k = Ret vSnap ∧
         vHead ≠ vSnap.

(** Every group with mutations has the same version in the head and in the
    snapshot. *)
Definition allSame (d : dataStoreData) (txn : txnDataStoreData) : Prop :=
  ∀ rk ms, muts txn !! rk = Some ms → ms ≠ [] → sameVersion d txn rk.

(** Nothing that [canApplyTxn] reads is corrupt: the keys of the written
    groups decode and their version rows are readable. *)
Definition readable (d : dataStoreData) (txn : txnDataStoreData) : Prop :=
  ∀ rk ms, muts txn !! rk = Some ms → ms ≠ [] →
    ∃ k vHead vSnap, decodeRoot rk = Some k ∧
      groupVersion (head d) k = Ret vHead ∧ groupVersion (tsnap txn) k = Ret vSnap.

Lemma decodeRoot_keyBytes (k : Key) : decodeRoot (keyBytes k) = Some k.
Proof. unfold decodeRoot, keyBytes. by rewrite readProperty_toBytes. Qed.

Lemma groupUnchanged_true d txn rk ms :
  groupUnchanged d txn rk ms = Ret true ↔ (ms = [] ∨ sameVersion d txn rk).
Proof.
  unfold groupUnchanged, sameVersion, decodeRoot, groupVersion.
  destruct ms as [|m ms]; [split; [by left|done]|].
  assert (∀ (P : Prop) msg, (P → False) →
            (@Panic bool msg = Ret true ↔ (m :: ms = [] ∨ P))) as Hno.
  { intros P msg HP. split; [done|]. by intros [?|?%HP]. }
  destruct (readProperty rk) as [p|];
    [|apply Hno; intros (?&?&?&?); simplify_eq/=; congruence].
  destruct (propValue p) as [| | | | | | | |k|];
    try (apply Hno; intros (?&?&?&?); simplify_eq/=; congruence).
  destruct (curVersion (GetCollection (head d) _) _) as [vH|] eqn:EH; simpl;
    [|apply Hno; intros (?&?&?&?&?); simplify_eq/=; congruence].
  destruct (curVersion (GetCollection (tsnap txn) _) _) as [vS|] eqn:ES; simpl;
    [|apply Hno; intros (?&?&?&?&?); simplify_eq/=; congruence].
  split.
  - intros [= Hb%bool_decide_eq_true]. right. exists k, vH. by subst.
  - intros [?|(k' & v & ? & ? & ?)]; [done|]. simplify_eq/=.
    rewrite bool_decide_eq_true_2; [done|congruence].
Qed.

Lemma groupUnchanged_false d txn rk ms :
  groupUnchanged d txn rk ms = Ret false ↔ (ms ≠ [] ∧ otherVersion d txn rk).
Proof.
  unfold groupUnchanged, otherVersion, decodeRoot, groupVersion.
  destruct ms as [|m ms]; [split; [done|by intros [? _]]|].
  assert (∀ (P : Prop) msg, (P → False) →
            (@Panic bool msg = Ret false ↔ (m :: ms ≠ [] ∧ P))) as Hno.
  { intros P msg HP. split; [done|]. by intros [_ ?%HP]. }
  destruct (readProperty rk) as [p|];
    [|apply Hno; intros (?&?&?&?&?); simplify_eq/=; congruence].
  destruct (propValue p) as [| | | | | | | |k|];
    try (apply Hno; intros (?&?&?&?&?); simplify_eq/=; congruence).
  destruct (curVersion (GetCollection (head d) _) _) as [vH|] eqn:EH; simpl;
    [|apply Hno; intros (?&?&?&?&?&?&?); simplify_eq/=; congruence].
  destruct (curVersion (GetCollection (tsnap txn) _) _) as [vS|] eqn:ES; simpl;
    [|apply Hno; intros (?&?&?&?&?&?&?); simplify_eq/=; congruence].
  split.
  - intros [= Hb%bool_decide_eq_false]. split; [done|]. by exists k, vH, vS.
  - intros [_ (k' & v1 & v2 & ? & ? & ? & Hne)]. simplify_eq/=.
    rewrite bool_decide_eq_false_2; [done|congruence].
Qed.

Lemma canApplyTxnOver_true d txn entries :
  canApplyTxnOver d txn entries = Ret true ↔
  Forall (λ e, e.2 ≠ [] → sameVersion d txn e.1) entries.
Proof.
  induction entries as [|[rk ms] rest IH]; simpl.
  - split; [constructor | done].
  - rewrite list.Forall_cons. simpl.
    destruct (groupUnchanged d txn rk ms) as [[|]|] eqn:E; simpl.
    + rewrite IH. apply groupUnchanged_true in E.
      split; [intros; split; [|done] | by intros [_ ?]].
      intros. by destruct E.
    + split; [done|]. intros [Hs _]. exfalso.
      assert (groupUnchanged d txn rk ms = Ret true); [|congruence].
      apply groupUnchanged_true. destruct ms; [by left|right; by apply Hs].
    + split; [done|]. intros [Hs _]. exfalso.
      assert (groupUnchanged d txn rk ms = Ret true); [|congruence].
      apply groupUnchanged_true. destruct ms; [by left|right; by apply Hs].
Qed.

Lemma canApplyTxnOver_false d txn entries :
  canApplyTxnOver d txn entries = Ret false →
  Exists (λ e, e.2 ≠ [] ∧ otherVersion d txn e.1) entries.
Proof.
  induction entries as [|[rk ms] rest IH]; simpl; [done|].
  destruct (groupUnchanged d txn rk ms) as [[|]|] eqn:E; simpl; [| |done].
  - intros H. apply Exists_cons_tl. by apply IH.
  - intros _. apply Exists_cons_hd. by apply groupUnchanged_false.
Qed.

Lemma canApplyTxnOver_returns d txn entries :
  Forall (λ e, e.2 ≠ [] → ∃ k vHead vSnap, decodeRoot e.1 = Some k ∧
      groupVersion (head d) k = Ret vHead ∧ groupVersion (tsnap txn) k = Ret vSnap) entries →
  ∃ b, canApplyTxnOver d txn entries = Ret b.
Proof.
  induction 1 as [|[rk ms] rest Hx _ IH]; simpl; [eauto|].
  assert (∃ b, groupUnchanged d txn rk ms = Ret b) as [b ->].
  { unfold groupUnchanged. destruct ms as [|m ms]; [eauto|].
    destruct Hx as (k & vH & vS & Hk & HH & HS); [done|].
    unfold decodeRoot in Hk. simpl in Hk.
    destruct (readProperty rk) as [p|]; [|done].
    destruct (propValue p); try done. injection Hk as ->.
    unfold groupVersion in HH, HS. rewrite HH, HS. simpl. eauto. }
  simpl. destruct b; eauto.
Qed.

Lemma allSame_entries d txn entries :
  entries ≡ₚ map_to_list (muts txn) →
  Forall (λ e, e.2 ≠ [] → sameVersion d txn e.1) entries ↔ allSame d txn.
Proof.
  intros Hp. rewrite Hp, list.Forall_forall. unfold allSame. split.
  - intros H rk ms Hl. apply (H (rk, ms)). by apply elem_of_map_to_list.
  - intros H [rk ms] Hin%elem_of_map_to_list. by apply H.
Qed.

Lemma readable_entries d txn entries :
  entries ≡ₚ map_to_list (muts txn) → readable d txn →
  ∃ b, canApplyTxnOver d txn entries = Ret b.
Proof.
  intros Hp Hr. apply canApplyTxnOver_returns. rewrite Hp, list.Forall_forall.
  intros [rk ms] Hin%elem_of_map_to_list. by apply Hr.
Qed.

(** C1.  [canApplyTxn] returns true if and only if every entity-group root
    of [txn.muts] with a non-empty mutation list has the same group-metadata
    [__version__] in the head as in the snapshot taken when the transaction
    began.  When it returns false, a root with mutations has two different
    versions: a root with an empty list (a group only read) never makes it
    return false.  It returns (true or false) whenever what it reads is not
    corrupt, and in whatever order the map is iterated. *)
Theorem canApplyTxn_version_check (d : dataStoreData) (txn : txnDataStoreData) :
  (canApplyTxn d txn = Ret true ↔ allSame d txn)
  ∧ (canApplyTxn d txn = Ret false →
       ∃ rk ms, muts txn !! rk = Some ms ∧ ms ≠ [] ∧ otherVersion d txn rk)
  ∧ (readable d txn → ∃ b, canApplyTxn d txn = Ret b ∧ (b = true ↔ allSame d txn))
  ∧ (∀ entries, entries ≡ₚ map_to_list (muts txn) →
       (canApplyTxnOver d txn entries = Ret true ↔ allSame d txn)
       ∧ (readable d txn → canApplyTxnOver d txn entries = canApplyTxn d txn)).
Proof.
  assert (∀ entries, entries ≡ₚ map_to_list (muts txn) →
            (canApplyTxnOver d txn entries = Ret true ↔ allSame d txn)) as Htrue.
  { intros entries Hp. by rewrite canApplyTxnOver_true, allSame_entries. }
  unfold canApplyTxn. split; [by apply Htrue|]. split; [|split].
  - intros (e & Hin & Hne & Ho)%canApplyTxnOver_false%list.Exists_exists.
    destruct e as [rk ms]. apply elem_of_map_to_list in Hin. eauto.
  - intros Hr. destruct (readable_entries d txn _ (reflexivity _) Hr) as [b Hb].
    exists b. split; [done|]. rewrite <-(Htrue _ (reflexivity _)), Hb.
    split; [by intros -> | by intros [= ->]].
  - intros entries Hp. split; [by apply Htrue|]. intros Hr.
    destruct (readable_entries d txn _ Hp Hr) as [b Hb].
    destruct (readable_entries d txn _ (reflexivity _) Hr) as [b' Hb'].
    rewrite Hb, Hb'. f_equal.
    pose proof (Htrue _ Hp) as H1. pose proof (Htrue _ (reflexivity _)) as H2.
    rewrite Hb in H1. rewrite Hb' in H2.
    destruct b, b'; try done.
    + assert (@Ret bool false = Ret true) by (apply H2, H1; done). done.
    + assert (@Ret bool false = Ret true) by (apply H1, H2; done). done.
Qed.

End CommitCheck.

(** ** Disabling the special entities *)
Section SpecialEntities.
Import memory.
Context {codec : Serialize} {ext : Externals}.

Definition errAllocDisabled : error :=
  errorsNew "disableSpecialEntities is true so allocateIDs is disabled".

Lemma mutableEntsLocked_flag d ns :
  disableSpecialEntities (mutableEntsLocked d ns).1 = disableSpecialEntities d.
Proof. unfold mutableEntsLocked. by destruct (GetCollection _ _). Qed.

Lemma allocateIDs_disabled d k n :
  disableSpecialEntities d = true →
  allocateIDs d k n = Ret ((mutableEntsLocked d (namespace k)).1, (0, Some errAllocDisabled)).
Proof.
  intros Hd. unfold allocateIDs.
  pose proof (mutableEntsLocked_flag d (namespace k)) as Hf.
  destruct (mutableEntsLocked d (namespace k)) as [d1 ents]. simpl in Hf |- *.
  unfold allocateIDsLocked. by rewrite Hf, Hd.
Qed.

Lemma putLocked_disabled d ns k pmap data :
  disableSpecialEntities d = true → keyIncomplete k = true →
  putLocked d ns k pmap data = Ret ((mutableEntsLocked d ns).1, (k, Some errAllocDisabled)).
Proof.
  intros Hd Hk. unfold putLocked.
  pose proof (mutableEntsLocked_flag d ns) as Hf.
  destruct (mutableEntsLocked d ns) as [d1 ents]. simpl in Hf |- *.
  unfold fixKeyLocked, allocateIDsLocked. by rewrite Hk, Hf, Hd.
Qed.

Lemma txnPutMulti_disabled d td k v :
  disableSpecialEntities d = true → keyIncomplete k = true →
  txnPutMulti d td [k] [v] true =
    Ret ((mutableEntsLocked d (namespace k)).1, td, [(k, Some errAllocDisabled)]).
Proof.
  intros Hd Hk. unfold txnPutMulti. simpl.
  pose proof (mutableEntsLocked_flag d (namespace k)) as Hfl.
  destruct (mutableEntsLocked d (namespace k)) as [d1 ents]. simpl in Hfl |- *.
  unfold fixKeyLocked, allocateIDsLocked. by rewrite Hk, Hfl, Hd.
Qed.

Lemma putMulti_disabled d k v f :
  disableSpecialEntities d = true → keyIncomplete k = true →
  f k (Some errAllocDisabled) = None →
  putMulti d [k] [v] (Some f) =
    Ret ((mutableEntsLocked d (namespace k)).1, [(k, Some errAllocDisabled)], None).
Proof.
  intros Hd Hk Hf. unfold putMulti. simpl.
  rewrite (putLocked_disabled d _ k _ _ Hd Hk). simpl. by rewrite Hf.
Qed.

(** C8.  Whatever its argument, [setDisableSpecialEntities] sets the flag
    to true and touches nothing else of the head (calling it with [false]
    on the result leaves the flag true); from then on [allocateIDs] returns
    an error and no ID, and a Put of an incomplete key, outside or inside a
    transaction, hands that error to the callback with the key still
    incomplete and writes no entity: the only change to the head is that
    the entity collection of the namespace exists. *)
Theorem setDisableSpecialEntities_disables (d : dataStoreData) (b : bool) :
  let d' := setDisableSpecialEntities d b in
  disableSpecialEntities d' = true
  ∧ head d' = head d
  ∧ disableSpecialEntities (setDisableSpecialEntities d' false) = true
  ∧ (∀ k n, allocateIDs d' k n =
              Ret ((mutableEntsLocked d' (namespace k)).1, (0, Some errAllocDisabled)))
  ∧ (∀ k v f, keyIncomplete k = true → f k (Some errAllocDisabled) = None →
       putMulti d' [k] [v] (Some f) =
         Ret ((mutableEntsLocked d' (namespace k)).1, [(k, Some errAllocDisabled)], None))
  ∧ (∀ td k v, keyIncomplete k = true →
       txnPutMulti d' td [k] [v] true =
         Ret ((mutableEntsLocked d' (namespace k)).1, td, [(k, Some errAllocDisabled)])).
Proof.
  intros d'. assert (disableSpecialEntities d' = true) as Hd by done.
  split; [done|]. split; [done|]. split; [done|]. split; [|split].
  - intros k n. by apply allocateIDs_disabled.
  - intros k v f Hk Hf. by apply putMulti_disabled.
  - intros td k v Hk. by apply txnPutMulti_disabled.
Qed.

End SpecialEntities.

(** ** Deleting an entity that does not exist *)

Lemma wrap64_range z : int64_min <= wrap64 z <= int64_max.
Proof.
  unfold wrap64, int64_min, int64_max.
  pose proof (Z.mod_pos_bound (z + 2 ^ 63) (2 ^ 64) ltac:(lia)). lia.
Qed.

Lemma wrap64_id z : is_int64 z → wrap64 z = z.
Proof.
  unfold is_int64, wrap64, int64_min, int64_max. intros Hz.
  rewrite Z.mod_small; lia.
Qed.

(** Adding one changes a version, also when the addition wraps around. *)
Lemma add64_succ_ne v : add64 v 1 ≠ v.
Proof.
  unfold add64. intros Heq.
  pose proof (wrap64_range (v + 1)) as Hr. rewrite Heq in Hr.
  rewrite wrap64_id in Heq; [lia|].
  unfold is_int64, int64_min, int64_max in *.
  destruct (decide (v = 2 ^ 63 - 1)) as [->|]; [|lia].
  exfalso. revert Heq. unfold wrap64.
  replace (2 ^ 63 - 1 + 1 + 2 ^ 63) with (0 + 1 * 2 ^ 64) by lia.
  rewrite Z.mod_add by lia. rewrite Z.mod_0_l by lia. lia.
Qed.

Section DeleteMissing.
Import memory.
Context {codec : Serialize} {ext : Externals}.

(** The row of the entity [k] in the entity collection of its namespace. *)
Definition entityRow (s : memStore) (k : Key) : option bytes :=
  entsGet s ("ents:" +:+ namespace k) (keyBytes k).

Lemma curVersion_versionRow (c : gmap string string) key v :
  curVersion (Some (<[key := versionRow v]> c)) key = Ret v.
Proof.
  unfold curVersion, versionRow, rpm.
  rewrite lookup_insert_eq, readPropertyMap_toBytes. by rewrite lookup_singleton_eq.
Qed.

Lemma curVersion_default (o : option (gmap string string)) key :
  curVersion (Some (default ∅ o)) key = curVersion o key.
Proof. destruct o; simpl; [done|]. unfold curVersion. by rewrite lookup_empty. Qed.

Lemma mutableEntsLocked_spec d ns :
  (mutableEntsLocked d ns).2 = "ents:" +:+ ns
  ∧ head (mutableEntsLocked d ns).1 !! ("ents:" +:+ ns)
    = Some (default ∅ (head d !! ("ents:" +:+ ns)))
  ∧ (∀ c, c ≠ "ents:" +:+ ns → head (mutableEntsLocked d ns).1 !! c = head d !! c)
  ∧ disableSpecialEntities (mutableEntsLocked d ns).1 = disableSpecialEntities d.
Proof.
  unfold mutableEntsLocked, GetCollection.
  destruct (head d !! ("ents:" +:+ ns)) as [c|] eqn:E; simpl.
  - by rewrite E.
  - rewrite lookup_insert_eq. repeat split; try done.
    intros c Hc. by rewrite lookup_insert_ne.
Qed.

Lemma mutableEntsLocked_reads d k :
  entityRow (head (mutableEntsLocked d (namespace k)).1) k = entityRow (head d) k
  ∧ groupVersion (head (mutableEntsLocked d (namespace k)).1) k = groupVersion (head d) k.
Proof.
  destruct (mutableEntsLocked_spec d (namespace k)) as (_ & Hget & _).
  unfold entityRow, groupVersion, entsGet, GetCollection, collGet. rewrite Hget. split.
  - destruct (head d !! ("ents:" +:+ namespace k)); simpl; [done|apply lookup_empty].
  - apply curVersion_default.
Qed.

Lemma groupVersion_root (s : memStore) k : groupVersion s (keyRoot k) = groupVersion s k.
Proof. reflexivity. Qed.

Lemma delLocked_missing d k v :
  disableSpecialEntities d = false →
  entityRow (head d) k = None →
  keyBytes k ≠ groupMetaKey k →
  groupVersion (head d) k = Ret v →
  ∃ d', delLocked d (namespace k) k = Ret (d', None)
        ∧ entityRow (head d') k = None
        ∧ groupVersion (head d') k = Ret (add64 v 1).
Proof.
  intros Hflag Habs Hne Hv. unfold delLocked.
  destruct (mutableEntsLocked_spec d (namespace k)) as (Hc & Hget & _ & Hfl).
  destruct (mutableEntsLocked d (namespace k)) as [d0 ents]. simpl in Hc, Hget, Hfl.
  subst ents. rewrite Hfl, Hflag. unfold incrementLocked.
  destruct (decide (1 <= 0)) as [?|_]; [lia|].
  unfold groupVersion, GetCollection in Hv.
  unfold GetCollection. rewrite Hget, curVersion_default, Hv. simpl.
  set (c := default ∅ (head d !! ("ents:" +:+ namespace k))).
  assert (add64 (add64 v 1) (1 - 1) = add64 v 1) as ->.
  { unfold add64 at 1. replace (add64 v 1 + (1 - 1)) with (add64 v 1) by lia.
    apply wrap64_id, wrap64_range. }
  assert (c !! keyBytes k = None) as Hck.
  { unfold entityRow, entsGet, GetCollection, collGet in Habs. unfold c.
    destruct (head d !! ("ents:" +:+ namespace k)); simpl in *; [done|apply lookup_empty]. }
  unfold entsGet, entsSet, GetCollection, collGet. simpl.
  rewrite lookup_insert_eq. simpl. rewrite Hget. simpl.
  rewrite lookup_insert_ne by done. fold c. rewrite Hck.
  eexists. split; [done|]. simpl. split.
  - unfold entityRow, entsGet, GetCollection, collGet. rewrite lookup_insert_eq. simpl.
    by rewrite lookup_insert_ne.
  - unfold groupVersion, GetCollection. rewrite lookup_insert_eq.
    apply curVersion_versionRow.
Qed.

(** C10.  Let the special entities be enabled and let the entity of [k] be
    absent from the head, its row being another row than the metadata row
    of its group, which reads as version [v].  Then the non-transactional
    [delMulti] of [k] calls the callback once, with a nil error; the entity
    row is still absent; and the group-metadata [__version__] of the root
    of [k] is [v] plus one in 64-bit arithmetic ([v + 1] unless [v] is the
    largest [int64]).  A transaction that began before the delete and has
    mutations in that group then does not pass [canApplyTxn]: the check
    returns false when what it reads is not corrupt. *)
Theorem delMulti_missing_bumps_version (d : dataStoreData) (k : Key) (v : Z)
    (f : option error → option error) :
  disableSpecialEntities d = false →
  entityRow (head d) k = None →
  keyBytes k ≠ groupMetaKey k →
  groupVersion (head d) k = Ret v →
  ∃ d' r, delMulti d [k] (Some f) = Ret (d', [None], r)
    ∧ (f None = None → r = None)
    ∧ entityRow (head d') k = None
    ∧ groupVersion (head d') k = Ret (add64 v 1)
    ∧ (int64_min <= v < int64_max → groupVersion (head d') k = Ret (v + 1))
    ∧ (∀ txn ms, tsnap txn = head d → muts txn !! rootOf k = Some ms → ms ≠ [] →
         canApplyTxn d' txn ≠ Ret true
         ∧ (readable d' txn → canApplyTxn d' txn = Ret false)).
Proof.
  intros Hflag Habs Hne Hv.
  destruct (mutableEntsLocked_reads d k) as [Hrow Hver].
  destruct (mutableEntsLocked_spec d (namespace k)) as (_ & _ & _ & Hfl).
  unfold delMulti.
  destruct (mutableEntsLocked d (namespace k)) as [d0 ents] eqn:E0. simpl in Hrow, Hver, Hfl.
  destruct (delLocked_missing d0 k v) as (d' & Hdel & Hrow' & Hver'); try congruence.
  assert (∃ r, delMultiLoop d0 (namespace k) (Some f) [k] = Ret (d', [None], r)
               ∧ (f None = None → r = None)) as (r & Hloop & Hr).
  { simpl. rewrite Hdel. simpl. destruct (f None) as [e|]; simpl; eauto. by eexists. }
  exists d', r. rewrite Hloop.
  split; [done|]. split; [done|]. split; [done|]. split; [done|]. split.
  - intros Hrange. rewrite Hver'. f_equal. unfold add64. apply wrap64_id.
    unfold is_int64, int64_min, int64_max in *. lia.
  - intros txn ms Hsnap Hm Hms.
    assert (¬ allSame d' txn) as Hns.
    { intros Hall. destruct (Hall _ _ Hm Hms) as (k0 & v0 & Hk0 & HH & HS).
      unfold rootOf in Hk0. rewrite decodeRoot_keyBytes in Hk0. injection Hk0 as <-.
      rewrite groupVersion_root in HH, HS. rewrite Hsnap in HS.
      rewrite Hver' in HH. rewrite Hv in HS.
      assert (add64 v 1 = v) by congruence. by apply (add64_succ_ne v). }
    destruct (canApplyTxn_version_check d' txn) as (Ht & _ & Hret & _). split.
    + by rewrite Ht.
    + intros Hread. destruct (Hret Hread) as (b & Hb & Hiff). rewrite Hb.
      destruct b; [|done]. exfalso. by apply Hns, Hiff.
Qed.

End DeleteMissing.

(** The theorem at a fresh store and the key [Foo,1] of the namespace [ns],
    with the sample codec: the version of the group goes from 0 to 1. *)
Section Samples.
Import memory samples.

Definition sampleStore : dataStoreData := newDataStoreData "dev~app".
Definition sampleKey : Key := NewKey "dev~app" "ns" "Foo" "" 1 None.

Lemma write_inj `{Countable A} (x y : A) : write x = write y → x = y.
Proof.
  intros Heq. apply (f_equal (read (A:=A))) in Heq.
  rewrite !read_write in Heq. by injection Heq.
Qed.

Lemma delMulti_missing_witness :
  ∃ d', delMulti sampleStore [sampleKey] (Some (λ e, e)) = Ret (d', [None], None)
        ∧ groupVersion (head d') sampleKey = Ret 1.
Proof.
  destruct (delMulti_missing_bumps_version sampleStore sampleKey 0 (λ e, e))
    as (d' & r & Hdel & Hr & _ & _ & Hv & _).
  - reflexivity.
  - reflexivity.
  - intros Heq. apply write_inj in Heq. discriminate.
  - reflexivity.
  - exists d'. rewrite Hdel, (Hr eq_refl). split; [done|]. apply Hv.
    unfold int64_min, int64_max. lia.
Defined.

End Samples.

(** ** Reads of a transaction *)
Section Isolation.
Import memory.
Context {codec : Serialize} {ext : Externals}.

(** What can happen between the begin of a transaction and one of its
    reads: writes to the head by others (puts, deletes, ID allocations, the
    commit of another transaction) and the transaction's own puts, deletes
    and reads. *)
Inductive op :=
  | OpPut (keys : list Key) (vals : list PropertyMap) (cb : PutMultiCB)
  | OpDel (keys : list Key) (cb : DeleteMultiCB)
  | OpAllocateIDs (incomplete : Key) (n : Z)
  | OpCommit (other : txnDataStoreData)
  | OpTxnPut (keys : list Key) (vals : list PropertyMap) (hasCb : bool)
  | OpTxnDel (keys : list Key) (hasCb : bool)
  | OpTxnGet (keys : list Key).

Definition step (w : dataStoreData * txnDataStoreData) (o : op)
  : res (dataStoreData * txnDataStoreData) :=
  let '(d, td) := w in
  match o with
  | OpPut keys vals cb => '(d', _, _) ← putMulti d keys vals cb; Ret (d', td)
  | OpDel keys cb => '(d', _, _) ← delMulti d keys cb; Ret (d', td)
  | OpAllocateIDs k n => '(d', _) ← allocateIDs d k n; Ret (d', td)
  | OpCommit other => d' ← applyTxn d other; Ret (d', td)
  | OpTxnPut keys vals hasCb =>
      '(d', td', _) ← txnPutMulti d td keys vals hasCb; Ret (d', td')
  | OpTxnDel keys hasCb => Ret (d, (txnDelMulti td keys hasCb).1)
  | OpTxnGet keys => '(td', _) ← txnGetMulti td keys; Ret (d, td')
  end.

Fixpoint runOps (w : dataStoreData * txnDataStoreData) (ops : list op)
  : res (dataStoreData * txnDataStoreData) :=
  match ops with
  | [] => Ret w
  | o :: ops' => w' ← step w o; runOps w' ops'
  end.

Lemma writeMutation_tsnap td getOnly key data :
  tsnap (writeMutation td getOnly key data).1 = tsnap td.
Proof.
  unfold writeMutation. destruct (muts td !! _); simpl; [done|].
  by destruct (decide _).
Qed.

Lemma txnPutMultiLoop_tsnap d td ns hasCb i keys vals d' td' calls :
  txnPutMultiLoop d td ns hasCb i keys vals = Ret (d', td', calls) →
  tsnap td' = tsnap td.
Proof.
  revert d td i d' td' calls.
  induction keys as [|k keys IH]; intros d td i d' td' calls; simpl.
  - by intros [= _ <- _].
  - destruct (mutableEntsLocked d ns) as [d0 ents].
    destruct (fixKeyLocked d0 ents k) as [[d1 [k1 err]]|]; simpl; [|done].
    destruct err as [e|]; simpl.
    + destruct (txnPutMultiLoop d1 td ns hasCb (S i) keys vals) as [[[d2 td2] c2]|] eqn:E;
        simpl; [|done].
      intros [= _ <- _]. by apply IH in E.
    + destruct (vals !! i) as [v|]; simpl; [|done].
      pose proof (writeMutation_tsnap td false k1 (Some v)) as Hs.
      destruct (writeMutation td false k1 (Some v)) as [td1 err1]. simpl in Hs.
      destruct (txnPutMultiLoop d1 td1 ns hasCb (S i) keys vals) as [[[d2 td2] c2]|] eqn:E;
        simpl; [|done].
      intros [= _ <- _]. apply IH in E. congruence.
Qed.

Lemma txnDelMulti_tsnap td keys hasCb : tsnap (txnDelMulti td keys hasCb).1 = tsnap td.
Proof.
  revert td. induction keys as [|k keys IH]; intros td; simpl; [done|].
  pose proof (writeMutation_tsnap td false k None) as Hs.
  destruct (writeMutation td false k None) as [td1 err]. simpl in Hs.
  specialize (IH td1). destruct (txnDelMulti td1 keys hasCb) as [td2 calls].
  simpl in *. congruence.
Qed.

Lemma recordGroups_tsnap td keys : tsnap (recordGroups td keys).1 = tsnap td.
Proof.
  revert td. induction keys as [|k keys IH]; intros td; simpl; [done|].
  pose proof (writeMutation_tsnap td true k None) as Hs.
  destruct (writeMutation td true k None) as [td1 [e|]]; simpl in *; [done|].
  rewrite IH. done.
Qed.

Lemma txnGetMulti_tsnap td keys td' r :
  txnGetMulti td keys = Ret (td', r) → tsnap td' = tsnap td.
Proof.
  unfold txnGetMulti. pose proof (recordGroups_tsnap td keys) as Hs.
  destruct (recordGroups td keys) as [td1 [e|]]; simpl in Hs.
  - by intros [= <- _].
  - destruct keys; [done|]. by intros [= <- _].
Qed.

Lemma step_tsnap d td o d' td' :
  step (d, td) o = Ret (d', td') → tsnap td' = tsnap td.
Proof.
  destruct o; simpl.
  - destruct (putMulti d keys vals cb) as [[[? ?] ?]|]; cbn; [|done]. by intros [= _ <-].
  - destruct (delMulti d keys cb) as [[[? ?] ?]|]; cbn; [|done]. by intros [= _ <-].
  - destruct (allocateIDs d incomplete n) as [[? ?]|]; cbn; [|done]. by intros [= _ <-].
  - destruct (applyTxn d other) as [?|]; cbn; [|done]. by intros [= _ <-].
  - unfold txnPutMulti. destruct keys as [|k0 keys]; [done|].
    destruct (txnPutMultiLoop d td (namespace k0) hasCb 0 (k0 :: keys) vals)
      as [[[d2 td2] c2]|] eqn:E; cbn; [|done].
    intros [= _ <-]. by apply txnPutMultiLoop_tsnap in E.
  - intros [= _ <-]. apply txnDelMulti_tsnap.
  - destruct (txnGetMulti td keys) as [[td2 r]|] eqn:E; cbn; [|done].
    intros [= _ <-]. by apply txnGetMulti_tsnap in E.
Qed.

Lemma runOps_tsnap ops d td d' td' :
  runOps (d, td) ops = Ret (d', td') → tsnap td' = tsnap td.
Proof.
  revert d td. induction ops as [|o ops IH]; intros d td.
  - simpl. by intros [= _ <-].
  - change (runOps (d, td) (o :: ops)) with (step (d, td) o ≫= λ w', runOps w' ops).
    destruct (step (d, td) o) as [[d1 td1]|] eqn:E; [|done].
    intros Hr. apply IH in Hr. apply step_tsnap in E. congruence.
Qed.



End Isolation.

(** The isolation theorem after a delete of the key inside the transaction. *)
Section IsolationSample.
Import memory samples.
End IsolationSample.

(** ** What every operation keeps of a transaction *)
Section TxnInvariants.
Import memory.
Context {codec : Serialize} {ext : Externals}.

(** A property of the transaction that [writeMutation] keeps is kept by
    every operation: the transaction changes through [writeMutation] only. *)
Section Preserved.
Variable P : txnDataStoreData → Prop.
Hypothesis P_writeMutation :
  ∀ td getOnly key data, P td → P (writeMutation td getOnly key data).1.

Lemma txnPutMultiLoop_preserves d td ns hasCb i keys vals d' td' calls :
  P td → txnPutMultiLoop d td ns hasCb i keys vals = Ret (d', td', calls) → P td'.
Proof.
  revert d td i d' td' calls.
  induction keys as [|k keys IH]; intros d td i d' td' calls HP; simpl.
  - by intros [= _ <- _].
  - destruct (mutableEntsLocked d ns) as [d0 ents].
    destruct (fixKeyLocked d0 ents k) as [[d1 [k1 err]]|]; simpl; [|done].
    destruct err as [e|]; simpl.
    + destruct (txnPutMultiLoop d1 td ns hasCb (S i) keys vals) as [[[d2 td2] c2]|] eqn:E;
        simpl; [|done].
      intros [= _ <- _]. by apply IH in E.
    + destruct (vals !! i) as [v|]; simpl; [|done].
      pose proof (P_writeMutation td false k1 (Some v) HP) as Hs.
      destruct (writeMutation td false k1 (Some v)) as [td1 err1]. simpl in Hs.
      destruct (txnPutMultiLoop d1 td1 ns hasCb (S i) keys vals) as [[[d2 td2] c2]|] eqn:E;
        simpl; [|done].
      intros [= _ <- _]. by apply IH in E.
Qed.

Lemma txnDelMulti_preserves td keys hasCb : P td → P (txnDelMulti td keys hasCb).1.
Proof.
  revert td. induction keys as [|k keys IH]; intros td HP; simpl; [done|].
  pose proof (P_writeMutation td false k None HP) as Hs.
  destruct (writeMutation td false k None) as [td1 err]. simpl in Hs.
  specialize (IH td1 Hs). by destruct (txnDelMulti td1 keys hasCb) as [td2 calls].
Qed.

Lemma recordGroups_preserves td keys : P td → P (recordGroups td keys).1.
Proof.
  revert td. induction keys as [|k keys IH]; intros td HP; simpl; [done|].
  pose proof (P_writeMutation td true k None HP) as Hs.
  destruct (writeMutation td true k None) as [td1 [e|]]; simpl in *; [done|].
  by apply IH.
Qed.

Lemma txnGetMulti_preserves td keys td' r :
  P td → txnGetMulti td keys = Ret (td', r) → P td'.
Proof.
  intros HP. unfold txnGetMulti. pose proof (recordGroups_preserves td keys HP) as Hs.
  destruct (recordGroups td keys) as [td1 [e|]]; simpl in Hs.
  - by intros [= <- _].
  - destruct keys; [done|]. by intros [= <- _].
Qed.

Lemma step_preserves d td o d' td' :
  P td → step (d, td) o = Ret (d', td') → P td'.
Proof.
  intros HP. destruct o; simpl.
  - destruct (putMulti d keys vals cb) as [[[? ?] ?]|]; simpl; [|done]. by intros [= _ <-].
  - destruct (delMulti d keys cb) as [[[? ?] ?]|]; simpl; [|done]. by intros [= _ <-].
  - destruct (allocateIDs d incomplete n) as [[? ?]|]; simpl; [|done]. by intros [= _ <-].
  - destruct (applyTxn d other) as [?|]; simpl; [|done]. by intros [= _ <-].
  - unfold txnPutMulti. destruct keys as [|k0 keys]; [done|].
    destruct (txnPutMultiLoop d td (namespace k0) hasCb 0 (k0 :: keys) vals)
      as [[[d2 td2] c2]|] eqn:E; simpl; [|done].
    intros [= _ <-]. by apply txnPutMultiLoop_preserves in E.
  - intros [= _ <-]. by apply txnDelMulti_preserves.
  - destruct (txnGetMulti td keys) as [[td2 r]|] eqn:E; simpl; [|done].
    intros [= _ <-]. by apply txnGetMulti_preserves in E.
Qed.

Lemma runOps_preserves ops d td d' td' :
  P td → runOps (d, td) ops = Ret (d', td') → P td'.
Proof.
  revert d td. induction ops as [|o ops IH]; intros d td HP.
  - simpl. by intros [= _ <-].
  - change (runOps (d, td) (o :: ops)) with (step (d, td) o ≫= λ w', runOps w' ops).
    destruct (step (d, td) o) as [[d1 td1]|] eqn:E; [|done].
    intros Hr. apply step_preserves in E; [|done]. by apply IH in Hr.
Qed.

End Preserved.

Definition withinLimit (xg : bool) (td : txnDataStoreData) : Prop :=
  isXG td = xg ∧ (size (muts td) ≤ if xg then 25 else 1)%nat.

Lemma writeMutation_withinLimit xg td getOnly key data :
  withinLimit xg td → withinLimit xg (writeMutation td getOnly key data).1.
Proof.
  intros [Hxg Hsz]. unfold withinLimit.
  destruct (writeMutation td getOnly key data).2 as [e|] eqn:E.
  - rewrite writeMutation_err_same by (rewrite E; eauto). done.
  - destruct (writeMutation_ok_dom _ _ _ _ E) as (Hdom & Hxg' & _).
    split; [congruence|].
    assert (¬ is_Some (writeMutation td getOnly key data).2) as Hn
      by (rewrite E; by intros [? ?]).
    rewrite writeMutation_err in Hn. unfold egLimit, xgEGLimit in Hn. rewrite Hxg in Hn.
    rewrite <-size_dom, Hdom.
    destruct (muts td !! rootOf key) as [l|] eqn:El.
    + apply elem_of_dom_2 in El.
      replace ({[rootOf key]} ∪ dom (muts td)) with (dom (muts td)) by set_solver.
      by rewrite size_dom.
    + apply not_elem_of_dom in El.
      rewrite size_union by set_solver. rewrite size_singleton, size_dom.
      destruct xg; (assert (¬ (_ < size (muts td) + 1)%nat) by (intros ?; apply Hn; done); lia).
Qed.

(** X2.  The group set of a transaction never outgrows its limit: after any
    sequence of operations since the transaction began, it still has the XG
    flag it was made with and holds at most 1 entity group (not XG) or 25
    (XG). *)
Theorem txn_group_count_bounded (d0 : dataStoreData) (o : option TransactionOptions)
    (ops : list op) (d : dataStoreData) (td : txnDataStoreData) :
  runOps (d0, mkTxn d0 o) ops = Ret (d, td) →
  isXG td = isXG (mkTxn d0 o)
  ∧ (size (muts td) ≤ if isXG (mkTxn d0 o) then 25 else 1)%nat.
Proof.
  intros Hrun.
  apply (runOps_preserves (withinLimit (isXG (mkTxn d0 o)))
           (writeMutation_withinLimit _) ops d0 (mkTxn d0 o) d td); [|done].
  split; [done|]. simpl. rewrite map_size_empty. destruct o as [[[]]|]; simpl; lia.
Qed.

End TxnInvariants.

(** The bound after deletes in two different groups inside a transaction
    that is not XG: the second group was refused. *)
Section TxnInvariantsSample.
Import memory samples.

Definition sampleKey2 : Key := NewKey "dev~app" "ns" "Bar" "" 2 None.

Lemma txn_group_count_bounded_witness :
  (size (muts (txnDelMulti (mkTxn sampleStore None) [sampleKey; sampleKey2] true).1) ≤ 1)%nat.
Proof.
  exact (proj2 (txn_group_count_bounded sampleStore None
                  [OpTxnDel [sampleKey; sampleKey2] true] sampleStore _ eq_refl)).
Defined.

End TxnInvariantsSample.

(** ** Writes of a transaction are shadowed *)
Section Shadowed.
Import memory.
Context {codec : Serialize} {ext : Externals}.

(** What a get makes of one row. *)
Definition rowResult (row : option bytes) : getCall :=
  match row with
  | None => (None, Some ErrNoSuchEntity)
  | Some pdata =>
      match rpm pdata with
      | Some pm => (Some pm, None)
      | None => (None, Some errDecode)
      end
  end.

Lemma getMultiInner_rows keys (c : option (gmap string string)) :
  getMultiInner keys (c, None) = ((λ k, rowResult (collGet c (keyBytes k))) <$> keys, None).
Proof. destruct c as [ents|]; simpl; [done|]. f_equal. Qed.

Lemma getMulti_rows d k0 keys :
  getMulti d (k0 :: keys) =
    Ret ((λ k, rowResult (entsGet (head d) ("ents:" +:+ namespace k0) (keyBytes k)))
           <$> (k0 :: keys), None).
Proof. unfold getMulti, takeSnapshot, Snapshot. by rewrite getMultiInner_rows. Qed.

Lemma mutableEntsLocked_entsGet d ns c key :
  entsGet (head (mutableEntsLocked d ns).1) c key = entsGet (head d) c key.
Proof.
  destruct (mutableEntsLocked_spec d ns) as (_ & Hget & Hother & _).
  unfold entsGet, GetCollection, collGet.
  destruct (decide (c = "ents:" +:+ ns)) as [->|Hne].
  - rewrite Hget. destruct (head d !! ("ents:" +:+ ns)); simpl; [done|apply lookup_empty].
  - by rewrite Hother.
Qed.

Lemma fixKeyLocked_complete d ents k :
  keyIncomplete k = false → fixKeyLocked d ents k = Ret (d, (k, None)).
Proof. intros Hk. unfold fixKeyLocked. by rewrite Hk. Qed.

Lemma txnPutMultiLoop_head d td ns hasCb i keys vals d' td' calls :
  Forall (λ k, keyIncomplete k = false) keys →
  txnPutMultiLoop d td ns hasCb i keys vals = Ret (d', td', calls) →
  (∀ c key, entsGet (head d') c key = entsGet (head d) c key)
  ∧ disableSpecialEntities d' = disableSpecialEntities d.
Proof.
  revert d td i d' td' calls.
  induction keys as [|k keys IH]; intros d td i d' td' calls Hc; simpl.
  - by intros [= <- _ _].
  - apply list.Forall_cons in Hc as [Hk Hc].
    pose proof (mutableEntsLocked_entsGet d ns) as Hm.
    pose proof (mutableEntsLocked_flag d ns) as Hf.
    destruct (mutableEntsLocked d ns) as [d0 ents]. simpl in Hm, Hf.
    rewrite fixKeyLocked_complete by done. simpl.
    destruct (vals !! i) as [v|]; simpl; [|done].
    destruct (writeMutation td false k (Some v)) as [td1 err1].
    destruct (txnPutMultiLoop d0 td1 ns hasCb (S i) keys vals) as [[[d2 td2] c2]|] eqn:E;
      simpl; [|done].
    intros [= <- _ _]. apply IH in E as [He Hfl]; [|done]. split.
    + intros c key. by rewrite He, Hm.
    + congruence.
Qed.

(** The transaction's own operations, puts being of complete keys (a put of
    an incomplete key takes an ID from the counters of the head). *)
Definition ownOp (o : op) : Prop :=
  match o with
  | OpTxnPut keys _ _ => Forall (λ k, keyIncomplete k = false) keys
  | OpTxnDel _ _ | OpTxnGet _ => True
  | _ => False
  end.

Lemma step_own_head d td o d' td' :
  ownOp o → step (d, td) o = Ret (d', td') →
  ∀ c key, entsGet (head d') c key = entsGet (head d) c key.
Proof.
  destruct o; simpl; try done.
  - intros Hc. unfold txnPutMulti. destruct keys as [|k0 keys]; [done|].
    destruct (txnPutMultiLoop d td (namespace k0) hasCb 0 (k0 :: keys) vals)
      as [[[d2 td2] c2]|] eqn:E; simpl; [|done].
    intros [= <- _]. by apply txnPutMultiLoop_head in E as [? _].
  - by intros _ [= <- _].
  - intros _. destruct (txnGetMulti td keys) as [[td2 r]|]; simpl; [|done].
    by intros [= <- _].
Qed.


End Shadowed.

(** The theorem after deletes of [sampleKey] inside a transaction. *)
Section ShadowedSample.
Import memory samples.

Definition sampleOwnOps : list op :=
  [OpTxnDel [sampleKey] true; OpTxnDel [sampleKey; sampleKey] false].

Lemma sampleOwnOps_own : Forall ownOp sampleOwnOps.
Proof. repeat constructor. Qed.


End ShadowedSample.

(** ** Put, get and delete on the head *)
Section HeadRoundTrip.
Import memory.
Context {codec : Serialize} {ext : Externals}.

(** The index engine writes index rows only: what it returns reads like
    its input in every entity collection. *)
Definition indexesKeepEntities : Prop :=
  ∀ (s : memStore) k o n ns key,
    entsGet (updateIndexes s k o n) ("ents:" +:+ ns) key = entsGet s ("ents:" +:+ ns) key.

(** The group version can be advanced: the special entities are disabled,
    or the metadata row of the group is readable. *)
Definition versionReady (d : dataStoreData) (k : Key) : Prop :=
  disableSpecialEntities d = true ∨ ∃ v, groupVersion (head d) k = Ret v.

Lemma entsGet_entsSet (s : memStore) c key val key' :
  entsGet (entsSet s c key val) c key' =
    if decide (key = key') then Some val else entsGet s c key'.
Proof.
  unfold entsGet, entsSet, GetCollection, collGet.
  rewrite lookup_insert_eq. simpl. rewrite lookup_insert.
  destruct (decide (key = key')); [done|].
  destruct (s !! c); simpl; [done|]. by rewrite lookup_empty.
Qed.

Lemma entsGet_entsDelete (s : memStore) c key key' :
  entsGet (entsDelete s c key) c key' =
    if decide (key = key') then None else entsGet s c key'.
Proof.
  unfold entsGet, entsDelete, GetCollection, collGet.
  rewrite lookup_insert_eq. simpl. rewrite lookup_delete.
  destruct (decide (key = key')); [done|].
  destruct (s !! c); simpl; [done|]. by rewrite lookup_empty.
Qed.

(** The step both [putMulti] and [delMulti] start with: the group version
    is advanced unless the special entities are disabled; the row of the
    entity is not touched. *)
Definition bumped (d : dataStoreData) (k : Key) : res dataStoreData :=
  if disableSpecialEntities d then Ret d
  else '(_, h) ← incrementLocked (head d) ("ents:" +:+ namespace k) (groupMetaKey k) 1;
       Ret (withHead d h).

(** What [curVersion] makes of one row. *)
Definition versionOfRow (row : option bytes) : res Z :=
  match row with
  | None => Ret 0
  | Some v =>
      match rpm v with
      | None => Panic "memory corruption"
      | Some pm =>
          match pm !! "__version__" with
          | Some (mkProperty (PVInt i) _ :: _) => Ret i
          | _ => Panic "memory corruption: __version__ property missing or wrong"
          end
      end
  end.

Lemma curVersion_row (c : option (gmap string string)) key :
  curVersion c key = versionOfRow (collGet c key).
Proof. destruct c as [e|]; simpl; [|done]. unfold curVersion. by destruct (e !! key). Qed.

Lemma groupVersion_row (s : memStore) k :
  groupVersion s k = versionOfRow (entsGet s ("ents:" +:+ namespace k) (groupMetaKey k)).
Proof. apply curVersion_row. Qed.

Lemma bumped_ok d k :
  versionReady d k → keyBytes k ≠ groupMetaKey k →
  ∃ d1, bumped d k = Ret d1
    ∧ disableSpecialEntities d1 = disableSpecialEntities d
    ∧ entityRow (head d1) k = entityRow (head d) k
    ∧ (∀ v, disableSpecialEntities d = false → groupVersion (head d) k = Ret v →
         groupVersion (head d1) k = Ret (add64 v 1)).
Proof.
  intros Hv Hne. unfold bumped.
  destruct (disableSpecialEntities d) eqn:Hf; [by eexists|].
  destruct Hv as [?|[v Hv]]; [congruence|].
  unfold incrementLocked. destruct (decide (1 <= 0)); [lia|].
  pose proof Hv as Hv'. unfold groupVersion in Hv'. rewrite Hv'. simpl.
  eexists. split; [done|]. split; [done|]. simpl. split.
  - unfold entityRow. rewrite entsGet_entsSet. by destruct (decide _).
  - intros v' _ Hv''. assert (v' = v) as -> by congruence.
    rewrite groupVersion_row. simpl. rewrite entsGet_entsSet.
    destruct (decide _); [|done]. simpl. unfold versionRow.
    unfold rpm. rewrite readPropertyMap_toBytes, lookup_singleton_eq. simpl.
    f_equal. unfold add64 at 1. replace (add64 v 1 + (1 - 1)) with (add64 v 1) by lia.
    apply wrap64_id, wrap64_range.
Qed.

Lemma putLocked_ok d k pmap data :
  indexesKeepEntities → keyIncomplete k = false →
  versionReady d k → keyBytes k ≠ groupMetaKey k →
  (∀ old, entityRow (head d) k = Some old → is_Some (rpm old)) →
  ∃ d', putLocked d (namespace k) k pmap data = Ret (d', (k, None))
    ∧ entityRow (head d') k = Some data
    ∧ disableSpecialEntities d' = disableSpecialEntities d
    ∧ (∀ v, disableSpecialEntities d = false → groupVersion (head d) k = Ret v →
         groupVersion (head d') k = Ret (add64 v 1)).
Proof.
  intros Hidx Hk Hv Hne Hold. unfold putLocked.
  destruct (mutableEntsLocked_reads d k) as [Hrow Hver].
  destruct (mutableEntsLocked_spec d (namespace k)) as (Hc & _ & _ & Hfl).
  destruct (mutableEntsLocked d (namespace k)) as [d0 ents]. simpl in Hrow, Hver, Hfl, Hc.
  subst ents. rewrite fixKeyLocked_complete by done. simpl.
  assert (versionReady d0 k) as Hv0.
  { destruct Hv as [?|[v ?]]; [left; congruence|right; exists v; congruence]. }
  destruct (bumped_ok d0 k Hv0 Hne) as (d2 & Hb & Hfl2 & Hrow2 & Hver2).
  unfold bumped in Hb. rewrite Hb. simpl.
  fold (entityRow (head d2) k). rewrite Hrow2, Hrow.
  assert (∀ oldPM, ∃ d',
            Ret (withHead d2 (updateIndexes
                   (entsSet (head d2) ("ents:" +:+ namespace k) (keyBytes k) data)
                   k oldPM (Some pmap)), (k, @None error)) = Ret (d', (k, None))
            ∧ entityRow (head d') k = Some data
            ∧ disableSpecialEntities d' = disableSpecialEntities d
            ∧ (∀ v, disableSpecialEntities d = false → groupVersion (head d) k = Ret v →
                 groupVersion (head d') k = Ret (add64 v 1))) as Hwrite.
  { intros oldPM. eexists. split; [done|]. simpl. split; [|split].
    - unfold entityRow. rewrite Hidx, entsGet_entsSet. by destruct (decide _).
    - congruence.
    - intros v Hf Hvv. rewrite groupVersion_row, Hidx, entsGet_entsSet.
      destruct (decide _) as [?|_]; [done|]. rewrite <-groupVersion_row.
      apply Hver2; congruence. }
  destruct (entityRow (head d) k) as [old|] eqn:Eold.
  - destruct (Hold old eq_refl) as [oldPM HoldPM]. rewrite HoldPM. apply Hwrite.
  - apply Hwrite.
Qed.

Lemma getMulti_one d k :
  getMulti d [k] = Ret ([rowResult (entityRow (head d) k)], None).
Proof. by rewrite getMulti_rows. Qed.

(** X4.  A put on the head can be read back: when the key is complete, the
    group version can be advanced and the row the key had, if any, decodes,
    [putMulti] of one entity returns without an error and a following
    [getMulti] of the key returns the property map that was saved (the
    value after [Save]), with no error. *)
Theorem putMulti_then_getMulti (d : dataStoreData) (k : Key) (v : PropertyMap) :
  indexesKeepEntities → keyIncomplete k = false →
  versionReady d k → keyBytes k ≠ groupMetaKey k →
  (∀ old, entityRow (head d) k = Some old → is_Some (rpm old)) →
  ∃ d', putMulti d [k] [v] None = Ret (d', [], None)
    ∧ getMulti d' [k] = Ret ([(Some (pmSave v), None)], None).
Proof.
  intros Hidx Hk Hv Hne Hold.
  destruct (putLocked_ok d k (pmSave v) (toBytesPropertyMap (pmSave v))
              Hidx Hk Hv Hne Hold) as (d' & Hput & Hrow & _).
  exists d'. split.
  { unfold putMulti. simpl. by rewrite Hput. }
  rewrite getMulti_one, Hrow. simpl. unfold rpm. by rewrite readPropertyMap_toBytes.
Qed.

(** X6.  With the special entities enabled, every put advances the
    group-metadata version of the key's group by one (in 64-bit
    arithmetic), and reports the key with a nil error to the callback; a
    transaction on that group that began before the put then fails
    [canApplyTxn]. *)
Theorem putMulti_bumps_version (d : dataStoreData) (k : Key) (v : PropertyMap)
    (ver : Z) (f : Key → option error → option error) :
  indexesKeepEntities → keyIncomplete k = false →
  disableSpecialEntities d = false → groupVersion (head d) k = Ret ver →
  keyBytes k ≠ groupMetaKey k →
  (∀ old, entityRow (head d) k = Some old → is_Some (rpm old)) →
  ∃ d' r, putMulti d [k] [v] (Some f) = Ret (d', [(k, None)], r)
    ∧ groupVersion (head d') k = Ret (add64 ver 1)
    ∧ (∀ txn ms, tsnap txn = head d → muts txn !! rootOf k = Some ms → ms ≠ [] →
         canApplyTxn d' txn ≠ Ret true).
Proof.
  intros Hidx Hk Hf Hver Hne Hold.
  destruct (putLocked_ok d k (pmSave v) (toBytesPropertyMap (pmSave v))
              Hidx Hk (or_intror (ex_intro _ ver Hver)) Hne Hold)
    as (d' & Hput & _ & _ & Hbump).
  specialize (Hbump ver Hf Hver).
  assert (∃ r, putMulti d [k] [v] (Some f) = Ret (d', [(k, None)], r)) as [r Hr].
  { unfold putMulti. simpl. rewrite Hput. simpl. destruct (f k None); simpl; eauto. }
  exists d', r. split; [done|]. split; [done|].
  intros txn ms Hsnap Hm Hms Htrue.
  destruct (canApplyTxn_version_check d' txn) as (Ht & _). apply Ht in Htrue.
  destruct (Htrue _ _ Hm Hms) as (k0 & v0 & Hk0 & HH & HS).
  unfold rootOf in Hk0. rewrite decodeRoot_keyBytes in Hk0. injection Hk0 as <-.
  rewrite groupVersion_root in HH, HS. rewrite Hsnap in HS.
  rewrite Hbump in HH. rewrite Hver in HS.
  assert (add64 ver 1 = ver) by congruence. by apply (add64_succ_ne ver).
Qed.

Lemma delLocked_present d k old oldPM :
  indexesKeepEntities →
  versionReady d k → keyBytes k ≠ groupMetaKey k →
  entityRow (head d) k = Some old → rpm old = Some oldPM →
  ∃ d', delLocked d (namespace k) k = Ret (d', None)
    ∧ entityRow (head d') k = None.
Proof.
  intros Hidx Hv Hne Hrow0 Hdec. unfold delLocked.
  destruct (mutableEntsLocked_reads d k) as [Hrow Hver].
  destruct (mutableEntsLocked_spec d (namespace k)) as (Hc & _ & _ & Hfl).
  destruct (mutableEntsLocked d (namespace k)) as [d0 ents]. simpl in Hrow, Hver, Hfl, Hc.
  subst ents.
  assert (versionReady d0 k) as Hv0.
  { destruct Hv as [?|[v ?]]; [left; congruence|right; exists v; congruence]. }
  destruct (bumped_ok d0 k Hv0 Hne) as (d2 & Hb & Hfl2 & Hrow2 & _).
  unfold bumped in Hb. rewrite Hb. simpl.
  fold (entityRow (head d2) k). rewrite Hrow2, Hrow, Hrow0, Hdec.
  eexists. split; [done|]. simpl.
  unfold entityRow. rewrite Hidx, entsGet_entsDelete. by destruct (decide _).
Qed.

(** X5.  A delete on the head removes the entity: when the entity of the
    key exists and decodes, [delMulti] hands a nil error to the callback
    and a following [getMulti] of the key reports [ErrNoSuchEntity]. *)
Theorem delMulti_then_getMulti (d : dataStoreData) (k : Key) (old : bytes)
    (oldPM : PropertyMap) (f : option error → option error) :
  indexesKeepEntities →
  versionReady d k → keyBytes k ≠ groupMetaKey k →
  entityRow (head d) k = Some old → rpm old = Some oldPM →
  ∃ d' r, delMulti d [k] (Some f) = Ret (d', [None], r)
    ∧ getMulti d' [k] = Ret ([(None, Some ErrNoSuchEntity)], None).
Proof.
  intros Hidx Hv Hne Hrow0 Hdec.
  destruct (mutableEntsLocked_reads d k) as [Hrow Hver].
  destruct (mutableEntsLocked_spec d (namespace k)) as (_ & _ & _ & Hfl).
  unfold delMulti.
  destruct (mutableEntsLocked d (namespace k)) as [d0 ents] eqn:E0. simpl in Hrow, Hver, Hfl.
  assert (versionReady d0 k) as Hv0.
  { destruct Hv as [?|[v ?]]; [left; congruence|right; exists v; congruence]. }
  destruct (delLocked_present d0 k old oldPM Hidx Hv0 Hne) as (d' & Hdel & Hrow');
    [congruence|done|].
  assert (∃ r, delMultiLoop d0 (namespace k) (Some f) [k] = Ret (d', [None], r)) as [r Hr].
  { simpl. rewrite Hdel. simpl. destruct (f None); simpl; eauto. }
  exists d', r. rewrite Hr. split; [done|]. by rewrite getMulti_one, Hrow'.
Qed.

End HeadRoundTrip.

(** The three theorems at the key [Foo,1], with the sample codec and an index
    engine that keeps no index: on a fresh store for the puts, on a store
    that holds the entity for the delete. *)
Section HeadRoundTripSample.
Import memory samples.

Lemma noIndexes_keepEntities : indexesKeepEntities.
Proof. by intros s k o n ns key. Qed.

Lemma sampleKey_not_meta : keyBytes sampleKey ≠ groupMetaKey sampleKey.
Proof. intros Heq. apply write_inj in Heq. discriminate. Qed.

Lemma putMulti_then_getMulti_witness :
  ∃ d', putMulti sampleStore [sampleKey] [∅] None = Ret (d', [], None)
    ∧ getMulti d' [sampleKey] = Ret ([(Some (pmSave ∅), None)], None).
Proof.
  apply (putMulti_then_getMulti sampleStore sampleKey ∅ noIndexes_keepEntities).
  - reflexivity.
  - right. by exists 0.
  - exact sampleKey_not_meta.
  - intros old Hold. discriminate.
Defined.

Lemma putMulti_bumps_version_witness :
  ∃ d' r, putMulti sampleStore [sampleKey] [∅] (Some (λ _ e, e))
            = Ret (d', [(sampleKey, None)], r)
    ∧ groupVersion (head d') sampleKey = Ret 1.
Proof.
  destruct (putMulti_bumps_version sampleStore sampleKey ∅ 0 (λ _ e, e)
              noIndexes_keepEntities) as (d' & r & Hput & Hver & _).
  - reflexivity.
  - reflexivity.
  - reflexivity.
  - exact sampleKey_not_meta.
  - intros old Hold. discriminate.
  - by exists d', r.
Defined.

(** A store that holds an (empty) entity under [sampleKey]. *)
Definition sampleStoreWithEntity : dataStoreData :=
  withHead sampleStore
    {[ "ents:ns" := {[ keyBytes sampleKey := toBytesPropertyMap ∅ ]} ]}.

Lemma delMulti_then_getMulti_witness :
  ∃ d' r, delMulti sampleStoreWithEntity [sampleKey] (Some (λ e, e)) = Ret (d', [None], r)
    ∧ getMulti d' [sampleKey] = Ret ([(None, Some ErrNoSuchEntity)], None).
Proof.
  apply (delMulti_then_getMulti sampleStoreWithEntity sampleKey
           (toBytesPropertyMap ∅) ∅ (λ e, e) noIndexes_keepEntities).
  - right. exists 0. rewrite groupVersion_row.
    unfold entsGet, GetCollection, collGet. simpl.
    rewrite lookup_singleton_eq. simpl.
    rewrite lookup_singleton_ne; [done|]. exact sampleKey_not_meta.
  - exact sampleKey_not_meta.
  - unfold entityRow, entsGet, GetCollection, collGet. simpl.
    rewrite lookup_singleton_eq. simpl. by rewrite lookup_singleton_eq.
  - apply read_write.
Defined.

End HeadRoundTripSample.

(** ** Allocating IDs *)

Lemma wrap64_add_l a b : wrap64 (wrap64 a + b) = wrap64 (a + b).
Proof.
  unfold wrap64. f_equal.
  replace ((a + 2 ^ 63) mod 2 ^ 64 - 2 ^ 63 + b + 2 ^ 63)
    with ((a + 2 ^ 63) mod 2 ^ 64 + b) by lia.
  rewrite Zplus_mod_idemp_l. f_equal. lia.
Qed.

Section AllocateIDs.
Import memory.
Context {codec : Serialize} {ext : Externals}.

(** The row that counts the IDs handed out for keys like [incomplete]: per
    kind for a root key, per entity group otherwise. *)
Definition idCounterKey (incomplete : Key) : bytes :=
  match keyParent incomplete with
  | None => rootIDsKey (keyKind incomplete)
  | Some _ => groupIDsKey incomplete
  end.

Definition idCounter (s : memStore) (incomplete : Key) : res Z :=
  curVersion (GetCollection s ("ents:" +:+ namespace incomplete)) (idCounterKey incomplete).

Lemma incrementLocked_spec (h : memStore) coll key amt c :
  0 < amt → curVersion (GetCollection h coll) key = Ret c →
  ∃ h', incrementLocked h coll key amt = Ret (add64 c 1, h')
    ∧ curVersion (GetCollection h' coll) key = Ret (wrap64 (c + amt)).
Proof.
  intros Hamt Hc. unfold incrementLocked. destruct (decide (amt <= 0)); [lia|].
  rewrite Hc. simpl. eexists. split; [done|].
  unfold entsSet, GetCollection. rewrite lookup_insert_eq, curVersion_versionRow.
  f_equal. unfold add64. rewrite wrap64_add_l. f_equal. lia.
Qed.

Lemma allocateIDs_spec d k n c :
  disableSpecialEntities d = false → 0 < n → idCounter (head d) k = Ret c →
  ∃ d1, allocateIDs d k n = Ret (d1, (add64 c 1, None))
    ∧ disableSpecialEntities d1 = false
    ∧ idCounter (head d1) k = Ret (wrap64 (c + n)).
Proof.
  intros Hf Hn Hc. unfold allocateIDs.
  destruct (mutableEntsLocked_spec d (namespace k)) as (Hcoll & Hget & _ & Hfl).
  destruct (mutableEntsLocked d (namespace k)) as [d0 ents]. simpl in Hcoll, Hget, Hfl.
  subst ents. unfold allocateIDsLocked. rewrite Hfl, Hf.
  fold (idCounterKey k).
  destruct (incrementLocked_spec (head d0) ("ents:" +:+ namespace k) (idCounterKey k) n c Hn)
    as (h' & Hinc & Hc').
  { unfold GetCollection. rewrite Hget, curVersion_default. exact Hc. }
  rewrite Hinc. simpl. eexists. split; [done|]. split; [simpl; congruence|]. exact Hc'.
Qed.

(** X7.  With the special entities enabled, [allocateIDs] panics on a count
    that is not positive; on a positive count [n], with the counter row of
    the key readable as [c], it returns the ID after [c] and reserves [n]
    IDs, so that the next allocation for the same kind or group starts [n]
    later: the two ranges are adjacent and do not overlap (64-bit
    arithmetic; plain sums when nothing overflows). *)
Theorem allocateIDs_ranges (d : dataStoreData) (k : Key) (n m : Z) :
  disableSpecialEntities d = false →
  (n <= 0 → ∃ msg, allocateIDs d k n = Panic msg)
  ∧ (0 < n → 0 < m → ∀ c, idCounter (head d) k = Ret c →
       ∃ d1 d2,
         allocateIDs d k n = Ret (d1, (add64 c 1, None))
         ∧ allocateIDs d1 k m = Ret (d2, (add64 (add64 c 1) n, None))
         ∧ (int64_min <= c → c + n + m <= int64_max →
              add64 c 1 = c + 1 ∧ add64 (add64 c 1) n = c + 1 + n)).
Proof.
  intros Hf. split.
  - intros Hn. unfold allocateIDs.
    destruct (mutableEntsLocked_spec d (namespace k)) as (_ & _ & _ & Hfl).
    destruct (mutableEntsLocked d (namespace k)) as [d0 ents]. simpl in Hfl.
    unfold allocateIDsLocked, incrementLocked. rewrite Hfl, Hf.
    destruct (decide (n <= 0)); [|lia]. simpl. eauto.
  - intros Hn Hm c Hc.
    destruct (allocateIDs_spec d k n c Hf Hn Hc) as (d1 & H1 & Hf1 & Hc1).
    destruct (allocateIDs_spec d1 k m _ Hf1 Hm Hc1) as (d2 & H2 & _ & _).
    exists d1, d2. split; [done|]. split.
    + rewrite H2. do 3 f_equal. unfold add64. rewrite !wrap64_add_l. f_equal. lia.
    + intros Hlo Hhi. unfold add64. rewrite wrap64_add_l.
      rewrite !wrap64_id; [lia| |]; unfold is_int64, int64_min, int64_max in *; lia.
Qed.

End AllocateIDs.

(** Two allocations for the kind [Foo] on a fresh store: 1..3, then 4..5. *)
Section AllocateIDsSample.
Import memory samples.

Definition sampleIncomplete : Key := NewKey "dev~app" "ns" "Foo" "" 0 None.

Lemma allocateIDs_ranges_witness :
  ∃ d1 d2,
    allocateIDs sampleStore sampleIncomplete 3 = Ret (d1, (1, None))
    ∧ allocateIDs d1 sampleIncomplete 2 = Ret (d2, (4, None)).
Proof.
  destruct (proj2 (allocateIDs_ranges sampleStore sampleIncomplete 3 2 eq_refl)
              ltac:(lia) ltac:(lia) 0 eq_refl) as (d1 & d2 & H1 & H2 & _).
  by exists d1, d2.
Defined.

End AllocateIDsSample.

(** ** The callback protocol *)
Section Callbacks.
Import memory.
Context {codec : Serialize} {ext : Externals}.





End Callbacks.

Section CallbacksSample.
Import memory samples.
#[local] Existing Instance bitCodec.
#[local] Existing Instance noIndexes.



End CallbacksSample.

(** ** The cache fetch planner *)
Section FetchPlan.
Import dscache.
Variable ItemHasData ItemHasLock : N.
Variable decodeItemValue : bytes → string → string → option PropertyMap * option error.
Variable MetaGetter : Type.
Variable GetSingle : option (list MetaGetter) → nat → MetaGetter.
Variable aid ns : string.

#[local] Arguments getKeys {_} _.
#[local] Arguments getMeta {_} _.
#[local] Arguments lockItems {_} _.
#[local] Arguments nonce {_} _.
#[local] Arguments mkFacts {_} _ _ _ _.
#[local] Arguments keepMeta {_} _.
#[local] Arguments idxMap {_} _.
#[local] Arguments toGet {_} _.
#[local] Arguments toGetMeta {_} _.
#[local] Arguments toSave {_} _.
#[local] Arguments decoded {_} _.
#[local] Arguments lme {_} _.
#[local] Arguments add {_} _ _ _ _ _.
#[local] Arguments setDecoded {_} _ _ _.
#[local] Arguments assignErr {_} _ _ _.

Abbreviation facts := (facts MetaGetter).
Abbreviation plan := (plan MetaGetter).
Abbreviation planItem := (planItem ItemHasData ItemHasLock decodeItemValue MetaGetter GetSingle aid ns).
Abbreviation planLoop := (planLoop ItemHasData ItemHasLock decodeItemValue MetaGetter GetSingle aid ns).
Abbreviation makeFetchPlan :=
  (makeFetchPlan ItemHasData ItemHasLock decodeItemValue MetaGetter GetSingle aid ns).

(** The cache answers for an item: it holds data (and is not a lock) that
    decodes, or that decodes to the no-such-entity sentinel. *)
Definition answered (lockItm : option Item) : bool :=
  match lockItm with
  | Some itm =>
      bool_decide (itemFlags itm ≠ ItemHasLock)
      && bool_decide (itemFlags itm = ItemHasData)
      && match (decodeItemValue (itemValue itm) aid ns).2 with
         | None | Some ErrNoSuchEntity => true
         | Some _ => false
         end
  | None => false
  end.

(** The item is a lock that carries the nonce of [f]. *)
Definition ownLock (f : facts) (itm : Item) : Prop :=
  itemFlags itm = ItemHasLock ∧ nonce f = itemValue itm.

Definition saveSlot (f : facts) (lockItm : option Item) : option Item :=
  match lockItm with
  | Some itm => if decide (ownLock f itm) then Some itm else None
  | None => None
  end.

Definition answeredAt (f : facts) (i : nat) : bool :=
  match lockItems f !! i with
  | Some lockItm => answered lockItm
  | None => false
  end.

Lemma planItem_fetch f p i lockItm getKey :
  answered lockItm = false →
  planItem f p i lockItm getKey
  = add p i getKey (GetSingle (getMeta f) i) (saveSlot f lockItm).
Proof.
  unfold dscache.planItem, answered, saveSlot, ownLock.
  destruct lockItm as [itm|]; [|done].
  destruct (decide (itemFlags itm = ItemHasLock)) as [Hl|Hl].
  - intros _. destruct (decide (nonce f = itemValue itm)).
    + by rewrite decide_True.
    + rewrite decide_False; [done|]. by intros [_ ?].
  - rewrite (decide_False (P:=_ ∧ _)); [|by intros [? _]].
    rewrite (bool_decide_eq_true_2 _ Hl). simpl.
    destruct (decide (itemFlags itm = ItemHasData)) as [Hd|Hd].
    + rewrite (bool_decide_eq_true_2 _ Hd). simpl.
      destruct (decodeItemValue (itemValue itm) aid ns) as [pm [[]|]]; simpl; done.
    + by rewrite (bool_decide_eq_false_2 _ Hd).
Qed.

Lemma planItem_answered f p i lockItm getKey :
  answered lockItm = true →
  ∃ itm pm err, lockItm = Some itm
    ∧ itemFlags itm = ItemHasData ∧ itemFlags itm ≠ ItemHasLock
    ∧ decodeItemValue (itemValue itm) aid ns = (pm, err)
    ∧ ((err = None ∧ planItem f p i lockItm getKey = setDecoded p i pm)
       ∨ (err = Some ErrNoSuchEntity
          ∧ planItem f p i lockItm getKey = assignErr p i ErrNoSuchEntity)).
Proof.
  unfold dscache.planItem, answered. destruct lockItm as [itm|]; [|done].
  intros H. apply andb_true_iff in H as [H Hdec]. apply andb_true_iff in H as [Hl Hd].
  apply bool_decide_eq_true in Hl, Hd.
  rewrite decide_False by done. rewrite decide_True by done.
  destruct (decodeItemValue (itemValue itm) aid ns) as [pm err] eqn:E. simpl in Hdec.
  exists itm, pm, err. do 4 (split; [done|]).
  destruct err as [[]|]; try done; eauto.
Qed.

(** The state of the plan after the items below [i] have been handled. *)
Record planned (f : facts) (i : nat) (p : plan) : Prop := mkPlanned {
  pl_keepMeta : keepMeta p = bool_decide (is_Some (getMeta f));
  pl_idxMap : idxMap p = filter (λ j, answeredAt f j = false) (seq 0 i);
  pl_toGet : Forall2 (λ j k, getKeys f !! j = Some k) (idxMap p) (toGet p);
  pl_toSave : toSave p = (λ j, saveSlot f (default None (lockItems f !! j))) <$> idxMap p;
  pl_toGetMeta :
    toGetMeta p = if keepMeta p then GetSingle (getMeta f) <$> idxMap p else [];
  pl_decoded_len : length (decoded p) = length (lockItems f);
  pl_lme_len : length (lme p) = length (lockItems f);
  pl_untouched : ∀ j, (j < length (lockItems f))%nat →
    (i ≤ j)%nat ∨ answeredAt f j = false →
    decoded p !! j = Some None ∧ lme p !! j = Some None;
  pl_answered : ∀ j, (j < i)%nat → answeredAt f j = true →
    ∃ itm pm err, lockItems f !! j = Some (Some itm)
      ∧ decodeItemValue (itemValue itm) aid ns = (pm, err)
      ∧ ((err = None ∧ decoded p !! j = Some pm ∧ lme p !! j = Some None)
         ∨ (err = Some ErrNoSuchEntity ∧ decoded p !! j = Some None
            ∧ lme p !! j = Some (Some ErrNoSuchEntity)))
}.

Lemma planned_step f i p lockItm getKey :
  planned f i p → lockItems f !! i = Some lockItm → getKeys f !! i = Some getKey →
  planned f (S i) (planItem f p i lockItm getKey).
Proof.
  intros [Hkm Hidx Hget Hsave Hmeta Hdl Hll Hun Hans] Hi Hk.
  assert (i < length (lockItems f))%nat as Hlt by (by eapply lookup_lt_Some).
  assert (answeredAt f i = answered lockItm) as Hat by (unfold answeredAt; by rewrite Hi).
  destruct (answered lockItm) eqn:Ea.
  - destruct (planItem_answered f p i lockItm getKey Ea)
      as (itm & pm & err & -> & Hd & Hl & Hdec & Hcase).
    assert (filter (λ j, answeredAt f j = false) (seq 0 (S i)) = idxMap p) as Hf.
    { rewrite seq_S, list.filter_app, <- Hidx. simpl.
      rewrite filter_cons_False; [|by rewrite Hat]. by rewrite filter_nil, app_nil_r. }
    destruct Hcase as [[-> ->]|[-> ->]]; constructor; simpl; try done;
      rewrite ?length_insert; try done.
    + intros j Hj Hor.
      assert (j ≠ i) as Hne by (intros ->; destruct Hor; [lia|congruence]).
      rewrite list_lookup_insert_ne by done. apply Hun; [done|].
      destruct Hor; [left; lia|by right].
    + intros j Hj Haj. destruct (decide (j = i)) as [->|Hne].
      * exists itm, pm, None. split; [done|]. split; [done|]. left.
        split; [done|]. split.
        -- apply list_lookup_insert_eq. lia.
        -- apply Hun; [done|]. left. lia.
      * rewrite list_lookup_insert_ne by done. apply Hans; [lia|done].
    + intros j Hj Hor.
      assert (j ≠ i) as Hne by (intros ->; destruct Hor; [lia|congruence]).
      rewrite list_lookup_insert_ne by done. apply Hun; [done|].
      destruct Hor; [left; lia|by right].
    + intros j Hj Haj. destruct (decide (j = i)) as [->|Hne].
      * exists itm, pm, (Some ErrNoSuchEntity). split; [done|]. split; [done|]. right.
        split; [done|]. split.
        -- apply Hun; [done|]. left. lia.
        -- apply list_lookup_insert_eq. lia.
      * rewrite list_lookup_insert_ne by done. apply Hans; [lia|done].
  - rewrite (planItem_fetch f p i lockItm getKey Ea).
    assert (filter (λ j, answeredAt f j = false) (seq 0 (S i)) = idxMap p ++ [i])%list
      as Hf.
    { rewrite seq_S, list.filter_app, <- Hidx. simpl.
      rewrite filter_cons_True; [|by rewrite Hat]. by rewrite filter_nil. }
    constructor; simpl; try done.
    + apply Forall2_app; [done|]. by constructor.
    + rewrite fmap_app, <- Hsave. simpl. by rewrite Hi.
    + rewrite Hmeta. destruct (keepMeta p); [|done]. by rewrite fmap_app.
    + intros j Hj Hor. apply Hun; [done|]. destruct Hor; [|by right].
      destruct (decide (j = i)) as [->|]; [right; congruence|left; lia].
    + intros j Hj Haj. apply Hans; [|done].
      destruct (decide (j = i)) as [->|]; [congruence|lia].
Qed.

Lemma drop_cons_inv {A} (l : list A) i x rest :
  drop i l = x :: rest → l !! i = Some x ∧ drop (S i) l = rest ∧ (i < length l)%nat.
Proof.
  intros Hd.
  assert (l !! i = Some x) as Hi.
  { rewrite <- (Nat.add_0_r i), <- lookup_drop, Hd. done. }
  split; [done|]. split.
  - rewrite (drop_S _ _ _ Hi) in Hd. by injection Hd.
  - by eapply lookup_lt_Some.
Qed.

Lemma planLoop_planned f p i items p' :
  planned f i p → drop i (lockItems f) = items → (i ≤ length (lockItems f))%nat →
  planLoop f p i items = Ret p' → planned f (length (lockItems f)) p'.
Proof.
  revert p i. induction items as [|lockItm rest IH]; intros p i Hp Hdrop Hle; simpl.
  - intros [= <-]. apply (f_equal length) in Hdrop. rewrite length_drop in Hdrop.
    simpl in Hdrop. by replace (length (lockItems f)) with i by lia.
  - apply drop_cons_inv in Hdrop as (Hi & Hrest & Hlt).
    destruct (getKeys f !! i) as [getKey|] eqn:Hk; [|done].
    apply IH; [|done|lia]. by apply planned_step.
Qed.

Lemma planLoop_returns f p i items :
  drop i (lockItems f) = items →
  (∃ p', planLoop f p i items = Ret p')
  ↔ (items = [] ∨ length (lockItems f) ≤ length (getKeys f))%nat.
Proof.
  revert p i. induction items as [|lockItm rest IH]; intros p i Hdrop; simpl.
  - split; eauto.
  - apply drop_cons_inv in Hdrop as (Hi & Hrest & Hlt).
    destruct (getKeys f !! i) as [getKey|] eqn:Hk.
    + rewrite (IH _ (S i) Hrest). apply lookup_lt_Some in Hk.
      split; [|intros [?|?]; [done|by right]]. intros [->|?]; [|by right]. right.
      apply (f_equal length) in Hrest. rewrite length_drop in Hrest. simpl in Hrest. lia.
    + apply lookup_ge_None in Hk. split; [by intros [? ?]|].
      intros [?|?]; [done|lia].
Qed.

Lemma planned_init f :
  planned f 0
    {| keepMeta := bool_decide (is_Some (getMeta f));
       idxMap := []; toGet := []; toGetMeta := []; toSave := [];
       decoded := replicate (length (lockItems f)) None;
       lme := replicate (length (lockItems f)) None |}.
Proof.
  constructor; simpl; try done.
  - by destruct (bool_decide _).
  - by rewrite length_replicate.
  - by rewrite length_replicate.
  - intros j Hj _. by rewrite !lookup_replicate_2.
  - intros j Hj. lia.
Qed.

Lemma makeFetchPlan_planned f p :
  makeFetchPlan f = Ret p → planned f (length (lockItems f)) p.
Proof.
  unfold dscache.makeFetchPlan. apply planLoop_planned; [apply planned_init|done|lia].
Qed.

Lemma planLoop_panic f p i items msg :
  planLoop f p i items = Panic msg → msg = "index out of range".
Proof.
  revert p i. induction items as [|lockItm rest IH]; intros p i; simpl; [done|].
  destruct (getKeys f !! i); [apply IH|]. by intros [= <-].
Qed.

Lemma filter_seq_increasing (P : nat → Prop) `{!∀ x, Decision (P x)} n j1 j2 i1 i2 :
  (j1 < j2)%nat →
  filter P (seq 0 n) !! j1 = Some i1 → filter P (seq 0 n) !! j2 = Some i2 →
  (i1 < i2)%nat.
Proof.
  revert j1 j2 i1 i2. induction n as [|n IH]; intros j1 j2 i1 i2 Hlt; [done|].
  rewrite seq_S, list.filter_app. simpl.
  assert (∀ j x, filter P [n] !! j = Some x → j = 0%nat ∧ x = n) as Hlast.
  { intros j x. destruct (decide (P n)).
    - rewrite filter_cons_True, filter_nil by done. by destruct j; intros [= <-].
    - by rewrite filter_cons_False, filter_nil by done. }
  rewrite !lookup_app_Some.
  intros [H1|[Hl1 H1]] [H2|[Hl2 H2]].
  - by eapply IH.
  - apply Hlast in H2 as [_ ->].
    apply list_elem_of_lookup_2, list_elem_of_filter in H1 as [_ H1].
    apply elem_of_seq in H1. lia.
  - apply lookup_lt_Some in H2. lia.
  - apply Hlast in H1 as [? _]. apply Hlast in H2 as [? _]. lia.
Qed.

(** X9.  [makeFetchPlan] returns a plan exactly when there is a key for every
    cache item; with fewer keys than items it panics (index out of range).
    The plan has one slot of [decoded] and of [lme] per item. *)
Theorem makeFetchPlan_returns f :
  ((∃ p, makeFetchPlan f = Ret p
         ∧ length (decoded p) = length (lockItems f)
         ∧ length (lme p) = length (lockItems f))
   ↔ (length (lockItems f) ≤ length (getKeys f))%nat)
  ∧ ((length (getKeys f) < length (lockItems f))%nat ↔
     makeFetchPlan f = Panic "index out of range").
Proof.
  pose proof (planLoop_returns f
    {| keepMeta := bool_decide (is_Some (getMeta f));
       idxMap := []; toGet := []; toGetMeta := []; toSave := [];
       decoded := replicate (length (lockItems f)) None;
       lme := replicate (length (lockItems f)) None |} 0 (lockItems f) eq_refl) as Hret.
  fold (makeFetchPlan f) in Hret.
  assert ((∃ p, makeFetchPlan f = Ret p)
          ↔ (length (lockItems f) ≤ length (getKeys f))%nat) as Hiff.
  { rewrite Hret. split; [|by right]. intros [->|?]; [simpl; lia|done]. }
  split.
  - rewrite <- Hiff. split; [intros (p & ? & _); eauto|].
    intros [p Hp]. exists p. split; [done|].
    apply makeFetchPlan_planned in Hp as []. done.
  - split.
    + intros Hlt. destruct (makeFetchPlan f) as [p|msg] eqn:E.
      * assert (length (lockItems f) ≤ length (getKeys f))%nat by (apply Hiff; eauto). lia.
      * apply planLoop_panic in E. by subst.
    + intros Hp. destruct (decide (length (getKeys f) < length (lockItems f))%nat); [done|].
      assert (∃ p, makeFetchPlan f = Ret p) as [p Hq] by (apply Hiff; lia).
      congruence.
Qed.

(** X10.  The lists of a plan are aligned: [toGet] and [toSave] have one
    entry per entry of [idxMap], [toGetMeta] too when the metadata is kept
    and is empty otherwise; [idxMap] is strictly increasing and within the
    items; the key at position [j] of [toGet] is the key [idxMap[j]] of the
    facts, and the meta getter at [j] is [GetSingle] of that index. *)
Theorem makeFetchPlan_aligned f p :
  makeFetchPlan f = Ret p →
  length (toGet p) = length (idxMap p)
  ∧ length (toSave p) = length (idxMap p)
  ∧ keepMeta p = bool_decide (is_Some (getMeta f))
  ∧ length (toGetMeta p) = (if keepMeta p then length (idxMap p) else 0%nat)
  ∧ (∀ j1 j2 i1 i2, (j1 < j2)%nat →
       idxMap p !! j1 = Some i1 → idxMap p !! j2 = Some i2 → (i1 < i2)%nat)
  ∧ (∀ j i, idxMap p !! j = Some i →
       (i < length (lockItems f))%nat
       ∧ toGet p !! j = getKeys f !! i
       ∧ (keepMeta p = true → toGetMeta p !! j = Some (GetSingle (getMeta f) i))).
Proof.
  intros Hp. apply makeFetchPlan_planned in Hp as [Hkm Hidx Hget Hsave Hmeta _ _ _ _].
  split; [symmetry; by eapply Forall2_length|].
  split; [by rewrite Hsave, length_fmap|].
  split; [done|].
  split; [rewrite Hmeta; destruct (keepMeta p); [by rewrite length_fmap|done]|].
  split.
  - rewrite Hidx. apply filter_seq_increasing.
  - intros j i Hj. split; [|split].
    + rewrite Hidx in Hj.
      apply list_elem_of_lookup_2, list_elem_of_filter in Hj as [_ Hj].
      apply elem_of_seq in Hj. lia.
    + destruct (Forall2_lookup_l _ _ _ _ _ Hget Hj) as (k & Hk & Hgk). by rewrite Hk, Hgk.
    + intros Hk. rewrite Hmeta, Hk, list_lookup_fmap, Hj. done.
Qed.

(** X11.  Every item is either fetched or answered from the cache, never
    both: the index [i] of an item is in [idxMap] exactly when the cache does
    not answer for it, and then [decoded[i]] and [lme[i]] are still nil; an
    index that is not in [idxMap] belongs to a data item (not a lock) whose
    value decoded, with [decoded[i]] the decoded map, or decoded to the
    no-such-entity sentinel, with [lme[i]] that error. *)
Theorem makeFetchPlan_partition f p i :
  makeFetchPlan f = Ret p → (i < length (lockItems f))%nat →
  (i ∈ idxMap p ↔ answeredAt f i = false)
  ∧ (i ∈ idxMap p → decoded p !! i = Some None ∧ lme p !! i = Some None)
  ∧ (i ∉ idxMap p →
     ∃ itm pm err, lockItems f !! i = Some (Some itm)
       ∧ itemFlags itm = ItemHasData ∧ itemFlags itm ≠ ItemHasLock
       ∧ decodeItemValue (itemValue itm) aid ns = (pm, err)
       ∧ ((err = None ∧ decoded p !! i = Some pm ∧ lme p !! i = Some None)
          ∨ (err = Some ErrNoSuchEntity ∧ decoded p !! i = Some None
             ∧ lme p !! i = Some (Some ErrNoSuchEntity)))).
Proof.
  intros Hp Hi. apply makeFetchPlan_planned in Hp as [_ Hidx _ _ _ _ _ Hun Hans].
  assert (i ∈ idxMap p ↔ answeredAt f i = false) as Hiff.
  { rewrite Hidx, list_elem_of_filter, elem_of_seq. split; [by intros [? _]|].
    intros ?. split; [done|lia]. }
  split; [done|]. split.
  - intros Hin. apply Hun; [done|]. right. by apply Hiff.
  - intros Hnin. assert (answeredAt f i = true) as Ha.
    { destruct (answeredAt f i) eqn:E; [done|]. exfalso. by apply Hnin, Hiff. }
    destruct (Hans i Hi Ha) as (itm & pm & err & Hl & Hdec & Hcase).
    exists itm, pm, err. split; [done|].
    unfold answeredAt, answered in Ha. rewrite Hl in Ha.
    apply andb_true_iff in Ha as [Ha _]. apply andb_true_iff in Ha as [Hlk Hd].
    apply bool_decide_eq_true in Hlk, Hd. done.
Qed.

(** X12.  Only our own locks are saved back: a non-nil entry [toSave[j]] is
    the cache item of the key [idxMap[j]], it carries the lock flag and its
    value is the nonce of the facts; and every fetched item that is such a
    lock is in [toSave] at its position. *)
Theorem makeFetchPlan_saves_own_locks f p j :
  makeFetchPlan f = Ret p →
  (∀ itm, toSave p !! j = Some (Some itm) →
     ∃ i, idxMap p !! j = Some i ∧ lockItems f !! i = Some (Some itm)
          ∧ itemFlags itm = ItemHasLock ∧ itemValue itm = nonce f)
  ∧ (∀ i itm, idxMap p !! j = Some i → lockItems f !! i = Some (Some itm) →
       itemFlags itm = ItemHasLock → itemValue itm = nonce f →
       toSave p !! j = Some (Some itm)).
Proof.
  intros Hp. apply makeFetchPlan_planned in Hp as [_ _ _ Hsave _ _ _ _ _].
  rewrite Hsave, list_lookup_fmap. split.
  - intros itm. destruct (idxMap p !! j) as [i|]; [|done]. simpl.
    intros [= Hs]. exists i. split; [done|].
    destruct (lockItems f !! i) as [[itm'|]|]; simpl in Hs; try done.
    destruct (decide (ownLock f itm')) as [[Hl Hn]|]; [|done].
    injection Hs as ->. done.
  - intros i itm -> Hl Hfl Hv. simpl. rewrite Hl. simpl.
    rewrite decide_True; [done|]. by split.
Qed.

(** X13.  [plan.empty]: the plan is empty, so that nothing has to be read
    from the datastore, exactly when the cache answers for every item. *)
Theorem makeFetchPlan_empty f p :
  makeFetchPlan f = Ret p →
  (empty _ p = true ↔ ∀ i, (i < length (lockItems f))%nat → answeredAt f i = true)
  ∧ (empty _ p = true → toGet p = [] ∧ toSave p = [] ∧ toGetMeta p = []).
Proof.
  intros Hp. apply makeFetchPlan_planned in Hp as [_ Hidx Hget Hsave Hmeta _ _ _ _].
  unfold dscache.empty. rewrite bool_decide_eq_true, length_zero_iff_nil.
  split.
  - rewrite Hidx. split.
    + intros Hnil i Hi. destruct (answeredAt f i) eqn:E; [done|].
      assert (i ∈ filter (λ j, answeredAt f j = false) (seq 0 (length (lockItems f)))) as Hin.
      { apply list_elem_of_filter. split; [done|]. apply elem_of_seq. lia. }
      rewrite Hnil in Hin. by apply elem_of_nil in Hin.
    + intros Hall.
      destruct (filter _ (seq 0 (length (lockItems f)))) as [|x l] eqn:E; [done|].
      assert (x ∈ x :: l) as Hin by apply list_elem_of_here.
      rewrite <- E in Hin. apply list_elem_of_filter in Hin as [Hx Hin].
      apply elem_of_seq in Hin. rewrite Hall in Hx; [done|lia].
  - intros Hnil. rewrite Hnil in *. apply Forall2_nil_inv_l in Hget.
    rewrite Hsave, Hmeta. by destruct (keepMeta p).
Qed.

End FetchPlan.

(** A sample cache: flags 1 (data) and 2 (lock), a decoder that knows the
    values [gone] and [bad], and unit meta getters.  The facts are those of
    four keys whose items are our lock, valid data, nil and a foreign
    lock. *)
Section FetchPlanSample.
Import dscache samples.

Definition sampleDecode (v : bytes) (_ _ : string) : option PropertyMap * option error :=
  if decide (v = "gone") then (None, Some ErrNoSuchEntity)
  else if decide (v = "bad") then (None, Some (errorsNew "bad item"))
  else (Some ∅, None).

Definition sampleGetSingle (_ : option (list unit)) (_ : nat) : unit := tt.

Definition samplePlan : facts unit → res (plan unit) :=
  makeFetchPlan 1 2 sampleDecode unit sampleGetSingle "dev~app" "ns".

Definition ourLock : Item := mkItem "k0" "nonce" 2.
Definition validData : Item := mkItem "k1" "data" 1.
Definition theirLock : Item := mkItem "k3" "other" 2.
Definition goneData : Item := mkItem "k4" "gone" 1.

Definition sampleKeys : list Key :=
  (λ i, NewKey "dev~app" "ns" "Foo" "" i None) <$> [1; 2; 3; 4].

Definition sampleFacts : facts unit :=
  mkFacts unit sampleKeys (Some [tt; tt; tt; tt])
    [Some ourLock; Some validData; None; Some theirLock] "nonce".

Definition cachedFacts : facts unit :=
  mkFacts unit sampleKeys None [Some validData; Some goneData] "nonce".

Lemma makeFetchPlan_aligned_witness :
  ∃ p, samplePlan sampleFacts = Ret p
    ∧ idxMap _ p = [0; 2; 3]%nat
    ∧ length (toGet _ p) = length (idxMap _ p)
    ∧ length (toSave _ p) = length (idxMap _ p)
    ∧ length (toGetMeta _ p) = length (idxMap _ p).
Proof.
  eexists. split; [reflexivity|]. split; [reflexivity|].
  edestruct (makeFetchPlan_aligned 1 2 sampleDecode unit sampleGetSingle "dev~app" "ns"
               sampleFacts) as (H1 & H2 & _ & H4 & _); [reflexivity|].
  split; [exact H1|]. split; [exact H2|exact H4].
Defined.

Lemma makeFetchPlan_partition_witness :
  ∃ p, samplePlan sampleFacts = Ret p
    ∧ ((0%nat ∈ idxMap _ p) ∧ decoded _ p !! 0%nat = Some None)
    ∧ ((1%nat ∉ idxMap _ p) ∧ decoded _ p !! 1%nat = Some (Some ∅)).
Proof.
  eexists. split; [reflexivity|].
  edestruct (makeFetchPlan_partition 1 2 sampleDecode unit sampleGetSingle "dev~app" "ns"
               sampleFacts) with (i := 0%nat) as (Hiff & Hin & _);
    [reflexivity|simpl; lia|].
  edestruct (makeFetchPlan_partition 1 2 sampleDecode unit sampleGetSingle "dev~app" "ns"
               sampleFacts) with (i := 1%nat) as (Hiff1 & _ & _);
    [reflexivity|simpl; lia|].
  split.
  - split; [by apply Hiff|]. apply Hin. by apply Hiff.
  - split; [|reflexivity]. intros H1. by apply Hiff1 in H1.
Defined.

Lemma makeFetchPlan_saves_own_locks_witness :
  ∃ p, samplePlan sampleFacts = Ret p
    ∧ toSave _ p !! 0%nat = Some (Some ourLock)
    ∧ ∀ itm, toSave _ p !! 2%nat = Some (Some itm) → itemValue itm = "nonce".
Proof.
  eexists. split; [reflexivity|].
  edestruct (makeFetchPlan_saves_own_locks 1 2 sampleDecode unit sampleGetSingle
               "dev~app" "ns" sampleFacts) with (j := 0%nat) as (_ & Hsave);
    [reflexivity|].
  edestruct (makeFetchPlan_saves_own_locks 1 2 sampleDecode unit sampleGetSingle
               "dev~app" "ns" sampleFacts) with (j := 2%nat) as (Honly & _);
    [reflexivity|].
  split.
  - by apply (Hsave 0%nat ourLock).
  - intros itm Hs. by destruct (Honly itm Hs) as (i & _ & _ & _ & ->).
Defined.

Lemma makeFetchPlan_empty_witness :
  ∃ p, samplePlan cachedFacts = Ret p
    ∧ empty _ p = true ∧ toGet _ p = [] ∧ lme _ p = [None; Some ErrNoSuchEntity].
Proof.
  eexists. split; [reflexivity|].
  edestruct (makeFetchPlan_empty 1 2 sampleDecode unit sampleGetSingle "dev~app" "ns"
               cachedFacts) as (Hiff & Hnil); [reflexivity|].
  pose proof (proj2 Hiff) as He. clear Hiff.
  assert (∀ i, (i < length (lockItems unit cachedFacts))%nat →
            answeredAt 1 2 sampleDecode unit "dev~app" "ns" cachedFacts i = true) as Hall.
  { intros [|[|i]] Hi; [reflexivity|reflexivity|simpl in Hi; lia]. }
  specialize (He Hall).
  split; [exact He|]. split; [exact (proj1 (Hnil He))|reflexivity].
Defined.

End FetchPlanSample.

(** ** The life of a transaction *)
Section Lifecycle.
Import memory.
Context {codec : Serialize} {ext : Externals}.

Definition errExpired : error := errorsNew "datastore: transaction context has expired".

Lemma writeMutation_closed td getOnly key data :
  closed td = false → closed (writeMutation td getOnly key data).1 = false.
Proof.
  intros Hc. unfold writeMutation. destruct (muts td !! _); simpl; [done|].
  by destruct (decide _).
Qed.

(** X14.  A transaction is open when it is made and no put, delete or get,
    of its own or on the head, closes it: [run] lets the function run.
    [endTxn] closes it and keeps the snapshot and the mutations; after that
    [run] refuses with the expired-context error and a second [endTxn]
    panics. *)
Theorem txn_lifecycle (d0 : dataStoreData) (o : option TransactionOptions)
    (ops : list op) (d : dataStoreData) (td : txnDataStoreData) :
  runOps (d0, mkTxn d0 o) ops = Ret (d, td) →
  closed td = false ∧ run td = None
  ∧ ∃ td', endTxn td = Ret td'
      ∧ muts td' = muts td ∧ tsnap td' = tsnap td ∧ isXG td' = isXG td
      ∧ run td' = Some errExpired
      ∧ endTxn td' = Panic "cannot end transaction twice".
Proof.
  intros Hrun.
  assert (closed td = false) as Hc.
  { by apply (runOps_preserves (λ td, closed td = false) writeMutation_closed
                ops d0 (mkTxn d0 o) d td). }
  unfold run, endTxn. rewrite Hc. repeat split. eexists. repeat split.
Qed.

End Lifecycle.

Section LifecycleSample.
Import memory samples.

Lemma txn_lifecycle_witness :
  ∃ td', endTxn (txnDelMulti (mkTxn sampleStore None) [sampleKey] true).1 = Ret td'
    ∧ run td' = Some errExpired.
Proof.
  destruct (txn_lifecycle sampleStore None [OpTxnDel [sampleKey] true] sampleStore _ eq_refl)
    as (_ & _ & td' & He & _ & _ & _ & Hr & _).
  by exists td'.
Defined.

End LifecycleSample.

(** ** Committing without contention *)
Section Uncontended.
Import memory.
Context {codec : Serialize} {ext : Externals}.

(** The keys of the mutation map are encoded keys. *)
Definition rootsEncoded (td : txnDataStoreData) : Prop :=
  ∀ rk, is_Some (muts td !! rk) → ∃ k, rk = keyBytes k.

Lemma writeMutation_rootsEncoded td getOnly key data :
  rootsEncoded td → rootsEncoded (writeMutation td getOnly key data).1.
Proof.
  intros Hr rk. unfold writeMutation.
  destruct (muts td !! keyBytes (keyRoot key)) as [l|] eqn:El; simpl.
  - destruct getOnly; [apply Hr|].
    destruct (decide (rk = keyBytes (keyRoot key))) as [->|Hne]; [eauto|].
    rewrite lookup_insert_ne by done. apply Hr.
  - destruct (decide _); simpl; [apply Hr|].
    destruct (decide (rk = keyBytes (keyRoot key))) as [->|Hne]; [eauto|].
    destruct getOnly; rewrite ?lookup_insert_ne by done; apply Hr.
Qed.

(** The group versions of a store are not corrupt. *)
Definition versionsReadable (s : memStore) : Prop :=
  ∀ k, ∃ v, groupVersion s k = Ret v.

(** X15.  A transaction that met no concurrent write passes the commit
    check: when only its own puts (of complete keys), deletes and gets ran
    since it began, and the group versions of the store it began on are
    readable, [canApplyTxn] returns true. *)
Theorem txn_uncontended_can_apply (d0 : dataStoreData) (o : option TransactionOptions)
    (ops : list op) (d : dataStoreData) (td : txnDataStoreData) :
  Forall ownOp ops → versionsReadable (head d0) →
  runOps (d0, mkTxn d0 o) ops = Ret (d, td) →
  canApplyTxn d td = Ret true.
Proof.
  intros Hown Hread Hrun.
  assert (rootsEncoded td) as Henc.
  { apply (runOps_preserves rootsEncoded writeMutation_rootsEncoded
             ops d0 (mkTxn d0 o) d td); [|done].
    intros rk [? Hl]. simpl in Hl. by rewrite lookup_empty in Hl. }
  assert (tsnap td = head d0) as Hsnap by (by apply runOps_tsnap in Hrun).
  assert (∀ c key, entsGet (head d) c key = entsGet (head d0) c key) as Hrows.
  { clear Henc Hsnap Hread. revert Hrun. generalize (mkTxn d0 o). revert d0.
    induction Hown as [|op1 ops Ho _ IH]; intros d0 td0.
    - simpl. by intros [= <- _].
    - change (runOps (d0, td0) (op1 :: ops))
        with (step (d0, td0) op1 ≫= λ w', runOps w' ops).
      destruct (step (d0, td0) op1) as [[d1 td1]|] eqn:E; [|done].
      intros Hr c key. rewrite (IH _ _ Hr). by apply (step_own_head _ _ _ _ _ Ho E). }
  unfold canApplyTxn. apply canApplyTxnOver_true, list.Forall_forall.
  intros [rk ms] Hin%elem_of_map_to_list _. simpl.
  destruct (Henc rk) as [k ->]; [eauto|].
  destruct (Hread k) as [v Hv]. exists k, v.
  split; [apply decodeRoot_keyBytes|]. rewrite Hsnap. split; [|done].
  by rewrite groupVersion_row, Hrows, <-groupVersion_row.
Qed.

End Uncontended.

Section UncontendedSample.
Import memory samples.

Lemma sampleStore_versionsReadable : versionsReadable (head sampleStore).
Proof. intros k. by exists 0. Qed.

Lemma txn_uncontended_can_apply_witness :
  ∃ d td, runOps (sampleStore, mkTxn sampleStore None) sampleOwnOps = Ret (d, td)
    ∧ canApplyTxn d td = Ret true.
Proof.
  eexists sampleStore, _. split; [reflexivity|].
  by apply (txn_uncontended_can_apply sampleStore None sampleOwnOps sampleStore _
              sampleOwnOps_own sampleStore_versionsReadable).
Defined.

End UncontendedSample.

(** ** The settings of the store and the snapshots of a query *)
Section Settings.
Import memory.
Context {codec : Serialize} {ext : Externals}.

(** [dataStoreData.getQuerySnaps]: the index snapshot and the head snapshot
    a query runs on. *)
Definition getQuerySnaps (d : dataStoreData) (consistent : bool) : memStore * memStore :=
  match snap d with
  | None => let s := Snapshot (head d) in (s, s)
  | Some sn =>
      let h := Snapshot (head d) in
      (if consistent then h else sn, h)
  end.

(** [d'] is [d] but for its head. *)
Definition headOnly (d d' : dataStoreData) : Prop := d' = withHead d (head d').

Lemma headOnly_refl d : headOnly d d.
Proof. by destruct d. Qed.

Lemma headOnly_withHead d h : headOnly d (withHead d h).
Proof. done. Qed.

Lemma headOnly_trans d1 d2 d3 : headOnly d1 d2 → headOnly d2 d3 → headOnly d1 d3.
Proof. unfold headOnly. intros -> ->. done. Qed.

Lemma mutableEntsLocked_headOnly d ns : headOnly d (mutableEntsLocked d ns).1.
Proof.
  unfold mutableEntsLocked. destruct (GetCollection _ _); simpl;
    [apply headOnly_refl|apply headOnly_withHead].
Qed.

Lemma allocateIDsLocked_headOnly d ents k n d' r :
  allocateIDsLocked d ents k n = Ret (d', r) → headOnly d d'.
Proof.
  unfold allocateIDsLocked. destruct (disableSpecialEntities d).
  - intros [= <- _]. apply headOnly_refl.
  - destruct (incrementLocked _ _ _ _) as [[id h]|]; simpl; [|done].
    intros [= <- _]. apply headOnly_withHead.
Qed.

Lemma allocateIDs_headOnly d k n d' r :
  allocateIDs d k n = Ret (d', r) → headOnly d d'.
Proof.
  unfold allocateIDs. pose proof (mutableEntsLocked_headOnly d (namespace k)) as Hm.
  destruct (mutableEntsLocked d (namespace k)) as [d1 ents]. simpl in Hm.
  intros H%allocateIDsLocked_headOnly. by eapply headOnly_trans.
Qed.

Lemma fixKeyLocked_headOnly d ents k d' r :
  fixKeyLocked d ents k = Ret (d', r) → headOnly d d'.
Proof.
  unfold fixKeyLocked. destruct (keyIncomplete k).
  - destruct (allocateIDsLocked d ents k 1) as [[d1 [id err]]|] eqn:E; simpl; [|done].
    apply allocateIDsLocked_headOnly in E. by destruct err; intros [= <- _].
  - intros [= <- _]. apply headOnly_refl.
Qed.

Lemma bump_headOnly d ents mk d' :
  (if disableSpecialEntities d then Ret d
   else '(_, h) ← incrementLocked (head d) ents mk 1; Ret (withHead d h)) = Ret d' →
  headOnly d d'.
Proof.
  destruct (disableSpecialEntities d).
  - intros [= <-]. apply headOnly_refl.
  - destruct (incrementLocked _ _ _ _) as [[id h]|]; simpl; [|done].
    intros [= <-]. apply headOnly_withHead.
Qed.

Lemma putLocked_headOnly d ns k pmap data d' r :
  putLocked d ns k pmap data = Ret (d', r) → headOnly d d'.
Proof.
  unfold putLocked. pose proof (mutableEntsLocked_headOnly d ns) as Hm.
  destruct (mutableEntsLocked d ns) as [d0 ents]. simpl in Hm.
  destruct (fixKeyLocked d0 ents k) as [[d1 [ret err]]|] eqn:E1; simpl; [|done].
  apply fixKeyLocked_headOnly in E1.
  assert (headOnly d d1) as H1 by (by eapply headOnly_trans).
  destruct err as [e|]; [by intros [= <- _]|].
  match goal with |- context [mbind _ ?b] => destruct b as [d2|] eqn:E2 end; simpl; [|done].
  apply bump_headOnly in E2.
  assert (headOnly d d2) as H2 by (by eapply headOnly_trans).
  destruct (entsGet (head d2) ents (keyBytes ret)) as [old|].
  - destruct (rpm old); intros [= <- _]; [|done].
    eapply headOnly_trans; [done|apply headOnly_withHead].
  - intros [= <- _]. eapply headOnly_trans; [done|apply headOnly_withHead].
Qed.

Lemma putMultiLoop_headOnly d ns cb i keys vals d' calls r :
  putMultiLoop d ns cb i keys vals = Ret (d', calls, r) → headOnly d d'.
Proof.
  revert d i d' calls r. induction keys as [|k keys IH]; intros d i d' calls r; simpl.
  - intros [= <- _ _]. apply headOnly_refl.
  - destruct (vals !! i) as [v|]; [|done].
    destruct (putLocked d ns k _ _) as [[d1 [k1 err]]|] eqn:E1; simpl; [|done].
    apply putLocked_headOnly in E1.
    destruct cb as [f|].
    + destruct (f k1 err); [by intros [= <- _ _]|].
      destruct (putMultiLoop d1 ns (Some f) (S i) keys vals) as [[[d2 c2] r2]|] eqn:E2;
        simpl; [|done].
      intros [= <- _ _]. apply IH in E2. by eapply headOnly_trans.
    + intros H%IH. by eapply headOnly_trans.
Qed.

Lemma putMulti_headOnly d keys vals cb d' calls r :
  putMulti d keys vals cb = Ret (d', calls, r) → headOnly d d'.
Proof. unfold putMulti. destruct keys; [done|]. apply putMultiLoop_headOnly. Qed.

Lemma delLocked_headOnly d ns k d' r :
  delLocked d ns k = Ret (d', r) → headOnly d d'.
Proof.
  unfold delLocked. pose proof (mutableEntsLocked_headOnly d ns) as Hm.
  destruct (mutableEntsLocked d ns) as [d0 ents]. simpl in Hm.
  match goal with |- context [mbind _ ?b] => destruct b as [d2|] eqn:E2 end; simpl; [|done].
  apply bump_headOnly in E2.
  assert (headOnly d d2) as H2 by (by eapply headOnly_trans).
  destruct (entsGet (head d2) ents (keyBytes k)) as [old|].
  - destruct (rpm old); intros [= <- _]; [|done].
    eapply headOnly_trans; [done|apply headOnly_withHead].
  - by intros [= <- _].
Qed.

Lemma delMultiLoop_headOnly d ns cb keys d' calls r :
  delMultiLoop d ns cb keys = Ret (d', calls, r) → headOnly d d'.
Proof.
  revert d d' calls r. induction keys as [|k keys IH]; intros d d' calls r; simpl.
  - intros [= <- _ _]. apply headOnly_refl.
  - destruct (delLocked d ns k) as [[d1 err]|] eqn:E1; simpl; [|done].
    apply delLocked_headOnly in E1.
    destruct cb as [f|].
    + destruct (f err); [by intros [= <- _ _]|].
      destruct (delMultiLoop d1 ns (Some f) keys) as [[[d2 c2] r2]|] eqn:E2;
        simpl; [|done].
      intros [= <- _ _]. apply IH in E2. by eapply headOnly_trans.
    + intros H%IH. by eapply headOnly_trans.
Qed.

Lemma delMulti_headOnly d keys cb d' calls r :
  delMulti d keys cb = Ret (d', calls, r) → headOnly d d'.
Proof.
  unfold delMulti. destruct keys as [|k0 keys]; [done|].
  pose proof (mutableEntsLocked_headOnly d (namespace k0)) as Hm.
  destruct (mutableEntsLocked d (namespace k0)) as [d0 ents]. simpl in Hm.
  intros H%delMultiLoop_headOnly. by eapply headOnly_trans.
Qed.

Lemma applyMuts_cons d m ms :
  applyMuts d (m :: ms) =
    '(d1, _, err) ←
      match txData m with
      | None => delMulti d [txKey m] (Some (λ e, e))
      | Some data =>
          '(d1, _, err) ← putMulti d [txKey m] [data] (Some (λ _ e, e));
          Ret (d1, [], err)
      end;
    _ ← impossible err;
    applyMuts d1 ms.
Proof. done. Qed.

Lemma applyMuts_headOnly d ms d' : applyMuts d ms = Ret d' → headOnly d d'.
Proof.
  revert d. induction ms as [|m ms IH]; intros d.
  - intros [= <-]. apply headOnly_refl.
  - rewrite applyMuts_cons. destruct (txData m) as [data|].
    + destruct (putMulti d [txKey m] [data] (Some (λ _ e, e))) as [[[d1 c] err]|] eqn:E;
        simpl; [|done].
      apply putMulti_headOnly in E.
      destruct (impossible err); simpl; [|done].
      intros H%IH. by eapply headOnly_trans.
    + destruct (delMulti d [txKey m] (Some (λ e, e))) as [[[d1 c] err]|] eqn:E;
        simpl; [|done].
      apply delMulti_headOnly in E.
      destruct (impossible err); simpl; [|done].
      intros H%IH. by eapply headOnly_trans.
Qed.

Lemma applyTxnOver_headOnly d entries d' :
  applyTxnOver d entries = Ret d' → headOnly d d'.
Proof.
  revert d. induction entries as [|[rk ms] rest IH]; intros d; simpl.
  - intros [= <-]. apply headOnly_refl.
  - destruct (applyMuts d ms) as [d1|] eqn:E; simpl; [|done].
    apply applyMuts_headOnly in E. intros H%IH. by eapply headOnly_trans.
Qed.

Lemma txnPutMultiLoop_headOnly d td ns hasCb i keys vals d' td' calls :
  txnPutMultiLoop d td ns hasCb i keys vals = Ret (d', td', calls) → headOnly d d'.
Proof.
  revert d td i d' td' calls.
  induction keys as [|k keys IH]; intros d td i d' td' calls; simpl.
  - intros [= <- _ _]. apply headOnly_refl.
  - pose proof (mutableEntsLocked_headOnly d ns) as Hm.
    destruct (mutableEntsLocked d ns) as [d0 ents]. simpl in Hm.
    destruct (fixKeyLocked d0 ents k) as [[d1 [k1 err]]|] eqn:E1; simpl; [|done].
    apply fixKeyLocked_headOnly in E1.
    assert (headOnly d d1) as H1 by (by eapply headOnly_trans).
    match goal with |- context [mbind _ ?b] => destruct b as [[td1 err1]|] end;
      simpl; [|done].
    destruct (txnPutMultiLoop d1 td1 ns hasCb (S i) keys vals) as [[[d2 td2] c2]|] eqn:E2;
      simpl; [|done].
    intros [= <- _ _]. apply IH in E2. by eapply headOnly_trans.
Qed.

Lemma step_headOnly d td o d' td' : step (d, td) o = Ret (d', td') → headOnly d d'.
Proof.
  destruct o; simpl.
  - destruct (putMulti d keys vals cb) as [[[? ?] ?]|] eqn:E; simpl; [|done].
    intros [= <- _]. by apply putMulti_headOnly in E.
  - destruct (delMulti d keys cb) as [[[? ?] ?]|] eqn:E; simpl; [|done].
    intros [= <- _]. by apply delMulti_headOnly in E.
  - destruct (allocateIDs d incomplete n) as [[? ?]|] eqn:E; simpl; [|done].
    intros [= <- _]. by apply allocateIDs_headOnly in E.
  - destruct (applyTxn d other) as [?|] eqn:E; simpl; [|done].
    intros [= <- _]. by apply applyTxnOver_headOnly in E.
  - unfold txnPutMulti. destruct keys as [|k0 keys]; [done|].
    destruct (txnPutMultiLoop d td (namespace k0) hasCb 0 (k0 :: keys) vals)
      as [[[d2 td2] c2]|] eqn:E; simpl; [|done].
    intros [= <- _]. by apply txnPutMultiLoop_headOnly in E.
  - intros [= <- _]. apply headOnly_refl.
  - destruct (txnGetMulti td keys) as [[td2 r]|]; simpl; [|done].
    intros [= <- _]. apply headOnly_refl.
Qed.

Lemma runOps_headOnly ops d td d' td' :
  runOps (d, td) ops = Ret (d', td') → headOnly d d'.
Proof.
  revert d td. induction ops as [|o ops IH]; intros d td.
  - simpl. intros [= <- _]. apply headOnly_refl.
  - change (runOps (d, td) (o :: ops)) with (step (d, td) o ≫= λ w', runOps w' ops).
    destruct (step (d, td) o) as [[d1 td1]|] eqn:E; [|done].
    intros Hr. apply IH in Hr. apply step_headOnly in E. by eapply headOnly_trans.
Qed.

(** X16.  Puts, deletes, ID allocations and commits change the head only:
    the application ID, the retry count, the auto-index flag, the
    special-entities flag and the index snapshot [snap] stay as they were.
    So in the eventually consistent mode a query that is not strongly
    consistent keeps the index snapshot it had before the writes, until
    [catchupIndexes]; its head snapshot is always the current head; and when
    [snap] is nil (always consistent) both snapshots are the current head. *)
Theorem writes_keep_settings (d : dataStoreData) (td : txnDataStoreData)
    (ops : list op) (d' : dataStoreData) (td' : txnDataStoreData) :
  runOps (d, td) ops = Ret (d', td') →
  (aid d' = aid d ∧ snap d' = snap d ∧ txnFakeRetry d' = txnFakeRetry d
   ∧ autoIndex d' = autoIndex d ∧ disableSpecialEntities d' = disableSpecialEntities d)
  ∧ (∀ c, (getQuerySnaps d' c).2 = head d' ∧ (getQuerySnaps d' true).1 = head d')
  ∧ (∀ s, snap d = Some s → (getQuerySnaps d' false).1 = s)
  ∧ (∀ c, snap d = None → getQuerySnaps d' c = (head d', head d'))
  ∧ getQuerySnaps (catchupIndexes d') false = (head d', head d').
Proof.
  intros Hrun%runOps_headOnly. unfold headOnly in Hrun.
  assert (snap d' = snap d) as Hs by (by rewrite Hrun).
  split; [by rewrite Hrun|].
  unfold getQuerySnaps, catchupIndexes, setSnapshot, Snapshot.
  split; [|split; [|split]].
  - intros c. by destruct (snap d').
  - intros s Hd. by rewrite Hs, Hd.
  - intros c Hd. by rewrite Hs, Hd.
  - destruct (snap d') eqn:E; simpl; [done|]. by rewrite E.
Qed.

(** X17.  The two consistency modes.  After [setConsistent(true)] the store
    is always consistent whatever is written afterwards: every query gets
    the current head for both snapshots, and [setSnapshot] and
    [catchupIndexes] do nothing.  After [setConsistent(false)] a query that
    is not strongly consistent gets the head of that moment as its index
    snapshot, whatever is written afterwards, until [setSnapshot] hands it
    another one or [catchupIndexes] the current head. *)
Theorem consistency_modes (d : dataStoreData) (td : txnDataStoreData)
    (always : bool) (ops : list op) (d' : dataStoreData) (td' : txnDataStoreData) :
  runOps (setConsistent d always, td) ops = Ret (d', td') →
  (always = true →
     ∀ c s, getQuerySnaps d' c = (head d', head d')
            ∧ setSnapshot d' s = d' ∧ catchupIndexes d' = d')
  ∧ (always = false →
     getQuerySnaps d' false = (head d, head d')
     ∧ getQuerySnaps d' true = (head d', head d')
     ∧ (∀ s, getQuerySnaps (setSnapshot d' s) false = (s, head d'))
     ∧ getQuerySnaps (catchupIndexes d') false = (head d', head d')).
Proof.
  intros Hrun%runOps_headOnly. unfold headOnly in Hrun.
  assert (snap d' = if always then None else Some (head d)) as Hs by (by rewrite Hrun).
  unfold getQuerySnaps, catchupIndexes, setSnapshot, Snapshot.
  split; intros ->; rewrite Hs; simpl; [done|]. repeat split.
Qed.

End Settings.

Section SettingsSample.
Import memory samples.

Lemma writes_keep_settings_witness :
  ∃ d' td',
    runOps (sampleStore, mkTxn sampleStore None) [OpDel [sampleKey] None] = Ret (d', td')
    ∧ (getQuerySnaps d' false).1 = ∅
    ∧ (getQuerySnaps d' true).1 = head d'.
Proof.
  eexists _, _. split; [reflexivity|].
  edestruct (writes_keep_settings sampleStore (mkTxn sampleStore None)
               [OpDel [sampleKey] None]) as (_ & Hh & Hs & _); [reflexivity|].
  split; [by apply Hs|]. apply (Hh true).
Defined.

Lemma consistency_modes_witness :
  ∃ d' td',
    runOps (setConsistent sampleStore false, mkTxn sampleStore None)
      [OpDel [sampleKey] None] = Ret (d', td')
    ∧ getQuerySnaps d' false = (head sampleStore, head d').
Proof.
  eexists _, _. split; [reflexivity|].
  edestruct (consistency_modes sampleStore (mkTxn sampleStore None) false
               [OpDel [sampleKey] None]) as (_ & Hev); [reflexivity|].
  by apply Hev.
Defined.

End SettingsSample.

(** ** The mutation log of a transaction *)
Section MutationLog.
Import memory.
Context {codec : Serialize} {ext : Externals}.

(** The transaction takes no further entity group. *)
Definition full (td : txnDataStoreData) : Prop := (egLimit td < size (muts td) + 1)%nat.

Lemma writeMutation_ok_lookup td key data rk :
  (writeMutation td false key data).2 = None →
  muts (writeMutation td false key data).1 !! rk =
    if decide (rk = rootOf key)
    then Some (default [] (muts td !! rk) ++ [mkTxnMutation key data])%list
    else muts td !! rk.
Proof.
  unfold writeMutation, rootOf.
  destruct (muts td !! keyBytes (keyRoot key)) as [l|] eqn:E; simpl.
  - intros _. destruct (decide (rk = _)) as [->|Hne].
    + by rewrite lookup_insert_eq, E.
    + by rewrite lookup_insert_ne.
  - destruct (decide (_ < _)%nat); simpl; [done|]. intros _.
    destruct (decide (rk = _)) as [->|Hne].
    + by rewrite !lookup_insert_eq, E.
    + by rewrite !lookup_insert_ne.
Qed.

Lemma writeMutation_dom_mono td getOnly key data rk :
  rk ∈ dom (muts td) → rk ∈ dom (muts (writeMutation td getOnly key data).1).
Proof.
  intros Hin. destruct (writeMutation td getOnly key data).2 as [e|] eqn:E.
  - rewrite writeMutation_err_same by (rewrite E; eauto). done.
  - destruct (writeMutation_ok_dom _ _ _ _ E) as (-> & _). set_solver.
Qed.

Lemma writeMutation_full td getOnly key data rk :
  full td ∧ rk ∉ dom (muts td) →
  full (writeMutation td getOnly key data).1
  ∧ rk ∉ dom (muts (writeMutation td getOnly key data).1).
Proof.
  intros [Hfull Hnin]. destruct (writeMutation td getOnly key data).2 as [e|] eqn:E.
  - rewrite writeMutation_err_same by (rewrite E; eauto). done.
  - assert (¬ is_Some (writeMutation td getOnly key data).2) as Hn
      by (rewrite E; by intros [? ?]).
    rewrite writeMutation_err in Hn.
    destruct (muts td !! rootOf key) as [l|] eqn:El; [|exfalso; by apply Hn].
    destruct (writeMutation_ok_dom _ _ _ _ E) as (Hdom & Hxg & _).
    apply elem_of_dom_2 in El.
    assert (dom (muts (writeMutation td getOnly key data).1) = dom (muts td)) as Hd
      by (rewrite Hdom; set_solver).
    split; [|by rewrite Hd].
    unfold full, egLimit in *. rewrite Hxg, <-size_dom, Hd, size_dom. done.
Qed.

(** X18.  [txnDataStoreData.delMulti] calls the callback once for every
    key, whatever the errors (it never stops early), and not at all when the
    callback is nil; a key's call gets a nil error exactly when the key's
    entity group is in the group set of the transaction afterwards; and the
    log of every group is what it was, followed by the deletions of the
    keys of that group, in the order of the keys. *)
Theorem txnDelMulti_log (td : txnDataStoreData) (keys : list Key) (hasCb : bool) :
  let td' := (txnDelMulti td keys hasCb).1 in
  let calls := (txnDelMulti td keys hasCb).2 in
  length calls = (if hasCb then length keys else 0%nat)
  ∧ (∀ i k, hasCb = true → keys !! i = Some k →
       ∃ e, calls !! i = Some e ∧ (e = None ↔ rootOf k ∈ dom (muts td')))
  ∧ (∀ rk, rk ∈ dom (muts td') →
       muts td' !! rk =
         Some (default [] (muts td !! rk)
               ++ ((λ k, mkTxnMutation k None) <$> filter (λ k, rk = rootOf k) keys))%list).
Proof.
  revert td. induction keys as [|k keys IH]; intros td; simpl.
  - split; [by destruct hasCb|]. split; [done|].
    intros rk [l Hl]%elem_of_dom. by rewrite Hl, app_nil_r.
  - pose proof (writeMutation_ok_lookup td k None) as Hlook.
    pose proof (writeMutation_err_same td false k None) as Hsame.
    pose proof (writeMutation_err td false k None) as Herr.
    pose proof (writeMutation_ok_dom td false k None) as Hdom.
    destruct (writeMutation td false k None) as [td1 err] eqn:Ew. simpl in *.
    destruct (IH td1) as (Hlen & Hcalls & Hlog).
    pose proof (txnDelMulti_preserves (λ t, rootOf k ∈ dom (muts t))
                  (λ t g key data, writeMutation_dom_mono t g key data (rootOf k))
                  td1 keys hasCb) as Hmono.
    pose proof (txnDelMulti_preserves (λ t, full t ∧ rootOf k ∉ dom (muts t))
                  (λ t g key data, writeMutation_full t g key data (rootOf k))
                  td1 keys hasCb) as Hfull.
    destruct (txnDelMulti td1 keys hasCb) as [td2 calls] eqn:Ed. simpl in *.
    assert (err = None ↔ rootOf k ∈ dom (muts td2)) as Hk.
    { destruct err as [e|].
      - split; [done|]. intros Hin. exfalso.
        destruct Herr as [[Hnone Hlim] _]; [eauto|].
        rewrite Hsame in Hfull by eauto.
        destruct Hfull as [_ Hnin]; [|done].
        split; [done|]. by apply not_elem_of_dom.
      - split; [|done]. intros _. apply Hmono.
        destruct (Hdom eq_refl) as (-> & _). set_solver. }
    split; [destruct hasCb; simpl; lia|]. split.
    + intros i k' -> Hi. destruct i as [|i]; simpl in *.
      * injection Hi as <-. eauto.
      * by apply Hcalls.
    + intros rk Hin. rewrite (Hlog rk Hin).
      destruct (decide (rk = rootOf k)) as [->|Hne].
      * rewrite filter_cons_True by done. simpl.
        apply Hk in Hin. subst err. rewrite (Hlook (rootOf k) eq_refl).
        rewrite decide_True by done. simpl. by rewrite <-app_assoc.
      * rewrite filter_cons_False by done.
        destruct err as [e|].
        -- rewrite Hsame by eauto. done.
        -- rewrite (Hlook rk eq_refl). by rewrite decide_False.
Qed.

End MutationLog.

(** ** Committing a transaction *)
Section Commit.
Import memory.
Context {codec : Serialize} {ext : Externals}.

(** Nothing in the entity collections of the store is corrupt: every row
    decodes and, when the special entities are in use, every group version
    is readable. *)
Definition sane (d : dataStoreData) : Prop :=
  (∀ ns key old, entsGet (head d) ("ents:" +:+ ns) key = Some old → is_Some (rpm old))
  ∧ (disableSpecialEntities d = false → versionsReadable (head d)).

(** The key is not the metadata key of an entity group. *)
Definition ordinary (k : Key) : Prop := keyKind k ≠ "__entity_group__".

(** The row a mutation leaves for its key. *)
Definition writtenRow (m : txnMutation) : option bytes :=
  (λ data, toBytesPropertyMap (pmSave data)) <$> txData m.

(** The row of [k] after the mutations [ms], applied in order. *)
Definition rowAfter (k : Key) (ms : list txnMutation) (row : option bytes) : option bytes :=
  fold_left (λ r m, if decide (txKey m = k) then writtenRow m else r) ms row.

(** The mutations of a log are filed under the group of their key, none is
    on a group-metadata key, and the puts are of complete keys. *)
Definition wellFormedLog (txn : txnDataStoreData) : Prop :=
  ∀ rk ms m, muts txn !! rk = Some ms → m ∈ ms →
    rk = rootOf (txKey m) ∧ ordinary (txKey m)
    ∧ (is_Some (txData m) → keyIncomplete (txKey m) = false).

Lemma keyBytes_inj k1 k2 : keyBytes k1 = keyBytes k2 → k1 = k2.
Proof.
  intros Heq. apply (f_equal decodeRoot) in Heq.
  rewrite !decodeRoot_keyBytes in Heq. by injection Heq.
Qed.

Lemma ordinary_not_meta k k0 : ordinary k → keyBytes k ≠ groupMetaKey k0.
Proof.
  intros Hk Heq. apply keyBytes_inj in Heq. apply Hk. subst k.
  reflexivity.
Qed.

Lemma head_withHead d h : head (withHead d h) = h.
Proof. done. Qed.

Lemma ents_inj ns ns' : "ents:" +:+ ns = "ents:" +:+ ns' → ns = ns'.
Proof. intros H. simpl in H. by simplify_eq. Qed.

Lemma row_entsSet (s : memStore) ns key val ns' key' :
  entsGet (entsSet s ("ents:" +:+ ns) key val) ("ents:" +:+ ns') key' =
    if decide (ns = ns' ∧ key = key') then Some val else entsGet s ("ents:" +:+ ns') key'.
Proof.
  destruct (decide (ns = ns')) as [->|Hns].
  - rewrite entsGet_entsSet. destruct (decide (key = key')).
    + by rewrite decide_True.
    + rewrite decide_False; [done|]. by intros [_ ?].
  - rewrite decide_False by (by intros [? _]).
    unfold entsGet, entsSet, GetCollection. rewrite lookup_insert_ne; [done|].
    intros ?%ents_inj. done.
Qed.

Lemma row_entsDelete (s : memStore) ns key ns' key' :
  entsGet (entsDelete s ("ents:" +:+ ns) key) ("ents:" +:+ ns') key' =
    if decide (ns = ns' ∧ key = key') then None else entsGet s ("ents:" +:+ ns') key'.
Proof.
  destruct (decide (ns = ns')) as [->|Hns].
  - rewrite entsGet_entsDelete. destruct (decide (key = key')).
    + by rewrite decide_True.
    + rewrite decide_False; [done|]. by intros [_ ?].
  - rewrite decide_False by (by intros [? _]).
    unfold entsGet, entsDelete, GetCollection. rewrite lookup_insert_ne; [done|].
    intros ?%ents_inj. done.
Qed.

Lemma rpm_versionRow w : is_Some (rpm (versionRow w)).
Proof. unfold rpm, versionRow. rewrite readPropertyMap_toBytes. eauto. Qed.

Lemma versionOfRow_versionRow w : versionOfRow (Some (versionRow w)) = Ret w.
Proof.
  unfold versionOfRow, rpm, versionRow.
  by rewrite readPropertyMap_toBytes, lookup_singleton_eq.
Qed.

(** The rows after the step [putMulti] and [delMulti] have in common: the
    version row of the group is rewritten, unless the special entities are
    disabled. *)
Definition bumpedRows (d d1 : dataStoreData) (k : Key) (w : Z) : Prop :=
  ∀ ns key, entsGet (head d1) ("ents:" +:+ ns) key =
    if decide (disableSpecialEntities d = false ∧ ns = namespace k ∧ key = groupMetaKey k)
    then Some (versionRow w) else entsGet (head d) ("ents:" +:+ ns) key.

Lemma bumped_rows d k :
  sane d →
  ∃ d1 w, bumped d k = Ret d1
    ∧ disableSpecialEntities d1 = disableSpecialEntities d
    ∧ bumpedRows d d1 k w.
Proof.
  intros [_ Hver]. unfold bumped, bumpedRows.
  destruct (disableSpecialEntities d) eqn:Hf.
  - exists d, 0. split; [done|]. split; [done|]. intros ns key.
    rewrite decide_False; [done|]. by intros [? _].
  - destruct (Hver eq_refl k) as [v Hv].
    unfold incrementLocked. destruct (decide (1 <= 0)); [lia|].
    unfold groupVersion in Hv. rewrite Hv. simpl.
    eexists _, _. split; [done|]. split; [done|]. intros ns key.
    rewrite head_withHead, row_entsSet.
    destruct (decide (namespace k = ns ∧ groupMetaKey k = key)) as [[-> ->]|Hn].
    + by rewrite decide_True.
    + rewrite decide_False; [done|]. intros (_ & -> & ->). by apply Hn.
Qed.

(** The rows after a write to the row of [k]: the row of [k] is [new], the
    version row of its group is rewritten, every other row is as before. *)
Definition writtenRows (d d' : dataStoreData) (k : Key) (new : option bytes) (w : Z) : Prop :=
  ∀ ns key, entsGet (head d') ("ents:" +:+ ns) key =
    if decide (ns = namespace k ∧ key = keyBytes k) then new
    else if decide (disableSpecialEntities d = false ∧ ns = namespace k
                    ∧ key = groupMetaKey k)
         then Some (versionRow w) else entsGet (head d) ("ents:" +:+ ns) key.

Lemma writtenRows_sane d d' k new w :
  sane d → ordinary k → disableSpecialEntities d' = disableSpecialEntities d →
  (∀ b, new = Some b → is_Some (rpm b)) →
  writtenRows d d' k new w → sane d'.
Proof.
  intros [Hdec Hver] Hk Hfl Hnew Hrows. split.
  - intros ns key old. rewrite Hrows.
    destruct (decide _); [apply Hnew|].
    destruct (decide _); [intros [= <-]; apply rpm_versionRow|apply Hdec].
  - rewrite Hfl. intros Hf k0. rewrite groupVersion_row, Hrows.
    rewrite decide_False.
    2:{ intros [_ Heq]. symmetry in Heq. by apply ordinary_not_meta in Heq. }
    destruct (decide _).
    + exists w. apply versionOfRow_versionRow.
    + rewrite <-groupVersion_row. by apply Hver.
Qed.

Lemma mutableEntsLocked_sane d ns : sane d → sane (mutableEntsLocked d ns).1.
Proof.
  intros [Hdec Hver]. split.
  - intros ns' key old. rewrite mutableEntsLocked_entsGet. apply Hdec.
  - rewrite mutableEntsLocked_flag. intros Hf k0.
    rewrite groupVersion_row, mutableEntsLocked_entsGet, <-groupVersion_row.
    by apply Hver.
Qed.

Lemma bumped_sane_rows d d1 k w :
  sane d → bumpedRows d d1 k w →
  ∀ ns key old, entsGet (head d1) ("ents:" +:+ ns) key = Some old → is_Some (rpm old).
Proof.
  intros [Hdec _] Hrows ns key old. rewrite Hrows.
  destruct (decide _); [intros [= <-]; apply rpm_versionRow|apply Hdec].
Qed.

Lemma putLocked_rows d k pmap :
  indexesKeepEntities → keyIncomplete k = false → sane d →
  ∃ d' w, putLocked d (namespace k) k pmap (toBytesPropertyMap pmap) = Ret (d', (k, None))
    ∧ disableSpecialEntities d' = disableSpecialEntities d
    ∧ writtenRows d d' k (Some (toBytesPropertyMap pmap)) w.
Proof.
  intros Hidx Hk Hsane. unfold putLocked.
  pose proof (mutableEntsLocked_sane d (namespace k) Hsane) as Hsane0.
  pose proof (mutableEntsLocked_entsGet d (namespace k)) as Hrows0.
  destruct (mutableEntsLocked_spec d (namespace k)) as (Hc & _ & _ & Hfl).
  destruct (mutableEntsLocked d (namespace k)) as [d0 ents].
  simpl in Hsane0, Hrows0, Hfl, Hc. subst ents.
  rewrite fixKeyLocked_complete by done. simpl.
  destruct (bumped_rows d0 k Hsane0) as (d2 & w & Hb & Hfl2 & Hrows2).
  unfold bumped in Hb. rewrite Hb. simpl.
  pose proof (bumped_sane_rows d0 d2 k w Hsane0 Hrows2) as Hdec2.
  assert (∀ oldPM, ∃ d' w',
            Ret (withHead d2 (updateIndexes
                   (entsSet (head d2) ("ents:" +:+ namespace k) (keyBytes k)
                      (toBytesPropertyMap pmap)) k oldPM (Some pmap)), (k, @None error))
              = Ret (d', (k, None))
            ∧ disableSpecialEntities d' = disableSpecialEntities d
            ∧ writtenRows d d' k (Some (toBytesPropertyMap pmap)) w') as Hwrite.
  { intros oldPM. eexists _, w. split; [done|]. split; [simpl; congruence|].
    intros ns key. rewrite head_withHead, Hidx, row_entsSet.
    destruct (decide (namespace k = ns ∧ keyBytes k = key)) as [[<- <-]|Hn].
    - by rewrite decide_True.
    - rewrite decide_False by (intros [-> ->]; by apply Hn).
      rewrite Hrows2, Hfl, Hrows0. done. }
  destruct (entsGet (head d2) ("ents:" +:+ namespace k) (keyBytes k)) as [old|] eqn:Eold.
  - destruct (Hdec2 _ _ _ Eold) as [oldPM ->]. apply Hwrite.
  - apply Hwrite.
Qed.

Lemma delLocked_rows d k :
  indexesKeepEntities → sane d →
  ∃ d' w, delLocked d (namespace k) k = Ret (d', None)
    ∧ disableSpecialEntities d' = disableSpecialEntities d
    ∧ writtenRows d d' k None w.
Proof.
  intros Hidx Hsane. unfold delLocked.
  pose proof (mutableEntsLocked_sane d (namespace k) Hsane) as Hsane0.
  pose proof (mutableEntsLocked_entsGet d (namespace k)) as Hrows0.
  destruct (mutableEntsLocked_spec d (namespace k)) as (Hc & _ & _ & Hfl).
  destruct (mutableEntsLocked d (namespace k)) as [d0 ents].
  simpl in Hsane0, Hrows0, Hfl, Hc. subst ents.
  destruct (bumped_rows d0 k Hsane0) as (d2 & w & Hb & Hfl2 & Hrows2).
  unfold bumped in Hb. rewrite Hb. simpl.
  pose proof (bumped_sane_rows d0 d2 k w Hsane0 Hrows2) as Hdec2.
  destruct (entsGet (head d2) ("ents:" +:+ namespace k) (keyBytes k)) as [old|] eqn:Eold.
  - destruct (Hdec2 _ _ _ Eold) as [oldPM ->].
    eexists _, w. split; [done|]. split; [simpl; congruence|].
    intros ns key. rewrite head_withHead, Hidx, row_entsDelete.
    destruct (decide (namespace k = ns ∧ keyBytes k = key)) as [[<- <-]|Hn].
    + by rewrite decide_True.
    + rewrite decide_False by (intros [-> ->]; by apply Hn).
      rewrite Hrows2, Hfl, Hrows0. done.
  - exists d2, w. split; [done|]. split; [congruence|].
    intros ns key.
    destruct (decide (ns = namespace k ∧ key = keyBytes k)) as [[-> ->]|Hn]; [done|].
    rewrite Hrows2, Hfl, Hrows0. done.
Qed.

Lemma putMulti_single d k data f :
  putMulti d [k] [data] (Some f) =
    '(d1, (k1, err)) ← putLocked d (namespace k) k (pmSave data)
                          (toBytesPropertyMap (pmSave data));
    Ret (d1, [(k1, err)],
         match f k1 err with
         | Some e => if decide (e = Stop) then None else Some e
         | None => None
         end).
Proof.
  unfold putMulti, putMultiLoop. simpl.
  destruct (putLocked d (namespace k) k _ _) as [[d1 [k1 err]]|]; simpl; [|done].
  by destruct (f k1 err).
Qed.

Lemma delMulti_single d k f :
  delMulti d [k] (Some f) =
    '(d1, err) ← delLocked (mutableEntsLocked d (namespace k)).1 (namespace k) k;
    Ret (d1, [err],
         match f err with
         | Some e => if decide (e = Stop) then None else Some e
         | None => None
         end).
Proof.
  unfold delMulti, delMultiLoop.
  destruct (mutableEntsLocked d (namespace k)) as [d0 ents]. simpl.
  destruct (delLocked d0 (namespace k) k) as [[d1 err]|]; simpl; [|done].
  by destruct (f err).
Qed.

(** A mutation of a log can be applied. *)
Definition applicable (m : txnMutation) : Prop :=
  ordinary (txKey m) ∧ (is_Some (txData m) → keyIncomplete (txKey m) = false).

Lemma writtenRows_entityRow d d' km new w k :
  ordinary k → writtenRows d d' km new w →
  entityRow (head d') k = if decide (km = k) then new else entityRow (head d) k.
Proof.
  intros Hk Hrows. unfold entityRow. rewrite Hrows.
  destruct (decide (km = k)) as [->|Hne].
  - by rewrite decide_True.
  - rewrite decide_False by (intros [_ ?%keyBytes_inj]; congruence).
    rewrite decide_False; [done|]. intros (_ & _ & Heq). by apply ordinary_not_meta in Heq.
Qed.

Lemma applyMuts_rows d ms :
  indexesKeepEntities → sane d → Forall applicable ms →
  ∃ d', applyMuts d ms = Ret d' ∧ sane d'
    ∧ ∀ k, ordinary k → entityRow (head d') k = rowAfter k ms (entityRow (head d) k).
Proof.
  intros Hidx Hsane Hms. revert d Hsane.
  induction Hms as [|m ms [Hord Hcomp] _ IH]; intros d Hsane.
  - exists d. by split.
  - rewrite applyMuts_cons.
    assert (∃ d1 w c,
              match txData m with
              | None => delMulti d [txKey m] (Some (λ e, e))
              | Some data =>
                  '(d1, _, err) ← putMulti d [txKey m] [data] (Some (λ _ e, e));
                  Ret (d1, [], err)
              end = Ret (d1, c, None)
              ∧ disableSpecialEntities d1 = disableSpecialEntities d
              ∧ writtenRows d d1 (txKey m) (writtenRow m) w) as (d1 & w & c & -> & Hfl & Hrows).
    { unfold writtenRow. destruct (txData m) as [data|].
      - destruct (putLocked_rows d (txKey m) (pmSave data) Hidx) as (d1 & w & Hp & Hfl & Hr);
          [by apply Hcomp|done|].
        rewrite putMulti_single, Hp. simpl. exists d1, w. eexists. by repeat split.
      - pose proof (mutableEntsLocked_sane d (namespace (txKey m)) Hsane) as Hsane0.
        pose proof (mutableEntsLocked_entsGet d (namespace (txKey m))) as Hrows0.
        pose proof (mutableEntsLocked_flag d (namespace (txKey m))) as Hfl0.
        destruct (delLocked_rows _ (txKey m) Hidx Hsane0) as (d1 & w & Hp & Hfl & Hr).
        rewrite delMulti_single, Hp. simpl. exists d1, w. eexists.
        split; [done|]. split; [congruence|].
        intros ns key. rewrite Hr, Hfl0, Hrows0. done. }
    simpl.
    assert (sane d1) as Hsane1.
    { apply (writtenRows_sane d d1 (txKey m) (writtenRow m) w); try done.
      unfold writtenRow. destruct (txData m); simpl; [|done].
      intros b [= <-]. unfold rpm. rewrite readPropertyMap_toBytes. eauto. }
    destruct (IH d1 Hsane1) as (d' & Happ & Hsane' & Hrow).
    exists d'. split; [done|]. split; [done|].
    intros k Hk. rewrite (Hrow k Hk). simpl.
    by rewrite (writtenRows_entityRow d d1 (txKey m) (writtenRow m) w k Hk Hrows).
Qed.

Lemma rowAfter_app k ms1 ms2 row :
  rowAfter k (ms1 ++ ms2) row = rowAfter k ms2 (rowAfter k ms1 row).
Proof. apply fold_left_app. Qed.

Lemma rowAfter_other k ms row :
  Forall (λ m, txKey m ≠ k) ms → rowAfter k ms row = row.
Proof.
  induction 1 as [|m ms Hm _ IH]; [done|]. simpl. by rewrite decide_False.
Qed.

Lemma rowAfter_last k ms row :
  rowAfter k ms row =
    match list.last (filter (λ m, txKey m = k) ms) with
    | Some m => writtenRow m
    | None => row
    end.
Proof.
  revert row. induction ms as [|m ms IH]; intros row; [done|]. simpl. rewrite IH.
  destruct (decide (txKey m = k)) as [Heq|Hne].
  - rewrite filter_cons_True by done. rewrite last_cons.
    by destruct (list.last (filter _ ms)).
  - by rewrite filter_cons_False.
Qed.

Lemma applyTxnOver_rows d (entries : list (bytes * list txnMutation)) :
  indexesKeepEntities → sane d → Forall (λ e, Forall applicable e.2) entries →
  ∃ d', applyTxnOver d entries = Ret d' ∧ sane d'
    ∧ ∀ k, ordinary k →
        entityRow (head d') k = rowAfter k (concat entries.*2) (entityRow (head d) k).
Proof.
  intros Hidx Hsane Hes. revert d Hsane.
  induction Hes as [|[rk ms] rest Hms _ IH]; intros d Hsane.
  - exists d. by split.
  - simpl in *. destruct (applyMuts_rows d ms Hidx Hsane Hms) as (d1 & -> & Hsane1 & Hrow1).
    simpl. destruct (IH d1 Hsane1) as (d' & Happ & Hsane' & Hrow).
    exists d'. split; [done|]. split; [done|].
    intros k Hk. by rewrite (Hrow k Hk), (Hrow1 k Hk), rowAfter_app.
Qed.

Lemma rowAfter_grouped k (entries : list (bytes * list txnMutation)) row :
  NoDup entries.*1 →
  Forall (λ e, Forall (λ m, e.1 = rootOf (txKey m)) e.2) entries →
  rowAfter k (concat entries.*2) row =
    rowAfter k (default [] ((list_to_map entries : gmap bytes (list txnMutation))
                              !! rootOf k)) row.
Proof.
  revert row. induction entries as [|[rk ms] rest IH]; intros row Hnd Hg; [done|].
  simpl in *. apply list.NoDup_cons in Hnd as [Hrk Hnd].
  apply list.Forall_cons in Hg as [Hms Hg]. simpl in Hms.
  rewrite rowAfter_app, (IH _ Hnd Hg).
  destruct (decide (rk = rootOf k)) as [->|Hne].
  - rewrite lookup_insert_eq. simpl.
    rewrite (not_elem_of_list_to_map_1 _ _ Hrk). done.
  - rewrite lookup_insert_ne by done. f_equal. apply rowAfter_other.
    eapply list.Forall_impl; [exact Hms|]. intros m Hm Heq. simpl in Hm. congruence.
Qed.

(** X19.  A commit applies the log, and the last write to a key wins.  On a
    store without corrupt rows, with an index engine that leaves the
    entities alone, and for a well-formed log, [applyTxn] returns (it does
    not panic), leaves a store without corrupt rows, and afterwards a get of
    a key returns what the last mutation of the key in the log of its group
    wrote: no such entity after a deletion, the saved property map after a
    put; a key without a mutation reads as before the commit. *)
Theorem applyTxn_last_write_wins (d : dataStoreData) (txn : txnDataStoreData) :
  indexesKeepEntities → sane d → wellFormedLog txn →
  ∃ d', applyTxn d txn = Ret d' ∧ sane d'
    ∧ ∀ k, ordinary k →
        getMulti d' [k] =
          Ret ([match list.last (filter (λ m, txKey m = k)
                                   (default [] (muts txn !! rootOf k))) with
                | Some m =>
                    match txData m with
                    | Some data => (Some (pmSave data), None)
                    | None => (None, Some ErrNoSuchEntity)
                    end
                | None => rowResult (entityRow (head d) k)
                end], None).
Proof.
  intros Hidx Hsane Hwf. unfold applyTxn.
  destruct (applyTxnOver_rows d (map_to_list (muts txn)) Hidx Hsane)
    as (d' & Happ & Hsane' & Hrow).
  { apply list.Forall_forall. intros [rk ms] Hin%elem_of_map_to_list.
    apply list.Forall_forall. intros m Hm. simpl in Hm.
    destruct (Hwf rk ms m Hin Hm) as (_ & ? & ?). by split. }
  exists d'. split; [done|]. split; [done|].
  intros k Hk. rewrite getMulti_one, (Hrow k Hk).
  rewrite rowAfter_grouped, list_to_map_to_list, rowAfter_last.
  - destruct (list.last _) as [m|]; [|done].
    unfold writtenRow. destruct (txData m) as [data|]; simpl; [|done].
    unfold rpm. by rewrite readPropertyMap_toBytes.
  - apply NoDup_fst_map_to_list.
  - apply list.Forall_forall. intros [rk ms] Hin%elem_of_map_to_list.
    apply list.Forall_forall. intros m Hm. simpl in *.
    by destruct (Hwf rk ms m Hin Hm) as (? & _).
Qed.

(** X20.  The log of a transaction is filed by entity group: whatever ran
    since the transaction was made, every mutation of its log is under the
    encoded root of its key. *)
Theorem txn_log_grouped (d0 : dataStoreData) (o : option TransactionOptions)
    (ops : list op) (d : dataStoreData) (td : txnDataStoreData) :
  runOps (d0, mkTxn d0 o) ops = Ret (d, td) →
  ∀ rk ms m, muts td !! rk = Some ms → m ∈ ms → rk = rootOf (txKey m).
Proof.
  apply (runOps_preserves
           (λ td, ∀ rk ms m, muts td !! rk = Some ms → m ∈ ms → rk = rootOf (txKey m))).
  - intros t getOnly key data Ht rk ms m.
    destruct (writeMutation t getOnly key data).2 as [e|] eqn:E.
    { rewrite writeMutation_err_same by (rewrite E; eauto). apply Ht. }
    destruct getOnly.
    + unfold writeMutation in *. fold (rootOf key) in *.
      destruct (muts t !! rootOf key) as [l|] eqn:El; simpl in *; [apply Ht|].
      destruct (decide _); simpl in *; [apply Ht|].
      destruct (decide (rk = rootOf key)) as [->|Hne].
      * rewrite lookup_insert_eq. intros [= <-] Hin. by apply elem_of_nil in Hin.
      * rewrite lookup_insert_ne by done. apply Ht.
    + rewrite (writeMutation_ok_lookup t key data rk E).
      destruct (decide (rk = rootOf key)) as [->|Hne]; [|apply Ht].
      intros [= <-] [Hin|Hin%list_elem_of_singleton]%elem_of_app; [|by subst m].
      destruct (muts t !! rootOf key) as [l|] eqn:El; simpl in Hin.
      * by eapply Ht.
      * by apply elem_of_nil in Hin.
  - intros rk ms m Hl. simpl in Hl. by rewrite lookup_empty in Hl.
Qed.

End Commit.

(** A commit on the fresh store of a log that deletes [sampleKey] and then
    puts an empty entity under it: the put wins. *)
Section CommitSample.
Import memory samples.

Definition sampleLog : txnDataStoreData :=
  {| closed := false; isXG := false; tsnap := ∅;
     muts := {[ rootOf sampleKey :=
                  [mkTxnMutation sampleKey None; mkTxnMutation sampleKey (Some ∅)] ]} |}.

Lemma sampleStore_sane : sane sampleStore.
Proof. split; [done|]. intros _. exact sampleStore_versionsReadable. Qed.

Lemma sampleKey_ordinary : ordinary sampleKey.
Proof. unfold ordinary. simpl. intros H. simplify_eq. Qed.

Lemma sampleLog_wellFormed : wellFormedLog sampleLog.
Proof.
  intros rk ms m Hl Hin. unfold sampleLog in Hl. simpl muts in Hl.
  apply lookup_singleton_Some in Hl as [<- <-].
  assert (txKey m = sampleKey) as ->.
  { apply elem_of_cons in Hin as [->|Hin]; [done|].
    apply list_elem_of_singleton in Hin as ->. done. }
  split; [done|]. split; [exact sampleKey_ordinary|done].
Qed.

Lemma applyTxn_last_write_wins_witness :
  ∃ d', applyTxn sampleStore sampleLog = Ret d'
    ∧ getMulti d' [sampleKey] = Ret ([(Some (pmSave ∅), None)], None).
Proof.
  destruct (applyTxn_last_write_wins sampleStore sampleLog noIndexes_keepEntities
              sampleStore_sane sampleLog_wellFormed) as (d' & Happ & _ & Hget).
  exists d'. split; [exact Happ|].
  rewrite (Hget sampleKey sampleKey_ordinary).
  unfold sampleLog. simpl muts. rewrite lookup_singleton_eq. simpl default.
  rewrite filter_cons_True by done. rewrite filter_cons_True by done.
  by rewrite filter_nil.
Defined.

Lemma txn_log_grouped_witness :
  ∃ td, runOps (sampleStore, mkTxn sampleStore None) [OpTxnDel [sampleKey] true]
          = Ret (sampleStore, td)
    ∧ muts td !! rootOf sampleKey = Some [mkTxnMutation sampleKey None]
    ∧ rootOf sampleKey = rootOf (txKey (mkTxnMutation sampleKey None)).
Proof.
  eexists. split; [reflexivity|].
  assert (muts (txnDelMulti (mkTxn sampleStore None) [sampleKey] true).1
            !! rootOf sampleKey = Some [mkTxnMutation sampleKey None]) as Hl.
  { unfold txnDelMulti, writeMutation, mkTxn. simpl muts. rewrite lookup_empty.
    simpl. rewrite map_size_empty. simpl. rewrite insert_insert_eq.
    by rewrite lookup_insert_eq. }
  split; [exact Hl|].
  apply (txn_log_grouped sampleStore None [OpTxnDel [sampleKey] true] sampleStore _ eq_refl
           (rootOf sampleKey) [mkTxnMutation sampleKey None] _ Hl).
  apply list_elem_of_here.
Defined.

End CommitSample.

(** ** Transactions that only read *)
Section ReadOnly.
Import memory.
Context {codec : Serialize} {ext : Externals}.








End ReadOnly.

Section ReadOnlySample.
Import memory samples.


End ReadOnlySample.

(** ** IDs allocated inside a transaction *)
Section TxnAllocation.
Import memory.
Context {codec : Serialize} {ext : Externals}.

(** X22.  A put of an incomplete key inside a transaction takes its ID from
    the head at once, not at commit: with the special entities enabled and
    the counter row of the key readable as [c], the callback gets the key
    completed with the ID after [c], the mutation is logged under that key
    (or refused by [writeMutation], whose error the callback gets), and the
    counter of the head has advanced whether or not the mutation was
    accepted, so that the ID is not handed out again. *)
Theorem txnPutMulti_allocates (d : dataStoreData) (td : txnDataStoreData)
    (k : Key) (v : PropertyMap) (c : Z) :
  disableSpecialEntities d = false → keyIncomplete k = true →
  idCounter (head d) k = Ret c →
  let k' := NewKey (appID k) (namespace k) (keyKind k) "" (add64 c 1) (keyParent k) in
  let r := writeMutation td false k' (Some v) in
  ∃ d', txnPutMulti d td [k] [v] true = Ret (d', r.1, [(k', r.2)])
    ∧ idCounter (head d') k = Ret (add64 c 1)
    ∧ ∃ d'', allocateIDs d' k 1 = Ret (d'', (add64 (add64 c 1) 1, None)).
Proof.
  intros Hf Hk Hc k' r. unfold txnPutMulti, txnPutMultiLoop.
  destruct (mutableEntsLocked_spec d (namespace k)) as (Hcoll & Hget & _ & Hfl).
  destruct (mutableEntsLocked d (namespace k)) as [d0 ents]. simpl in Hcoll, Hget, Hfl.
  subst ents. unfold fixKeyLocked. rewrite Hk. unfold allocateIDsLocked. rewrite Hfl, Hf.
  fold (idCounterKey k).
  destruct (incrementLocked_spec (head d0) ("ents:" +:+ namespace k) (idCounterKey k) 1 c)
    as (h' & Hinc & Hc'); [lia| |].
  { unfold GetCollection. rewrite Hget, curVersion_default. exact Hc. }
  rewrite Hinc. simpl. fold k'. fold r. destruct r as [td1 err1] eqn:Er. simpl.
  eexists. split; [done|].
  assert (idCounter (head (withHead d0 h')) k = Ret (add64 c 1)) as Hc1.
  { unfold idCounter. simpl. exact Hc'. }
  split; [exact Hc1|].
  destruct (allocateIDs_spec (withHead d0 h') k 1 (add64 c 1)) as (d'' & Ha & _);
    [simpl; congruence|lia|done|]. eauto.
Qed.

End TxnAllocation.

Section TxnAllocationSample.
Import memory samples.

Lemma txnPutMulti_allocates_witness :
  ∃ d' td' d'',
    txnPutMulti sampleStore (mkTxn sampleStore None) [sampleIncomplete] [∅] true
      = Ret (d', td', [(NewKey "dev~app" "ns" "Foo" "" 1 None, None)])
    ∧ allocateIDs d' sampleIncomplete 1 = Ret (d'', (2, None)).
Proof.
  destruct (txnPutMulti_allocates sampleStore (mkTxn sampleStore None) sampleIncomplete ∅ 0
              eq_refl eq_refl eq_refl) as (d' & Hput & _ & d'' & Ha).
  eexists d', _, d''. split; [exact Hput|exact Ha].
Defined.

End TxnAllocationSample.

(** ** The callback protocol of a put *)
Section PutCallbacks.
Import memory.
Context {codec : Serialize} {ext : Externals}.





End PutCallbacks.

Section PutCallbacksSample.
Import memory samples.



End PutCallbacksSample.

(** ** What a get leaves in the log *)
Section GetLog.
Import memory.
Context {codec : Serialize} {ext : Externals}.

(** [td'] extends the log of [td] by empty entries for groups of [keys]. *)
Definition groupsAdded (td td' : txnDataStoreData) (keys : list Key) : Prop :=
  (∀ rk ms, muts td !! rk = Some ms → muts td' !! rk = Some ms)
  ∧ (∀ rk ms, muts td' !! rk = Some ms → muts td !! rk = None →
       ms = [] ∧ ∃ k, k ∈ keys ∧ rk = rootOf k).

Lemma writeMutation_getOnly_groupsAdded td key data :
  groupsAdded td (writeMutation td true key data).1 [key].
Proof.
  unfold groupsAdded, writeMutation. fold (rootOf key).
  destruct (muts td !! rootOf key) as [l|] eqn:El; simpl.
  - split; [done|]. intros rk ms H1 H2. congruence.
  - destruct (decide _); simpl.
    + split; [done|]. intros rk ms H1 H2. congruence.
    + split.
      * intros rk ms Hl. rewrite lookup_insert_ne; [done|]. congruence.
      * intros rk ms Hl Hn. destruct (decide (rk = rootOf key)) as [->|Hne].
        -- rewrite lookup_insert_eq in Hl. injection Hl as <-. split; [done|].
           exists key. split; [apply list_elem_of_here|done].
        -- rewrite lookup_insert_ne in Hl by done. congruence.
Qed.

Lemma groupsAdded_trans td1 td2 td3 k keys :
  groupsAdded td1 td2 [k] → groupsAdded td2 td3 keys → groupsAdded td1 td3 (k :: keys).
Proof.
  intros [Hk1 Hn1] [Hk2 Hn2]. split.
  - intros rk ms Hl. by apply Hk2, Hk1.
  - intros rk ms Hl3 Hl1. destruct (muts td2 !! rk) as [ms2|] eqn:E2.
    + pose proof (Hk2 _ _ E2) as Hl3'. assert (ms = ms2) as -> by congruence.
      destruct (Hn1 _ _ E2 Hl1) as [-> (k' & ->%list_elem_of_singleton & ->)].
      split; [done|]. exists k. split; [apply list_elem_of_here|done].
    + destruct (Hn2 _ _ Hl3 E2) as [-> (k' & Hin & ->)]. split; [done|].
      exists k'. split; [by apply list_elem_of_further|done].
Qed.

Lemma groupsAdded_weaken td td' k keys :
  groupsAdded td td' [k] → groupsAdded td td' (k :: keys).
Proof.
  intros [Hk Hn]. split; [done|]. intros rk ms H1 H2.
  destruct (Hn rk ms H1 H2) as [-> (k' & ->%list_elem_of_singleton & ->)].
  split; [done|]. exists k. split; [apply list_elem_of_here|done].
Qed.

Lemma recordGroups_groupsAdded td keys :
  groupsAdded td (recordGroups td keys).1 keys.
Proof.
  revert td. induction keys as [|k keys IH]; intros td; simpl.
  - split; [done|]. intros rk ms H1 H2. congruence.
  - pose proof (writeMutation_getOnly_groupsAdded td k None) as H1.
    destruct (writeMutation td true k None) as [td1 [e|]]; simpl in *.
    + by apply groupsAdded_weaken.
    + by eapply groupsAdded_trans.
Qed.

(** X24.  A get of a transaction files groups, never mutations: the log of
    every group that was in the transaction is untouched, and a group that
    is new has an empty log and is the group of one of the keys.  When a
    key's group does not fit, the get returns [writeMutation]'s error and
    calls the callback for no key, and the groups of the keys before it stay
    in the transaction; otherwise the callback is called once per key. *)
Theorem txnGetMulti_files_groups_only (td : txnDataStoreData) (keys : list Key)
    (td' : txnDataStoreData) (r : list getCall * option error) :
  txnGetMulti td keys = Ret (td', r) →
  td' = (recordGroups td keys).1
  ∧ groupsAdded td td' keys
  ∧ r.2 = (recordGroups td keys).2
  ∧ (is_Some r.2 → r.1 = [])
  ∧ (r.2 = None → length r.1 = length keys
                  ∧ ∀ k, k ∈ keys → is_Some (muts td' !! rootOf k)).
Proof.
  unfold txnGetMulti. pose proof (recordGroups_groupsAdded td keys) as Hg.
  assert ((recordGroups td keys).2 = None →
          ∀ k, k ∈ keys → is_Some (muts (recordGroups td keys).1 !! rootOf k)) as Hall.
  { clear Hg. revert td. induction keys as [|k keys IH]; intros td Hr k0 Hin.
    - by apply elem_of_nil in Hin.
    - simpl in *.
      pose proof (writeMutation_ok_dom td true k None) as Hdom.
      destruct (writeMutation td true k None) as [td1 [e|]] eqn:Ew; simpl in *; [done|].
      destruct (Hdom eq_refl) as (Hd & _).
      apply elem_of_cons in Hin as [->|Hin]; [|by apply IH].
      destruct (recordGroups_groupsAdded td1 keys) as [Hkeep _].
      assert (rootOf k ∈ dom (muts td1)) as Hk by (rewrite Hd; set_solver).
      apply elem_of_dom in Hk as [ms Hms].
      rewrite (Hkeep _ _ Hms). eauto. }
  destruct (recordGroups td keys) as [td1 [e|]]; simpl in *.
  - intros [= <- <-]. simpl. split; [done|]. split; [done|]. split; [done|].
    split; [done|]. intros ?. discriminate.
  - destruct keys as [|k0 keys]; [done|]. intros [= <- <-].
    split; [done|]. split; [done|].
    destruct (GetCollection (tsnap td1) ("ents:" +:+ namespace k0)) as [ents|]; simpl;
      (split; [done|]; split; [by intros [? ?]|]; intros _;
       split; [by rewrite length_fmap|by apply Hall]).
Qed.

End GetLog.

Section GetLogSample.
Import memory samples.

Lemma txnGetMulti_files_groups_only_witness :
  ∃ td' r, txnGetMulti (mkTxn sampleStore None) [sampleKey; sampleKey2] = Ret (td', r)
    ∧ r.1 = [] ∧ is_Some r.2
    ∧ td' = (recordGroups (mkTxn sampleStore None) [sampleKey; sampleKey2]).1.
Proof.
  assert (∃ td' e, txnGetMulti (mkTxn sampleStore None) [sampleKey; sampleKey2]
                   = Ret (td', ([], Some e))) as (td' & e & Hget).
  { unfold txnGetMulti, recordGroups, writeMutation, mkTxn. simpl muts.
    rewrite lookup_empty. simpl. rewrite map_size_empty. simpl.
    rewrite lookup_insert_ne.
    2:{ unfold rootOf. intros Heq%write_inj. discriminate. }
    rewrite lookup_empty. simpl. rewrite map_size_insert, lookup_empty, map_size_empty.
    simpl. eauto. }
  exists td', ([], Some e). split; [exact Hget|].
  destruct (txnGetMulti_files_groups_only _ _ _ _ Hget) as (Htd & _ & _ & Hnil & _).
  split; [apply Hnil; simpl; eauto|]. split; [simpl; eauto|exact Htd].
Defined.

End GetLogSample.
